(** * Lyrics-Cloud: the text extraction engine, the validator, the lexical
      statistics and the snippet locator, embedded from the TypeScript source.

    JavaScript strings are sequences of UTF-16 code units; every string
    operation of the source ([trim], [split], [replace], [match], ...) is
    modelled on that representation.  Regular expressions are transcribed
    into a small abstract syntax and run by a backtracking matcher that
    follows the ECMAScript matching rules. *)

From Stdlib Require Import ZArith QArith Qabs Qround List Bool Lia Ascii String Sorted.
From stdpp Require Import base option list gmap.

Local Open Scope Z_scope.

(** ** Strings *)

Module JS.

(** A string is the list of its UTF-16 code units (each in [0, 65535]). *)
Definition jsstring : Type := list Z.

(** *** Source literals

    String literals of the source are written as they are in the source; the
    file is UTF-8, so a literal is decoded from its UTF-8 bytes to UTF-16. *)

Definition cont (b : Z) : Z := Z.land b 0x3F.

Definition surrogates (cp : Z) : jsstring :=
  if cp <? 0x10000 then [cp]
  else [0xD800 + Z.shiftr (cp - 0x10000) 10; 0xDC00 + Z.land (cp - 0x10000) 0x3FF].

Fixpoint utf16_of_utf8 (bs : list Z) : jsstring :=
  match bs with
  | [] => []
  | b0 :: t =>
    if b0 <? 0x80 then b0 :: utf16_of_utf8 t
    else if b0 <? 0xE0 then
      match t with
      | b1 :: t1 =>
        Z.lor (Z.shiftl (Z.land b0 0x1F) 6) (cont b1) :: utf16_of_utf8 t1
      | _ => []
      end
    else if b0 <? 0xF0 then
      match t with
      | b1 :: b2 :: t2 =>
        Z.lor (Z.shiftl (Z.land b0 0x0F) 12) (Z.lor (Z.shiftl (cont b1) 6) (cont b2))
          :: utf16_of_utf8 t2
      | _ => []
      end
    else
      match t with
      | b1 :: b2 :: b3 :: t3 =>
        surrogates
          (Z.lor (Z.shiftl (Z.land b0 0x07) 18)
             (Z.lor (Z.shiftl (cont b1) 12) (Z.lor (Z.shiftl (cont b2) 6) (cont b3))))
          ++ utf16_of_utf8 t3
      | _ => []
      end
  end.

Definition js (s : string) : jsstring :=
  utf16_of_utf8 (List.map (fun a => Z.of_N (N_of_ascii a)) (list_ascii_of_string s)).

Definition jsstring_eqb (a b : jsstring) : bool := bool_decide (a = b).

(** *** White space

    [WhiteSpace] and [LineTerminator] of ECMAScript: what [trim] strips and
    what the regular expression class [\s] matches. *)
Definition isWhiteSpace (c : Z) : bool :=
  (c =? 0x09) || (c =? 0x0A) || (c =? 0x0B) || (c =? 0x0C) || (c =? 0x0D)
  || (c =? 0x20) || (c =? 0xA0) || (c =? 0x1680)
  || ((0x2000 <=? c) && (c <=? 0x200A))
  || (c =? 0x2028) || (c =? 0x2029) || (c =? 0x202F) || (c =? 0x205F)
  || (c =? 0x3000) || (c =? 0xFEFF).

(** [LineTerminator]: what the regular expression [.] does not match. *)
Definition isLineTerminator (c : Z) : bool :=
  (c =? 0x0A) || (c =? 0x0D) || (c =? 0x2028) || (c =? 0x2029).

Fixpoint trimStart (s : jsstring) : jsstring :=
  match s with
  | c :: t => if isWhiteSpace c then trimStart t else s
  | [] => []
  end.

Definition trimEnd (s : jsstring) : jsstring := rev (trimStart (rev s)).

Definition trim (s : jsstring) : jsstring := trimEnd (trimStart s).

(** Truthiness of a string: [Boolean(s)], [!s], [s || d]. *)
Definition truthy (s : jsstring) : bool :=
  match s with [] => false | _ => true end.

(** *** [split] on a one-character separator and [join] *)

Fixpoint split_on (sep : Z) (s : jsstring) : list jsstring :=
  match s with
  | [] => [[]]
  | c :: t =>
    match split_on sep t with
    | cur :: rest => if c =? sep then [] :: cur :: rest else (c :: cur) :: rest
    | [] => [[]]
    end
  end.

Fixpoint join (sep : jsstring) (parts : list jsstring) : jsstring :=
  match parts with
  | [] => []
  | [p] => p
  | p :: rest => p ++ sep ++ join sep rest
  end.

(** [s.includes(t)]: [t] occurs in [s] as a contiguous run. *)
Fixpoint startsWith (t s : jsstring) : bool :=
  match t, s with
  | [], _ => true
  | a :: t', b :: s' => (a =? b) && startsWith t' s'
  | _ :: _, [] => false
  end.

Fixpoint includes (s t : jsstring) : bool :=
  startsWith t s || match s with [] => false | _ :: s' => includes s' t end.

Definition LF : Z := 0x0A.

(** *** Numbers

    A JavaScript number is an IEEE-754 double.  The code only ever produces
    integral doubles (parsed integers, counts, hashes) but it receives
    arbitrary ones from JSON, so a finite double is either integral, [Int z],
    or [Frac m k], the dyadic fraction [m / 2^k] with [m] odd.  Negative zero
    is not kept apart from zero: the code never divides by a number nor
    compares with [Object.is], and [String(-0)] is the text of zero. *)
Inductive number : Type :=
| NaN
| Inf (negative : bool)
| Int (z : Z)
| Frac (m : Z) (k : positive).

Definition Number_isFinite (x : number) : bool :=
  match x with NaN | Inf _ => false | Int _ | Frac _ _ => true end.

Definition Number_isInteger (x : number) : bool :=
  match x with Int _ => true | _ => false end.

(** Round a non-negative integer to the nearest double (ties to even); [None]
    when it overflows to [Infinity]. *)
Definition roundToDouble (n : Z) : option Z :=
  if n <? 2 ^ 53 then Some n
  else
    let e := Z.log2 n - 52 in
    let q := Z.shiftr n e in
    let r := n - Z.shiftl q e in
    let half := 2 ^ (e - 1) in
    let q' := if (half <? r) || ((r =? half) && Z.odd q) then q + 1 else q in
    let v := Z.shiftl q' e in
    if 2 ^ 1024 <=? v then None else Some v.

(** The value of a digit character in a radix up to 36. *)
Definition digitValue (c : Z) : option Z :=
  if (0x30 <=? c) && (c <=? 0x39) then Some (c - 0x30)
  else if (0x61 <=? c) && (c <=? 0x7A) then Some (c - 0x61 + 10)
  else if (0x41 <=? c) && (c <=? 0x5A) then Some (c - 0x41 + 10)
  else None.

(** The longest prefix of digits of the radix: (how many, their value). *)
Fixpoint digitPrefix (radix : Z) (s : jsstring) (count : nat) (acc : Z) : nat * Z :=
  match s with
  | c :: t =>
    match digitValue c with
    | Some d => if d <? radix then digitPrefix radix t (S count) (acc * radix + d)
                else (count, acc)
    | None => (count, acc)
    end
  | [] => (count, acc)
  end.

(** [Number.parseInt(s, radix)] for a radix in [2, 36]: leading white space
    is skipped, one sign is read, for radix 16 a [0x] prefix is dropped, and
    the longest digit prefix is the value; no digit at all gives [NaN]. *)
Definition parseInt (s : jsstring) (radix : Z) : number :=
  let s1 := trimStart s in
  let '(neg, s2) :=
    match s1 with
    | 0x2D :: t => (true, t)
    | 0x2B :: t => (false, t)
    | _ => (false, s1)
    end in
  let s3 :=
    match s2 with
    | 0x30 :: x :: t =>
      if (radix =? 16) && ((x =? 0x78) || (x =? 0x58)) then t else s2
    | _ => s2
    end in
  match digitPrefix radix s3 O 0 with
  | (O, _) => NaN
  | (_, v) =>
    match roundToDouble v with
    | Some d => Int (if neg then - d else d)
    | None => Inf neg
    end
  end.

(** [String.fromCharCode(x)]: the code unit [ToUint16(x)]. *)
Definition fromCharCode (x : number) : jsstring :=
  match x with
  | Int z => [z mod 65536]
  | Frac m k => [Z.quot m (Z.pow_pos 2 k) mod 65536]
  | NaN | Inf _ => [0]
  end.

(** Digits of a non-negative integer in a radix up to 36. *)
Definition digitChar (d : Z) : Z := if d <? 10 then 0x30 + d else 0x57 + d.

Fixpoint digitsFrom (fuel : nat) (radix n : Z) (acc : jsstring) : jsstring :=
  match fuel with
  | O => acc
  | S fuel' =>
    let acc' := digitChar (n mod radix) :: acc in
    if n <? radix then acc' else digitsFrom fuel' radix (n / radix) acc'
  end.

Definition natToString (radix n : Z) : jsstring :=
  digitsFrom (S (Z.to_nat (Z.log2 n))) radix n [].

(** **** [Number::toString]

    For a finite non-zero double [x] the text is made from the integers
    [n], [k], [s] with [k >= 1], [10^(k-1) <= s < 10^k], [s * 10^(n-k)]
    reading back as [x], and [k] as small as possible (the closest [s], then
    the even one, when several fit).  The reals that read back as [x] are
    those within half a unit in the last place, the bounds included when the
    significand of [x] is even. *)
Definition Qlt_bool (a b : Q) : bool := negb (Qle_bool b a).

Definition pow10 (e : Z) : Q := Qpower (inject_Z 10) e.
Definition pow2 (e : Z) : Q := Qpower (inject_Z 2) e.

(** [floor(log2 v)] for a positive rational. *)
Definition ilog2 (v : Q) : Z :=
  let d := Z.log2 (Qnum v) - Z.log2 (Zpos (Qden v)) in
  if Qle_bool (pow2 d) v then d else d - 1.

(** The least [n] from [start] on with [v < 10^n]. *)
Fixpoint decimalExponent (fuel : nat) (v : Q) (n : Z) : Z :=
  match fuel with
  | O => n
  | S fuel' => if Qlt_bool v (pow10 n) then n else decimalExponent fuel' v (n + 1)
  end.

Record interval : Type := { lo : Q; hi : Q; closed : bool }.

Definition readsBack (i : interval) (c : Q) : bool :=
  if closed i then Qle_bool (lo i) c && Qle_bool c (hi i)
  else Qlt_bool (lo i) c && Qlt_bool c (hi i).

Definition roundingInterval (v : Q) : interval :=
  let e := Z.max (ilog2 v) (-1022) in
  let ulp := pow2 (e - 52) in
  let sig := Qfloor (Qdiv v ulp) in
  let below :=
    if (sig =? 2 ^ 52) && (-1022 <? e) then Qdiv ulp (inject_Z 4)
    else Qdiv ulp (inject_Z 2) in
  {| lo := Qminus v below; hi := Qplus v (Qdiv ulp (inject_Z 2)); closed := Z.even sig |}.

(** The candidates [(n, s)] with [k] digits that read back as [v]. *)
Definition candidates (v : Q) (i : interval) (n0 k : Z) : list (Z * Z) :=
  flat_map
    (fun n =>
       let scale := pow10 (n - k) in
       let s0 := Qfloor (Qdiv v scale) in
       List.filter
         (fun ns =>
            let s := snd ns in
            (10 ^ (k - 1) <=? s) && (s <? 10 ^ k)
            && readsBack i (Qmult (inject_Z s) scale))
         [(n, s0); (n, s0 + 1)])
    [n0 - 1; n0; n0 + 1].

Definition distance (v : Q) (k : Z) (ns : Z * Z) : Q :=
  Qabs (Qminus (Qmult (inject_Z (snd ns)) (pow10 (fst ns - k))) v).

Definition closer (v : Q) (k : Z) (a b : Z * Z) : Z * Z :=
  let da := distance v k a in
  let db := distance v k b in
  if Qlt_bool db da then b
  else if Qlt_bool da db then a
  else if Z.even (snd a) then a else b.

Fixpoint shortest (fuel : nat) (v : Q) (i : interval) (n0 k : Z) : option (Z * Z * Z) :=
  match fuel with
  | O => None
  | S fuel' =>
    match candidates v i n0 k with
    | c :: cs => let '(n, s) := fold_left (closer v k) cs c in Some (n, k, s)
    | [] => shortest fuel' v i n0 (k + 1)
    end
  end.

Definition zeros (n : Z) : jsstring := repeat 0x30 (Z.to_nat n).

Definition formatDigits (n k s : Z) : jsstring :=
  let ds := natToString 10 s in
  if (k <=? n) && (n <=? 21) then ds ++ zeros (n - k)
  else if (0 <? n) && (n <=? 21) then
    take (Z.to_nat n) ds ++ [0x2E] ++ drop (Z.to_nat n) ds
  else if (-6 <? n) && (n <=? 0) then [0x30; 0x2E] ++ zeros (- n) ++ ds
  else
    let e := n - 1 in
    let exponent := [0x65; if e <? 0 then 0x2D else 0x2B] ++ natToString 10 (Z.abs e) in
    if k =? 1 then ds ++ exponent
    else take 1 ds ++ [0x2E] ++ drop 1 ds ++ exponent.

Definition positiveToString (v : Q) : jsstring :=
  let n0 := decimalExponent 8 v (ilog2 v * 30103 / 100000 - 2) in
  match shortest 17 v (roundingInterval v) n0 1 with
  | Some (n, k, s) => formatDigits n k s
  | None => []
  end.

Definition valueOf (x : number) : Q :=
  match x with
  | Int z => inject_Z z
  | Frac m k => Qmake m (Pos.pow 2 k)
  | NaN | Inf _ => inject_Z 0
  end.

(** [String(x)] for a number. *)
Definition numberToString (x : number) : jsstring :=
  match x with
  | NaN => js "NaN"
  | Inf false => js "Infinity"
  | Inf true => js "-Infinity"
  | Int 0 => js "0"
  | _ =>
    let v := valueOf x in
    if Qlt_bool v (inject_Z 0) then 0x2D :: positiveToString (Qopp v)
    else positiveToString v
  end.

End JS.

Import JS.

(** ** Regular expressions

    The patterns of the source in abstract syntax, and a backtracking matcher
    in continuation-passing style after the ECMAScript semantics: a
    quantifier tries its alternatives in the order greedy/lazy prescribes, an
    iteration that consumes nothing once the minimum is reached is refused,
    the groups inside a quantified atom are cleared when an iteration starts,
    and a lookahead keeps the groups it set but not the position. *)

Module Regex.

Inductive regex : Type :=
| Eps
| Chr (p : Z -> bool)
| Seq (a b : regex)
| Alt (a b : regex)
| Rep (greedy : bool) (min : nat) (max : option nat) (a : regex)
| Grp (i : nat) (a : regex)
| Bol
| Eol
| Ahead (a : regex).

(** Where the matcher stands: the index in the subject, what is left of the
    subject from there, and the groups captured so far. *)
Record mstate : Type := MState {
  m_pos : nat;
  m_rest : jsstring;
  m_caps : gmap nat jsstring
}.

Fixpoint groups (r : regex) : list nat :=
  match r with
  | Eps | Chr _ | Bol | Eol => []
  | Seq a b | Alt a b => groups a ++ groups b
  | Rep _ _ _ a | Ahead a => groups a
  | Grp i a => i :: groups a
  end.

Definition clearGroups (gs : list nat) (x : mstate) : mstate :=
  MState (m_pos x) (m_rest x) (foldr delete (m_caps x) gs).

Definition orElse {A} (a b : option A) : option A :=
  match a with Some _ => a | None => b end.

(** The quantifier [{min,max}] around an atom whose matcher is [atom],
    followed by [k].  [fuel] bounds the number of iterations; more than
    [min] plus the number of code units left are never made, an iteration
    past the minimum having to consume one. *)
Fixpoint repeatMatch (atom : mstate -> (mstate -> option mstate) -> option mstate)
    (inside : list nat) (greedy : bool) (k : mstate -> option mstate)
    (fuel : nat) (min : nat) (max : option nat) (x : mstate) {struct fuel}
  : option mstate :=
  match fuel with
  | O => None
  | S fuel' =>
    match max with
    | Some O => k x
    | _ =>
      let again (y : mstate) :=
        if Nat.eqb min 0 && Nat.eqb (m_pos y) (m_pos x) then None
        else repeatMatch atom inside greedy k fuel' (Nat.pred min) (Nat.pred <$> max) y in
      let x' := clearGroups inside x in
      match min with
      | S _ => atom x' again
      | O =>
        if greedy then orElse (atom x' again) (k x)
        else orElse (k x) (atom x' again)
      end
    end
  end.

Fixpoint run (r : regex) (x : mstate) (k : mstate -> option mstate) {struct r}
  : option mstate :=
  match r with
  | Eps => k x
  | Chr p =>
    match m_rest x with
    | c :: t => if p c then k (MState (S (m_pos x)) t (m_caps x)) else None
    | [] => None
    end
  | Seq a b => run a x (fun y => run b y k)
  | Alt a b => orElse (run a x k) (run b x k)
  | Grp i a =>
    run a x (fun y =>
      k (MState (m_pos y) (m_rest y)
           (<[i := take (m_pos y - m_pos x) (m_rest x)]> (m_caps y))))
  | Bol => if Nat.eqb (m_pos x) 0 then k x else None
  | Eol => match m_rest x with [] => k x | _ :: _ => None end
  | Ahead a =>
    match run a x Some with
    | Some y => k (MState (m_pos x) (m_rest x) (m_caps y))
    | None => None
    end
  | Rep greedy min max a =>
    repeatMatch (run a) (groups a) greedy k (S (min + length (m_rest x))) min max x
  end.

(** [y] is [x] further on in the same subject: what [x] has left is what the
    matcher passed on its way to [y] and what [y] has left. *)
Definition reaches (x y : mstate) : Prop :=
  (m_pos x <= m_pos y)%nat
  /\ (m_pos y - m_pos x + length (m_rest y) = length (m_rest x))%nat.

(** One attempt at index [pos], [s] being the subject from there on. *)
Definition matchAt (r : regex) (pos : nat) (s : jsstring) : option mstate :=
  run r (MState pos s ∅) Some.

(** What [exec] returns: the index of the match, its text and its groups
    (a group that took no part is absent: [undefined]). *)
Record match_result : Type := Match {
  index : nat;
  matched : jsstring;
  captures : gmap nat jsstring
}.

Definition result_of (pos : nat) (s : jsstring) (y : mstate) : match_result :=
  Match pos (take (m_pos y - pos) s) (m_caps y).

Definition group (m : match_result) (i : nat) : option jsstring := captures m !! i.

(** [RegExp.prototype.exec] without the [g] and [y] flags, as [String.match]
    and [RegExp.test] use it: the first index at which the pattern matches. *)
Fixpoint execFrom (r : regex) (pos : nat) (s : jsstring) : option match_result :=
  match matchAt r pos s with
  | Some y => Some (result_of pos s y)
  | None =>
    match s with
    | [] => None
    | _ :: t => execFrom r (S pos) t
    end
  end.

Definition exec (r : regex) (s : jsstring) : option match_result := execFrom r O s.

Definition test (r : regex) (s : jsstring) : bool :=
  match exec r s with Some _ => true | None => false end.

(** [s.replace(r, f)] for a pattern with the [g] flag: matches are looked for
    from left to right, each from the end of the one before (one further
    after an empty match); [skip] counts the code units of the current match
    still to pass. *)
Fixpoint replaceFrom (r : regex) (f : match_result -> jsstring)
    (pos skip : nat) (s : jsstring) : jsstring :=
  match s with
  | [] =>
    match skip, matchAt r pos [] with
    | O, Some y => f (result_of pos [] y)
    | _, _ => []
    end
  | c :: t =>
    match skip with
    | S skip' => replaceFrom r f (S pos) skip' t
    | O =>
      match matchAt r pos s with
      | Some y =>
        match m_pos y - pos with
        | O => f (result_of pos s y) ++ c :: replaceFrom r f (S pos) O t
        | S n => f (result_of pos s y) ++ replaceFrom r f (S pos) n t
        end
      | None => c :: replaceFrom r f (S pos) O t
      end
    end
  end%nat.

Definition replaceAll (r : regex) (f : match_result -> jsstring) (s : jsstring)
  : jsstring :=
  replaceFrom r f O O s.

(** [s.split(r)] for a pattern without groups: the pattern is tried at every
    index in turn; a match that ends where the last piece started is
    passed over, any other closes the current piece.  [piece] holds the
    current piece reversed. *)
Fixpoint splitFrom (r : regex) (pos skip : nat) (piece : jsstring) (s : jsstring)
  : list jsstring :=
  match s with
  | [] => [rev piece]
  | c :: t =>
    match skip with
    | S skip' => splitFrom r (S pos) skip' piece t
    | O =>
      match matchAt r pos s with
      | Some y =>
        match m_pos y - pos, piece with
        | O, [] => splitFrom r (S pos) O [c] t
        | O, _ => rev piece :: splitFrom r (S pos) O [c] t
        | S n, _ => rev piece :: splitFrom r (S pos) n [] t
        end
      | None => splitFrom r (S pos) O (c :: piece) t
      end
    end
  end%nat.

Definition split (r : regex) (s : jsstring) : list jsstring :=
  match s with
  | [] => match matchAt r O [] with Some _ => [] | None => [[]] end
  | _ => splitFrom r O O [] s
  end.

(** *** Writing patterns *)

Definition seq (rs : list regex) : regex := foldr Seq Eps rs.
Definition star (a : regex) : regex := Rep true 0 None a.
Definition plus (a : regex) : regex := Rep true 1 None a.
Definition lazyPlus (a : regex) : regex := Rep false 1 None a.
Definition opt (a : regex) : regex := Rep true 0 (Some 1%nat) a.
Definition between (lo hi : nat) (a : regex) : regex := Rep true lo (Some hi) a.

Definition just (c : Z) : Z -> bool := Z.eqb c.
Definition oneOf (cs : jsstring) (c : Z) : bool := existsb (Z.eqb c) cs.
Definition range (lo hi : Z) (c : Z) : bool := (lo <=? c) && (c <=? hi).
Definition noneOf (cs : jsstring) (c : Z) : bool := negb (oneOf cs c).
Definition either (p q : Z -> bool) (c : Z) : bool := p c || q c.

(** [\s], [\d] and [.] (no [s] flag, no [u] flag). *)
Definition space : Z -> bool := isWhiteSpace.
Definition digit : Z -> bool := range 0x30 0x39.
Definition dot (c : Z) : bool := negb (isLineTerminator c).

(** A literal run of characters. *)
Definition lit (s : jsstring) : regex := seq (List.map (fun c => Chr (just c)) s).

(** A literal under the [i] flag.  Without the [u] flag a character is
    compared after [toUpperCase], except that a character from 128 on is
    never taken to one below 128: for an ASCII pattern only the two ASCII
    cases of a letter match. *)
Definition upper (c : Z) : Z := if range 0x61 0x7A c then c - 0x20 else c.
Definition isNoCase (c : Z) (x : Z) : bool := upper c =? upper x.
Definition litNoCase (s : jsstring) : regex :=
  seq (List.map (fun c => Chr (isNoCase c)) s).

(** A pattern that opens with a character test: it matches nowhere that test
    fails. *)
Definition leading (p : Z -> bool) (r : regex) : Prop :=
  forall x k,
    match m_rest x with c :: _ => p c = false | [] => True end -> run r x k = None.

End Regex.

Import Regex.

(** ** The text normalizer and the track extraction engine (lib/packgen) *)

Module Packgen.

Record PackageTrack : Type := {
  pt_title : jsstring;
  pt_album : option jsstring;
  (** [number | string] in the type; the engine only ever stores the four
      digits it matched, a string. *)
  pt_year : option jsstring;
  pt_lyricists : option (list jsstring);
  pt_lyrics : jsstring
}.

Record PackageResult : Type := {
  schema_version : Z;
  artist : jsstring;
  tracks : list PackageTrack
}.

Record ParseOptions : Type := { defaultArtist : option jsstring }.

Definition noOptions : ParseOptions := {| defaultArtist := None |}.

(** The replacement texts of the source hold no [$], so each stands for
    itself. *)
Definition constant (s : jsstring) : match_result -> jsstring := fun _ => s.

Definition captured (m : match_result) (i : nat) : jsstring := default [] (group m i).

Definition hexDigit : Z -> bool :=
  either digit (either (range 0x61 0x66) (range 0x41 0x46)).

Definition decodeEntities (text : jsstring) : jsstring :=
  let t1 := replaceAll (litNoCase (js "&nbsp;")) (constant (js " ")) text in
  let t2 := replaceAll (litNoCase (js "&lt;")) (constant (js "<")) t1 in
  let t3 := replaceAll (litNoCase (js "&gt;")) (constant (js ">")) t2 in
  let t4 := replaceAll (litNoCase (js "&amp;")) (constant (js "&")) t3 in
  let t5 := replaceAll (litNoCase (js "&quot;")) (constant [0x22]) t4 in
  let t6 := replaceAll (litNoCase (js "&#39;")) (constant (js "'")) t5 in
  let t7 :=
    replaceAll (seq [lit (js "&#x"); Grp 1 (plus (Chr hexDigit)); lit (js ";")])
      (fun m => fromCharCode (parseInt (captured m 1) 16)) t6 in
  replaceAll (seq [lit (js "&#"); Grp 1 (plus (Chr digit)); lit (js ";")])
    (fun m => fromCharCode (parseInt (captured m 1) 10)) t7.

Definition CR : Z := 0x0D.
Definition NBSP : Z := 0xA0.
Definition AMP : Z := 0x26.

Definition normalizeText (text : jsstring) : jsstring :=
  let t1 := replaceAll (lit [CR; LF]) (constant [LF]) (decodeEntities text) in
  let t2 := replaceAll (lit [CR]) (constant [LF]) t1 in
  replaceAll (lit [NBSP]) (constant (js " ")) t2.

Definition separators : regex := plus (Chr (oneOf (js "、,，;/|"))).

Definition splitArtists (value : jsstring) : list jsstring :=
  List.filter truthy (List.map trim (split separators value)).

Definition albumLineRe : regex :=
  seq [Bol; lit (js "《"); star (Chr space); Grp 1 (lazyPlus (Chr dot));
       star (Chr space); lit (js "》"); star (Chr space);
       opt (Grp 2 (between 4 4 (Chr digit))); star (Chr space);
       opt (Grp 3 (plus (Chr dot))); Eol].

Definition titleLineRe : regex :=
  seq [Bol; Grp 1 (seq [Chr (oneOf (js "<＜〈《【「")); star (Chr space)]);
       Grp 2 (lazyPlus (Chr dot));
       Grp 3 (seq [star (Chr space); Chr (oneOf (js ">＞〉》】」"))]);
       Grp 4 (star (Chr dot)); Eol].

Definition lyricistRe : regex :=
  seq [Grp 1 (Alt (lit (js "作词")) (lit (js "作詞"))); Chr (oneOf (js ":："));
       star (Chr space); Grp 2 (lazyPlus (Chr (noneOf (js "作曲"))));
       Ahead (Alt Eol (Alt (seq [plus (Chr space); lit (js "作曲")])
                        (Alt (lit (js "　")) (lit (js "&nbsp;")))))].

Definition composerRe : regex :=
  seq [Grp 1 (lit (js "作曲")); Chr (oneOf (js ":：")); star (Chr space);
       Grp 2 (plus (Chr dot)); Eol].

Definition nakedTitleRe : regex :=
  seq [Bol;
       between 2 12
         (Chr (either (range 0x4e00 0x9fa5)
                 (either (range 0x41 0x5A)
                    (either (range 0x61 0x7A)
                       (either digit (either space (oneOf (js "·・"))))))));
       Eol].

Definition creditOnlyRe : regex :=
  seq [Bol; Grp 1 (Alt (lit (js "作词")) (Alt (lit (js "作詞")) (lit (js "作曲"))));
       star (Chr space); Chr (oneOf (js ":："))].

Definition spaces : regex := plus (Chr space).

Record Draft : Type := {
  d_title : jsstring;
  d_lyricists : list jsstring;
  d_composers : list jsstring;
  d_lines : list jsstring
}.

Definition looksLikeNakedTitle (line : jsstring) : bool :=
  let compact := replaceAll spaces (constant []) line in
  if (length compact <? 2)%nat || (12 <? length compact)%nat then false
  else if includes line (js ":") || includes line (js "：") then false
  else test nakedTitleRe line.

(** The draft is updated in place in the source; here the updated draft is
    returned beside the flag. *)
Definition applyCreditsFromLine (line : jsstring) (draftRef : Draft) : Draft * bool :=
  let normalized := trim (replaceAll spaces (constant (js " ")) line) in
  let '(d1, applied1) :=
    match exec lyricistRe normalized with
    | Some m =>
      if truthy (captured m 2) then
        ({| d_title := d_title draftRef;
            d_lyricists := d_lyricists draftRef ++ splitArtists (captured m 2);
            d_composers := d_composers draftRef;
            d_lines := d_lines draftRef |}, true)
      else (draftRef, false)
    | None => (draftRef, false)
    end in
  match exec composerRe normalized with
  | Some m =>
    if truthy (captured m 2) then
      ({| d_title := d_title d1;
          d_lyricists := d_lyricists d1;
          d_composers := d_composers d1 ++ splitArtists (captured m 2);
          d_lines := d_lines d1 |}, true)
    else (d1, applied1)
  | None => (d1, applied1)
  end.

Definition isCreditOnlyLine (line : jsstring) : bool :=
  test creditOnlyRe (trim (replaceAll spaces (constant (js " ")) line)).

(** The three variables an album-context line sets. *)
Record Context : Type := {
  c_artist : jsstring;
  c_album : jsstring;
  c_year : option jsstring
}.

(** [album = match[1]?.trim() || album; if (match[2]) year = match[2];
     if (match[3]?.trim()) artist = match[3].trim();] *)
Definition albumContext (m : match_result) (c : Context) : Context :=
  {| c_album :=
       match trim <$> group m 1 with
       | Some a => if truthy a then a else c_album c
       | None => c_album c
       end;
     c_year :=
       match group m 2 with
       | Some y => if truthy y then Some y else c_year c
       | None => c_year c
       end;
     c_artist :=
       match trim <$> group m 3 with
       | Some a => if truthy a then a else c_artist c
       | None => c_artist c
       end |}.

(** The first loop: the first line that is not blank, and only that one, is
    tried as an album-context line. *)
Fixpoint firstContext (lines : list jsstring) (c : Context) : Context :=
  match lines with
  | [] => c
  | line :: rest =>
    let trimmed := trim line in
    if truthy trimmed then
      match exec albumLineRe trimmed with
      | Some m => albumContext m c
      | None => c
      end
    else firstContext rest c
  end.

(** The variables of the main loop. *)
Record State : Type := {
  s_context : Context;
  s_tracks : list PackageTrack;
  s_draft : option Draft;
  s_prevWasEmpty : bool
}.

Definition withDraft (st : State) (d : option Draft) (prev : bool) : State :=
  {| s_context := s_context st; s_tracks := s_tracks st;
     s_draft := d; s_prevWasEmpty := prev |}.

Definition flushDraft (st : State) : State :=
  match s_draft st with
  | None => st
  | Some draft =>
    let hasLyrics := existsb (fun line => (0 <? length (trim line))%nat) (d_lines draft) in
    if negb (truthy (d_title draft)) || negb hasLyrics then
      withDraft st None (s_prevWasEmpty st)
    else
      let lyrics := trimEnd (join [LF] (d_lines draft)) in
      {| s_context := s_context st;
         s_tracks :=
           s_tracks st ++
           [{| pt_title := d_title draft;
               pt_album := Some (c_album (s_context st));
               pt_year := c_year (s_context st);
               pt_lyricists :=
                 match d_lyricists draft with
                 | [] => None
                 | _ :: _ => Some (d_lyricists draft)
                 end;
               pt_lyrics := lyrics |}];
         s_draft := None;
         s_prevWasEmpty := s_prevWasEmpty st |}
  end.

Definition startDraft (title : jsstring) : Draft :=
  {| d_title := title; d_lyricists := []; d_composers := []; d_lines := [] |}.

Definition pushLine (line : jsstring) (d : Draft) : Draft :=
  {| d_title := d_title d; d_lyricists := d_lyricists d;
     d_composers := d_composers d; d_lines := d_lines d ++ [line] |}.

(** The body of the main loop for one line. *)
Definition step (st : State) (line0 : jsstring) : State :=
  let line := trim line0 in
  if negb (truthy line) then
    withDraft st (pushLine [] <$> s_draft st) true
  else
    match exec albumLineRe line with
    | Some albumMatch =>
      {| s_context := albumContext albumMatch (s_context st);
         s_tracks := s_tracks st; s_draft := s_draft st; s_prevWasEmpty := false |}
    | None =>
      match exec titleLineRe line with
      | Some titleMatch =>
        let st1 := flushDraft st in
        let draft := startDraft (trim (captured titleMatch 2)) in
        let rest := default [] (trim <$> group titleMatch 4) in
        let draft' := if truthy rest then fst (applyCreditsFromLine rest draft) else draft in
        withDraft st1 (Some draft') false
      | None =>
        if s_prevWasEmpty st && looksLikeNakedTitle line then
          withDraft (flushDraft st) (Some (startDraft (trim line))) false
        else
          match s_draft st with
          | None => withDraft st None false
          | Some draft =>
            let '(draft', creditApplied) := applyCreditsFromLine line draft in
            if creditApplied && isCreditOnlyLine line then
              withDraft st (Some draft') false
            else withDraft st (Some (pushLine line draft')) false
          end
      end
    end.

Definition UNKNOWN_ARTIST : jsstring := js "未知艺人".
Definition UNFILED : jsstring := js "未归档".

(** The lines the engine scans. *)
Definition linesOf (text : jsstring) : list jsstring :=
  List.map trim (split_on LF (normalizeText text)).

(** The debug logging of the source ([countTitles], [console.log]) has no
    part in the result and is left out. *)
Definition parseTextToPackage (text : jsstring) (options : ParseOptions) : PackageResult :=
  let lines := linesOf text in
  let artist0 :=
    match trim <$> defaultArtist options with
    | Some a => if truthy a then a else UNKNOWN_ARTIST
    | None => UNKNOWN_ARTIST
    end in
  let context0 := {| c_artist := artist0; c_album := UNFILED; c_year := None |} in
  let context1 := firstContext lines context0 in
  let st0 := {| s_context := context1; s_tracks := [];
                s_draft := None; s_prevWasEmpty := true |} in
  let st := flushDraft (fold_left step lines st0) in
  {| schema_version := 1;
     artist := c_artist (s_context st);
     tracks := s_tracks st |}.

End Packgen.

(** ** The record validator and canonicalizer (lib/schema) *)

Module Schema.

(** What [normalizeLyricsPackage] is handed: any value, as [JSON.parse] or
    the extraction engine makes it.  An object is the list of its own
    properties; reading a property that is not there gives [undefined]. *)
#[warnings="-register-all"]
Inductive value : Type :=
| VUndefined
| VNull
| VBool (b : bool)
| VNumber (n : number)
| VString (s : jsstring)
| VArray (items : list value)
| VObject (props : list (jsstring * value)).

Fixpoint lookupProp (props : list (jsstring * value)) (key : jsstring) : value :=
  match props with
  | [] => VUndefined
  | (k, v) :: rest => if jsstring_eqb k key then v else lookupProp rest key
  end.

Definition getProp (v : value) (key : jsstring) : value :=
  match v with
  | VObject props => lookupProp props key
  | _ => VUndefined
  end.

(** *** The zod schemas

    A schema reads a value found at a path and either gives the parsed value
    or the issues it found; an object or array schema reads all of its
    members and gathers their issues.  [parse] throws a [ZodError] holding
    the issues. *)
Inductive pathItem : Type := Key (k : jsstring) | Index (i : nat).

Inductive issueCode : Type := invalid_type | too_small | invalid_union.

Record ZodIssue : Type := {
  i_code : issueCode;
  i_path : list pathItem;
  i_message : option jsstring
}.

Inductive ZodResult (A : Type) : Type :=
| ZOk (a : A)
| ZErr (issues : list ZodIssue).
Arguments ZOk {A} a.
Arguments ZErr {A} issues.

Definition issuesOf {A} (r : ZodResult A) : list ZodIssue :=
  match r with ZOk _ => [] | ZErr issues => issues end.

Definition schema (A : Type) : Type := list pathItem -> value -> ZodResult A.

Definition zString : schema jsstring := fun path v =>
  match v with
  | VString s => ZOk s
  | _ => ZErr [{| i_code := invalid_type; i_path := path; i_message := None |}]
  end.

(** [z.number()] takes every number but [NaN]. *)
Definition zNumber : schema number := fun path v =>
  match v with
  | VNumber NaN | VUndefined | VNull | VBool _ | VString _ | VArray _ | VObject _ =>
    ZErr [{| i_code := invalid_type; i_path := path; i_message := None |}]
  | VNumber n => ZOk n
  end.

(** [.min(1, message)] on a string or an array. *)
Definition zMin1 {A} (message : jsstring) (s : schema (list A)) : schema (list A) :=
  fun path v =>
    match s path v with
    | ZOk l =>
      if (1 <=? length l)%nat then ZOk l
      else ZErr [{| i_code := too_small; i_path := path; i_message := Some message |}]
    | ZErr issues => ZErr issues
    end.

Definition zOptional {A} (s : schema A) : schema (option A) := fun path v =>
  match v with
  | VUndefined => ZOk None
  | _ => match s path v with ZOk a => ZOk (Some a) | ZErr issues => ZErr issues end
  end.

Definition zUnion {A B} (a : schema A) (b : schema B) : schema (A + B) := fun path v =>
  match a path v with
  | ZOk x => ZOk (inl x)
  | ZErr _ =>
    match b path v with
    | ZOk y => ZOk (inr y)
    | ZErr _ => ZErr [{| i_code := invalid_union; i_path := path; i_message := None |}]
    end
  end.

Fixpoint zItems {A} (s : schema A) (path : list pathItem) (i : nat) (items : list value)
  : ZodResult (list A) :=
  match items with
  | [] => ZOk []
  | v :: rest =>
    match s (path ++ [Index i]) v, zItems s path (S i) rest with
    | ZOk a, ZOk l => ZOk (a :: l)
    | r1, r2 => ZErr (issuesOf r1 ++ issuesOf r2)
    end
  end.

Definition zArray {A} (s : schema A) : schema (list A) := fun path v =>
  match v with
  | VArray items => zItems s path O items
  | _ => ZErr [{| i_code := invalid_type; i_path := path; i_message := None |}]
  end.

Record TrackInput : Type := {
  ti_id : option jsstring;
  ti_title : jsstring;
  ti_album : option jsstring;
  ti_year : option (jsstring + number);
  ti_lyricists : option (jsstring + list jsstring);
  ti_lyrics : jsstring
}.

Definition field {A} (s : schema A) (path : list pathItem) (v : value) (key : jsstring)
  : ZodResult A :=
  s (path ++ [Key key]) (getProp v key).

Definition TrackInputSchema : schema TrackInput := fun path v =>
  match v with
  | VObject _ =>
    let id := field (zOptional zString) path v (js "id") in
    let title := field (zMin1 (js "title is required") zString) path v (js "title") in
    let album := field (zOptional zString) path v (js "album") in
    let year := field (zOptional (zUnion zString zNumber)) path v (js "year") in
    let lyricists :=
      field (zOptional (zUnion zString (zArray zString))) path v (js "lyricists") in
    let lyrics := field (zMin1 (js "lyrics is required") zString) path v (js "lyrics") in
    match id, title, album, year, lyricists, lyrics with
    | ZOk i, ZOk t, ZOk a, ZOk y, ZOk ls, ZOk l =>
      ZOk {| ti_id := i; ti_title := t; ti_album := a; ti_year := y;
             ti_lyricists := ls; ti_lyrics := l |}
    | _, _, _, _, _, _ =>
      ZErr (issuesOf id ++ issuesOf title ++ issuesOf album ++ issuesOf year
            ++ issuesOf lyricists ++ issuesOf lyrics)
    end
  | _ => ZErr [{| i_code := invalid_type; i_path := path; i_message := None |}]
  end.

Record LyricsPackage : Type := {
  lp_schema_version : jsstring + number;
  lp_artist : jsstring;
  lp_tracks : list TrackInput
}.

Definition schemaVersionSchema : schema (jsstring + number) := zUnion zString zNumber.
Definition artistSchema : schema jsstring := zMin1 (js "artist is required") zString.
Definition tracksSchema : schema (list TrackInput) :=
  zMin1 (js "tracks is required") (zArray TrackInputSchema).

Definition LyricsPackageSchema : schema LyricsPackage := fun path v =>
  match v with
  | VObject _ =>
    let version := field schemaVersionSchema path v (js "schema_version") in
    let artist := field artistSchema path v (js "artist") in
    let tracks := field tracksSchema path v (js "tracks") in
    match version, artist, tracks with
    | ZOk sv, ZOk a, ZOk ts =>
      ZOk {| lp_schema_version := sv; lp_artist := a; lp_tracks := ts |}
    | _, _, _ => ZErr (issuesOf version ++ issuesOf artist ++ issuesOf tracks)
    end
  | _ => ZErr [{| i_code := invalid_type; i_path := path; i_message := None |}]
  end.

(** *** Canonical records *)

Record TrackRecord : Type := {
  id : jsstring;
  title : jsstring;
  album : jsstring;
  year : option number;
  yearText : jsstring;
  lyricists : list jsstring;
  lyrics : jsstring;
  artist : jsstring
}.

Record NormalizedPackage : Type := {
  schemaVersion : jsstring;
  np_artist : jsstring;
  tracks : list TrackRecord
}.

Definition nonWordSplit : regex := plus (Chr (oneOf (js "、,，;/|"))).

Definition normalizeLyricists (value : option (jsstring + list jsstring)) : list jsstring :=
  let pieces (source : jsstring) :=
    List.filter truthy (List.map trim (split nonWordSplit source)) in
  match value with
  | None => []
  | Some (inl []) => []
  | Some (inl source) => pieces source
  | Some (inr items) => pieces (join (js " ") items)
  end.

Definition UNKNOWN_YEAR : jsstring := js "未知".
Definition UNFILED : jsstring := js "未归档".
Definition ANONYMOUS : jsstring := js "佚名".

Definition normalizeYear (value : option (jsstring + number)) : option number * jsstring :=
  match value with
  | None | Some (inl []) => (None, UNKNOWN_YEAR)
  | Some v =>
    let parsed := match v with inr n => n | inl s => parseInt s 10 end in
    if Number_isFinite parsed then (Some parsed, numberToString parsed)
    else (None, match v with inl s => s | inr n => numberToString n end)
  end.

(** [hash = (hash * 31 + code) >>> 0] over the code units, then base 36. *)
Definition hashStep (hash code : Z) : Z := (hash * 31 + code) mod 2 ^ 32.

Definition hashString (value : jsstring) : jsstring :=
  natToString 36 (fold_left hashStep value 0).

Definition dash : jsstring := js "-".

Definition idBase (artist title album yearText : jsstring) : jsstring :=
  replaceAll (plus (Chr space)) (fun _ => dash)
    (artist ++ dash ++ title ++ dash ++ album ++ dash ++ yearText).

Definition makeId (artist title album yearText : jsstring) : jsstring :=
  let base := idBase artist title album yearText in
  base ++ dash ++ hashString base.

Definition normalizeTrack (artist : jsstring) (track : TrackInput) : TrackRecord :=
  let title := trim (ti_title track) in
  let album :=
    match ti_album track with
    | Some (c :: a) => trim (c :: a)
    | Some [] | None => UNFILED
    end in
  let '(year, yearText) := normalizeYear (ti_year track) in
  let lyricists := normalizeLyricists (ti_lyricists track) in
  let lyrics := trim (ti_lyrics track) in
  let id := default (makeId artist title album yearText) (ti_id track) in
  {| id := id; title := title; album := album; year := year; yearText := yearText;
     lyricists := match lyricists with [] => [ANONYMOUS] | _ :: _ => lyricists end;
     lyrics := lyrics; artist := artist |}.

Record ZodError : Type := { issues : list ZodIssue }.

Inductive outcome (A : Type) : Type :=
| Returns (a : A)
| Throws (e : ZodError).
Arguments Returns {A} a.
Arguments Throws {A} e.

Definition toText (v : jsstring + number) : jsstring :=
  match v with inl s => s | inr n => numberToString n end.

Definition normalizeLyricsPackage (input : value) : outcome NormalizedPackage :=
  match LyricsPackageSchema [] input with
  | ZErr found => Throws {| issues := found |}
  | ZOk parsed =>
    let artist := trim (lp_artist parsed) in
    Returns {| schemaVersion := toText (lp_schema_version parsed);
               np_artist := artist;
               tracks := List.map (normalizeTrack artist) (lp_tracks parsed) |}
  end.

End Schema.

(** ** The lexical statistics engine (lib/stats) *)

Module Stats.

Import Schema.

Record BigramToken : Type := { token : jsstring; count : Z }.

Definition TAB : Z := 0x09.

Definition stopWords : gset jsstring :=
  list_to_set
    (List.map js
       ["我们"; "你们"; "他们"; "她们"; "它们"; "自己"; "一个"; "没有"; "然后";
        "因为"; "所以"; "但是"; "如果"; "只是"; "就是"; "还是"; "已经"; "现在";
        "过去"; "未来"; "这样"; "那样"; "这里"; "那里"; "什么"; "怎么"; "可以";
        "不会"; "是否"; "可能"; "不要"; "不要"; "真的"; "真的"]%string).

Definition stopChars : gset jsstring :=
  list_to_set
    (List.map js
       ["的"; "了"; "在"; "是"; "我"; "你"; "他"; "她"; "它"; "也"; "和"; "与";
        "或"; "而"; "啊"; "哦"; "吗"; "呢"; "吧"; "呀"; "这"; "那"; "就"; "都";
        "被"; "让"; "为"; "有"; "无"; "不"; "没"; "可"; "很"; "再"; "又"; "并";
        "但"; "却"; "且"; "也"; "与"; "其"; "之"; "乎"; "者"; "矣"; "焉"; "哉";
        "于"; "以"; "所"; "乃"; "则"; "非"; "皆"; "、"; "。"; "，"; "！"; "？";
        "；"; "："; "“"; "”"; "《"; "》"; "（"; "）"; "【"; "】"; "—"; "-"; "_";
        " "]%string
     ++ [[LF]; [TAB]]).

Definition has (s : gset jsstring) (x : jsstring) : bool := bool_decide (x ∈ s).

Definition cjk : regex := Chr (range 0x4e00 0x9fa5).

Definition isValidChar (char : jsstring) : bool :=
  if has stopChars char then false else test cjk char.

Definition isPunctuation (value : jsstring) : bool :=
  test (Chr (oneOf (js "。，！？；：、“”《》【】（）—…-_"))) value.

Definition hasCjk (value : jsstring) : bool := test cjk value.

Record Options : Type := { includeSingle : option bool }.

Definition includeSingleOf (options : option Options) : bool :=
  default false (options ≫= includeSingle).

(** [Array.from(new Set(items))]: the first occurrence of each item, in order. *)
Definition unique (items : list jsstring) : list jsstring :=
  fold_left (fun kept x => if bool_decide (x ∈ kept) then kept else kept ++ [x]) items [].

(** [Array.from(text)]: the code points, a surrogate pair being one item. *)
Definition isHighSurrogate : Z -> bool := range 0xD800 0xDBFF.
Definition isLowSurrogate : Z -> bool := range 0xDC00 0xDFFF.

Fixpoint codePoints (s : jsstring) : list jsstring :=
  match s with
  | [] => []
  | c :: t =>
    match t with
    | d :: t' =>
      if isHighSurrogate c && isLowSurrogate d then [c; d] :: codePoints t'
      else [c] :: codePoints t
    | [] => [[c]]
    end
  end.

(** The map from token to count keeps its keys in the order they were first
    set. *)
Fixpoint mapGet (counts : list (jsstring * Z)) (key : jsstring) : option Z :=
  match counts with
  | [] => None
  | (k, n) :: rest => if jsstring_eqb k key then Some n else mapGet rest key
  end.

Fixpoint mapSet (counts : list (jsstring * Z)) (key : jsstring) (n : Z)
  : list (jsstring * Z) :=
  match counts with
  | [] => [(key, n)]
  | (k, m) :: rest =>
    if jsstring_eqb k key then (k, n) :: rest else (k, m) :: mapSet rest key n
  end.

(** [counts.set(token, (counts.get(token) ?? 0) + 1)] *)
Definition countToken (counts : list (jsstring * Z)) (token : jsstring)
  : list (jsstring * Z) :=
  mapSet counts token (default 0 (mapGet counts token) + 1).

(** The fallback: every two neighbouring code points that are both valid. *)
Fixpoint bigrams (chars : list jsstring) : list jsstring :=
  match chars with
  | first :: rest =>
    match rest with
    | second :: _ =>
      (if isValidChar first && isValidChar second then [first ++ second] else [])
      ++ bigrams rest
    | [] => []
    end
  | [] => []
  end.

(** [sort((a, b) => b.count - a.count)]: the sort is stable, so its result is
    the one of inserting each item before the first item that does not count
    more. *)
Fixpoint insertByCount (x : BigramToken) (sorted : list BigramToken) : list BigramToken :=
  match sorted with
  | [] => [x]
  | y :: rest => if count x <? count y then y :: insertByCount x rest else x :: y :: rest
  end.

Definition sortByCount (items : list BigramToken) : list BigramToken :=
  foldr insertByCount [] items.

(** [items.slice(0, limit)] for an integer limit: a negative limit counts
    from the end. *)
Definition slice0 {A} (items : list A) (limit : Z) : list A :=
  if limit <? 0 then take (Z.to_nat (Z.max (Z.of_nat (length items) + limit) 0)) items
  else take (Z.to_nat limit) items.

Section WithSegmenter.

(** [Intl.Segmenter("zh-Hans", { granularity: "word" })]: the segments of a
    text, when the runtime has the segmenter at all. *)
Variable Segmenter : option (jsstring -> list jsstring).

Definition keepToken (includeSingle : bool) (token : jsstring) : bool :=
  truthy token
  && negb (isPunctuation token)
  && hasCjk token
  && negb (negb includeSingle && (length token <? 2)%nat)
  && negb (has stopWords token)
  && negb ((length token =? 1)%nat && has stopChars token).

Definition segmentWords (text : jsstring) (options : option Options) : list jsstring :=
  match Segmenter with
  | Some segment =>
    List.filter (keepToken (includeSingleOf options)) (List.map trim (segment text))
  | None => []
  end.

Definition uniqueTextOf (track : TrackRecord) : jsstring :=
  join [LF] (unique (List.filter truthy (List.map trim (split_on LF (lyrics track))))).

(** The object literal [{ includeSingle }]. *)
Definition only (single : bool) : option Options :=
  Some {| includeSingle := Some single |}.

(** The tokens one track adds to the counts. *)
Definition tokensOf (single : bool) (track : TrackRecord) : list jsstring :=
  let uniqueText := uniqueTextOf track in
  match segmentWords uniqueText (only single) with
  | (_ :: _) as tokens => tokens
  | [] => bigrams (codePoints (replaceAll (plus (Chr space)) (fun _ => []) uniqueText))
  end.

Definition countsOf (single : bool) (tracks : list TrackRecord) : list (jsstring * Z) :=
  fold_left (fun counts track => fold_left countToken (tokensOf single track) counts)
    tracks [].

Definition buildBigramStats (tracks : list TrackRecord) (limit : option Z)
    (options : option Options) : list BigramToken :=
  let single := includeSingleOf options in
  slice0
    (sortByCount
       (List.map (fun '(token, count) => {| token := token; count := count |})
          (countsOf single tracks)))
    (default 20 limit).

End WithSegmenter.

End Stats.

(** ** The page: the snippet locator and the hand-over to the validator *)

Module Page.

Import Schema.

Record Snippet : Type := { line : jsstring; s_title : jsstring }.

(** The variables of [extractFocusedSnippets]. *)
Record Scan : Type := {
  results : list Snippet;
  seen : gset jsstring;
  perTrackCount : gmap jsstring nat
}.

Section WithCaseMapping.

(** [String.prototype.toLowerCase], by the case mapping of Unicode. *)
Variable toLowerCase : jsstring -> jsstring.

(** The inner loop over the lines of a track; the flag says that the loop
    returned from the function. *)
Fixpoint scanLines (trimmed : jsstring) (limit : Z) (track : TrackRecord)
    (lines : list jsstring) (st : Scan) : Scan * bool :=
  match lines with
  | [] => (st, false)
  | line :: rest =>
    if limit <=? Z.of_nat (length (results st)) then (st, true)
    else
      let normalized := trim line in
      if negb (truthy normalized) then scanLines trimmed limit track rest st
      else if negb (includes (toLowerCase normalized) trimmed) then
        scanLines trimmed limit track rest st
      else if bool_decide (normalized ∈ seen st) then
        scanLines trimmed limit track rest st
      else
        let used := default O (perTrackCount st !! id track) in
        if (2 <=? used)%nat then scanLines trimmed limit track rest st
        else
          scanLines trimmed limit track rest
            {| results := results st ++ [{| line := normalized; s_title := title track |}];
               seen := {[normalized]} ∪ seen st;
               perTrackCount := <[id track := S used]> (perTrackCount st) |}
  end.

Fixpoint scanTracks (trimmed : jsstring) (limit : Z) (tracks : list TrackRecord)
    (st : Scan) : list Snippet :=
  match tracks with
  | [] => results st
  | track :: rest =>
    match scanLines trimmed limit track (split_on LF (lyrics track)) st with
    | (st', true) => results st'
    | (st', false) => scanTracks trimmed limit rest st'
    end
  end.

Definition extractFocusedSnippets (tracks : list TrackRecord) (term : jsstring)
    (limit : option Z) : list Snippet :=
  let trimmed := toLowerCase (trim term) in
  if negb (truthy trimmed) then []
  else scanTracks trimmed (default 8 limit) tracks
         {| results := []; seen := ∅; perTrackCount := ∅ |}.

End WithCaseMapping.

(** The object the page hands to [normalizeLyricsPackage] after the
    extraction engine. *)
Definition optionalValue {A} (f : A -> value) (o : option A) : value :=
  match o with Some a => f a | None => VUndefined end.

Definition trackValue (t : Packgen.PackageTrack) : value :=
  VObject
    [(js "title", VString (Packgen.pt_title t));
     (js "album", optionalValue VString (Packgen.pt_album t));
     (js "year", optionalValue VString (Packgen.pt_year t));
     (js "lyricists",
      optionalValue (fun l => VArray (List.map VString l)) (Packgen.pt_lyricists t));
     (js "lyrics", VString (Packgen.pt_lyrics t))].

Definition packageValue (p : Packgen.PackageResult) : value :=
  VObject
    [(js "schema_version", VNumber (Int (Packgen.schema_version p)));
     (js "artist", VString (Packgen.artist p));
     (js "tracks", VArray (List.map trackValue (Packgen.tracks p)))].

(** The TXT branch of the import handler, up to the validator: tracks whose
    lyrics are blank are dropped, then tracks that repeat an (artist, title,
    year) key; with no track left nothing is imported ([None]: the handler
    shows a status line and returns). *)
Definition hasLyrics (track : Packgen.PackageTrack) : bool :=
  truthy (Packgen.pt_lyrics track)
  && (0 <? length (trim (Packgen.pt_lyrics track)))%nat.

Definition trackKey (artist : jsstring) (track : Packgen.PackageTrack) : jsstring :=
  artist ++ js "__" ++ Packgen.pt_title track ++ js "__"
  ++ default [] (Packgen.pt_year track).

Fixpoint firstByKey (artist : jsstring) (seen : gset jsstring)
    (tracks : list Packgen.PackageTrack) : list Packgen.PackageTrack :=
  match tracks with
  | [] => []
  | track :: rest =>
    let key := trackKey artist track in
    if bool_decide (key ∈ seen) then firstByKey artist seen rest
    else track :: firstByKey artist ({[key]} ∪ seen) rest
  end.

Definition importText (text : jsstring) : option (outcome NormalizedPackage) :=
  let parsed := Packgen.parseTextToPackage text Packgen.noOptions in
  let kept :=
    firstByKey (Packgen.artist parsed) ∅
      (List.filter hasLyrics (Packgen.tracks parsed)) in
  match kept with
  | [] => None
  | _ :: _ =>
    Some (normalizeLyricsPackage
            (packageValue
               {| Packgen.schema_version := Packgen.schema_version parsed;
                  Packgen.artist := Packgen.artist parsed;
                  Packgen.tracks := kept |}))
  end.

End Page.

(** ** Inputs and reference definitions used by the statements *)

Module Reference.

Import Packgen Schema Page.

(** The canonical six-line fixture. *)
Definition fixture : jsstring :=
  join [LF]
    [js "《回声档案》2024 演示艺人";
     js "雾灯之外";
     js "作词：示例词作者 作曲：示例作曲者";
     js "第一行歌词";
     [];
     js "第二行歌词"].

(** The same songs laid out as the engine reads them: a blank line before the
    bare title, and lyric lines that do not look like titles. *)
Definition spacedFixture : jsstring :=
  join [LF]
    [js "《回声档案》2024 演示艺人";
     [];
     js "雾灯之外";
     js "作词：示例词作者 作曲：示例作曲者";
     js "第一行歌词，";
     [];
     js "第二行歌词。"].

(** The artist name an album-context line carries after the album and the
    year, if the line is one and carries any. *)
Definition trailingArtist (line : jsstring) : option jsstring :=
  match exec albumLineRe (trim line) with
  | Some m =>
    match trim <$> group m 3 with
    | Some a => if truthy a then Some a else None
    | None => None
    end
  | None => None
  end.

(** The last artist name the lines carry, [fallback] if none does. *)
Definition lastArtist (lines : list jsstring) (fallback : jsstring) : jsstring :=
  fold_left (fun a line => default a (trailingArtist line)) lines fallback.

(** The length of the run of characters satisfying [p] a text opens with. *)
Fixpoint runLength (p : Z -> bool) (s : jsstring) : nat :=
  match s with
  | c :: t => if p c then S (runLength p t) else O
  | [] => O
  end.

(** Cutting a text at every character that satisfies [p]. *)
Definition extend (w : jsstring) (pieces : list jsstring) : list jsstring :=
  match pieces with
  | piece :: rest => (w ++ piece) :: rest
  | [] => [w]
  end.

Fixpoint cutAt (p : Z -> bool) (s : jsstring) : list jsstring :=
  match s with
  | [] => [[]]
  | c :: t => if p c then [] :: cutAt p t else extend [c] (cutAt p t)
  end.

(** [pieces.map((item) => item.trim()).filter(Boolean)] *)
Definition entries (pieces : list jsstring) : list jsstring :=
  List.filter truthy (List.map trim pieces).

(** The separators of the code: [、] [,] [，] [;] [/] [|]. *)
Definition isSeparator : Z -> bool := oneOf (js "、,，;/|").

(** The text the lyricists are read from: the string itself, the items of an
    array joined with spaces, nothing when the property is absent. *)
Definition lyricistSource (value : option (jsstring + list jsstring)) : jsstring :=
  match value with
  | None => []
  | Some (inl s) => s
  | Some (inr items) => join (js " ") items
  end.

(** The lyricists as the specification words them: cut at the full-width and
    half-width comma, the slash, the pipe and the middle dot, each entry
    trimmed, the empty ones dropped, later duplicates removed, the sentinel
    when nothing is left. *)
Definition claimedLyricists (source : jsstring) : list jsstring :=
  match Stats.unique (entries (cutAt (oneOf (js "，,/|·")) source)) with
  | [] => [ANONYMOUS]
  | entries => entries
  end.

(** A raw track with a title and lyrics only, and the same with lyricists or
    an album. *)
Definition rawTrack (title lyrics : jsstring) : TrackInput :=
  {| ti_id := None; ti_title := title; ti_album := None; ti_year := None;
     ti_lyricists := None; ti_lyrics := lyrics |}.

Definition withLyricists (track : TrackInput) (value : jsstring) : TrackInput :=
  {| ti_id := ti_id track; ti_title := ti_title track; ti_album := ti_album track;
     ti_year := ti_year track; ti_lyricists := Some (inl value);
     ti_lyrics := ti_lyrics track |}.

Definition withAlbum (track : TrackInput) (value : jsstring) : TrackInput :=
  {| ti_id := ti_id track; ti_title := ti_title track; ti_album := Some value;
     ti_year := ti_year track; ti_lyricists := ti_lyricists track;
     ti_lyrics := ti_lyrics track |}.

(** [{ "schema_version": 1, "artist": "A", "tracks": [{ "title": "T",
      "lyrics": " " }] }] *)
Definition blankLyricsPackage : value :=
  VObject
    [(js "schema_version", VNumber (Int 1));
     (js "artist", VString (js "A"));
     (js "tracks",
      VArray [VObject [(js "title", VString (js "T")); (js "lyrics", VString (js " "))]])].

(** The four fields the identifier is made from. *)
Definition quadruple (t : TrackRecord) : jsstring * jsstring * jsstring * jsstring :=
  (Schema.artist t, title t, album t, yearText t).

Definition baseOf (t : TrackRecord) : jsstring :=
  idBase (Schema.artist t) (title t) (album t) (yearText t).

(** A canonical track around given lyrics, and a track with other lyrics. *)
Definition trackOf (id title lyrics : jsstring) : TrackRecord :=
  {| id := id; title := title; album := Schema.UNFILED; year := None;
     yearText := UNKNOWN_YEAR; lyricists := [ANONYMOUS]; lyrics := lyrics;
     Schema.artist := js "演示艺人" |}.


(** How many times a token stands in a list of tokens. *)
Definition occurrences (token : jsstring) (tokens : list jsstring) : nat :=
  length (List.filter (jsstring_eqb token) tokens).

(** Counts that never go up along the list. *)
Definition nonIncreasing (tokens : list Stats.BigramToken) : Prop :=
  StronglySorted (fun a b => Stats.count b <= Stats.count a) tokens.

(** A segmenter to run the statistics with: it takes the runs between
    white space as the words of a text. *)
Definition wordsBetweenSpaces (text : jsstring) : list jsstring := cutAt space text.

(** What holds of the results at every point of the snippet scan: they are
    within the limit, each line contains the term and is trimmed, no line
    comes twice, and every line is in the set of seen lines. *)
Definition wellFormed (toLowerCase : jsstring -> jsstring) (trimmed : jsstring)
    (limit : Z) (st : Scan) : Prop :=
  Z.of_nat (length (results st)) <= limit
  /\ Forall (fun s => includes (toLowerCase (line s)) trimmed = true
                      /\ trim (line s) = line s) (results st)
  /\ NoDup (List.map line (results st))
  /\ (forall s, s ∈ results st -> line s ∈ seen st).

(** How many results the scan has taken from a track so far. *)
Definition usedBy (st : Scan) (track : TrackRecord) : nat :=
  default O (perTrackCount st !! id track).

(** A result taken from a track: its title, and one of its lines trimmed. *)
Definition fromTrack (track : TrackRecord) (s : Snippet) : Prop :=
  s_title s = title track
  /\ exists l, l ∈ split_on LF (lyrics track) /\ line s = trim l.

(** [toLowerCase] on texts whose only cased letters are the ASCII ones. *)
Definition asciiLowerCase (s : jsstring) : jsstring :=
  List.map (fun c => if range 0x41 0x5A c then c + 0x20 else c) s.

End Reference.

(** ** More string operations *)

Module Text.

(** [s.slice(start, end)] for integer arguments: a negative index counts from
    the end, and both indices are clamped to the string. *)
Definition relativeIndex (len : nat) (i : Z) : nat :=
  if i <? 0 then Z.to_nat (Z.max (Z.of_nat len + i) 0) else Nat.min (Z.to_nat i) len.

Definition slice {A} (s : list A) (start : Z) (stop : option Z) : list A :=
  let from := relativeIndex (length s) start in
  let to :=
    match stop with
    | Some e => relativeIndex (length s) e
    | None => length s
    end in
  take (to - from) (drop from s).

(** [s.indexOf(t, position)]: the first index from [position] on at which
    [t] occurs, [-1] when there is none. *)
Fixpoint indexOfFrom (t : jsstring) (pos : nat) (s : jsstring) : Z :=
  if startsWith t s then Z.of_nat pos
  else
    match s with
    | [] => -1
    | _ :: s' => indexOfFrom t (S pos) s'
    end.

Definition indexOf (s t : jsstring) (position : Z) : Z :=
  let start := Nat.min (Z.to_nat (Z.max position 0)) (length s) in
  indexOfFrom t start (drop start s).

End Text.

(** ** The search-result snippet (lib/highlight) *)

Module Highlight.

Import Packgen Text.

Definition escapeHtml (value : jsstring) : jsstring :=
  let t1 := replaceAll (lit (js "&")) (constant (js "&amp;")) value in
  let t2 := replaceAll (lit (js "<")) (constant (js "&lt;")) t1 in
  let t3 := replaceAll (lit (js ">")) (constant (js "&gt;")) t2 in
  let t4 := replaceAll (lit [0x22]) (constant (js "&quot;")) t3 in
  replaceAll (lit (js "'")) (constant (js "&#39;")) t4.

Record HighlightResult : Type := {
  snippet : jsstring;
  html : jsstring;
  leadingEllipsis : bool;
  trailingEllipsis : bool
}.

Section WithCaseMapping.

Variable toLowerCase : jsstring -> jsstring.

(** [radius] and [fallbackLength] are integers here (they default to 26 and
    70, and the function has no caller that passes another number). *)
Definition buildHighlightSnippet (text query : jsstring)
    (radius fallbackLength : option Z) : HighlightResult :=
  let radius := default 26 radius in
  let fallbackLength := default 70 fallbackLength in
  let normalized := trim (replaceAll spaces (constant (js " ")) text) in
  if negb (truthy normalized) then
    {| snippet := []; html := []; leadingEllipsis := false; trailingEllipsis := false |}
  else
    let trimmedQuery := trim query in
    if negb (truthy trimmedQuery) then
      let snippet := slice normalized 0 (Some fallbackLength) in
      {| snippet := snippet;
         html := escapeHtml snippet;
         leadingEllipsis := false;
         trailingEllipsis := (length snippet <? length normalized)%nat |}
    else
      let hitIndex := indexOf (toLowerCase normalized) (toLowerCase trimmedQuery) 0 in
      if hitIndex =? -1 then
        let snippet := slice normalized 0 (Some fallbackLength) in
        {| snippet := snippet;
           html := escapeHtml snippet;
           leadingEllipsis := false;
           trailingEllipsis := (length snippet <? length normalized)%nat |}
      else
        let start := Z.max 0 (hitIndex - radius) in
        let stop :=
          Z.min (Z.of_nat (length normalized))
            (hitIndex + Z.of_nat (length trimmedQuery) + radius) in
        let snippet := slice normalized start (Some stop) in
        let hitStart := hitIndex - start in
        let before := escapeHtml (slice snippet 0 (Some hitStart)) in
        let match_ :=
          escapeHtml
            (slice snippet hitStart (Some (hitStart + Z.of_nat (length trimmedQuery)))) in
        let after :=
          escapeHtml (slice snippet (hitStart + Z.of_nat (length trimmedQuery)) None) in
        {| snippet := snippet;
           html := before ++ js "<mark>" ++ match_ ++ js "</mark>" ++ after;
           leadingEllipsis := 0 <? start;
           trailingEllipsis := stop <? Z.of_nat (length normalized) |}.

End WithCaseMapping.

End Highlight.

(** ** The full-text search (lib/search) *)

Module SearchIndex.

Import Schema.

(** [new Map(tracks.map((track) => [track.id, track]))]: a later entry
    replaces an earlier one with the same key. *)
Definition byId (tracks : list TrackRecord) : gmap jsstring TrackRecord :=
  fold_left (fun m track => <[id track := track]> m) tracks ∅.

Section WithCaseMapping.

Variable toLowerCase : jsstring -> jsstring.

Definition haystack (track : TrackRecord) : jsstring :=
  toLowerCase
    (join (js " ")
       [title track; album track; yearText track; join (js " ") (lyricists track);
        lyrics track]).

Definition fallbackSearch (tracks : list TrackRecord) (query : jsstring)
  : list TrackRecord :=
  let trimmed := toLowerCase (trim query) in
  if negb (truthy trimmed) then tracks
  else List.filter (fun track => includes (haystack track) trimmed) tracks.

(** [fastSearch] is set once the FlexSearch module has loaded, if it ever
    does; a call of it returns tracks or throws ([None]). *)
Definition search (fastSearch : option (jsstring -> option (list TrackRecord)))
    (tracks : list TrackRecord) (query : jsstring) : list TrackRecord :=
  match fastSearch with
  | Some fast =>
    match fast query with
    | Some found => found
    | None => fallbackSearch tracks query
    end
  | None => fallbackSearch tracks query
  end.

End WithCaseMapping.

End SearchIndex.

(** ** The track list of the page: highlighted lines and lyric snippets *)

Module TrackList.

Import Text.

(** What the highlighters render: runs of plain text and marked hits.  The
    element of a hit carries the key made of the hit index and the cursor. *)
Inductive Element : Type := mark | snippetMark.

Inductive Part : Type :=
| Plain (text : jsstring)
| Marked (element : Element) (hitIndex cursor : Z) (text : jsstring).

(** The line itself when the query is blank, the parts otherwise. *)
Inductive Highlighted : Type :=
| Whole (line : jsstring)
| Parts (parts : list Part).

(** The [while (cursor < line.length)] loop; [None] when [fuel] iterations
    did not end it. *)
Fixpoint highlightLoop (element : Element) (line lowerLine lowerQuery : jsstring)
    (queryLength : Z) (fuel : nat) (cursor : Z) (parts : list Part)
  : option (list Part) :=
  if cursor <? Z.of_nat (length line) then
    match fuel with
    | O => None
    | S fuel' =>
      let hitIndex := indexOf lowerLine lowerQuery cursor in
      if hitIndex =? -1 then Some (parts ++ [Plain (slice line cursor None)])
      else
        let parts1 :=
          if cursor <? hitIndex then parts ++ [Plain (slice line cursor (Some hitIndex))]
          else parts in
        highlightLoop element line lowerLine lowerQuery queryLength fuel'
          (hitIndex + queryLength)
          (parts1
           ++ [Marked element hitIndex cursor
                 (slice line hitIndex (Some (hitIndex + queryLength)))])
    end
  else Some parts.

Record LyricSnippet : Type := {
  ls_start : Z;
  ls_end : Z;
  ls_lines : list jsstring
}.

(** [lines.map((line, index) => ({ line, index }))] *)
Fixpoint indexed (index : nat) (lines : list jsstring) : list (jsstring * nat) :=
  match lines with
  | [] => []
  | line :: rest => (line, index) :: indexed (S index) rest
  end.

Section WithCaseMapping.

Variable toLowerCase : jsstring -> jsstring.

(** The two highlighters differ in the element they wrap a hit in. *)
Definition highlight (element : Element) (line query : jsstring) : option Highlighted :=
  let trimmedQuery := trim query in
  if negb (truthy trimmedQuery) then Some (Whole line)
  else
    Parts <$>
      highlightLoop element line (toLowerCase line) (toLowerCase trimmedQuery)
        (Z.of_nat (length trimmedQuery)) (length line) 0 [].

Definition highlightLine : jsstring -> jsstring -> option Highlighted := highlight mark.

(** The loop over the hits of [getLyricSnippets].  The key of a window,
    the text [start-end], is kept as the pair it is made of: both are
    non-negative integers, so the text determines them. *)
Fixpoint collect (lines : list jsstring) (limit : Z) (hits : list (jsstring * nat))
    (snippets : list LyricSnippet) (used : gset (Z * Z)) : list LyricSnippet :=
  match hits with
  | [] => snippets
  | hit :: rest =>
    if limit <=? Z.of_nat (length snippets) then snippets
    else
      let start := Z.max 0 (Z.of_nat (snd hit) - 1) in
      let stop := Z.min (Z.of_nat (length lines) - 1) (Z.of_nat (snd hit) + 1) in
      if bool_decide ((start, stop) ∈ used) then collect lines limit rest snippets used
      else
        collect lines limit rest
          (snippets
           ++ [{| ls_start := start; ls_end := stop;
                  ls_lines := slice lines start (Some (stop + 1)) |}])
          ({[(start, stop)]} ∪ used)
  end.

Definition getLyricSnippets (lyrics query : jsstring) (limit : option Z)
  : list LyricSnippet :=
  let trimmed := trim query in
  if negb (truthy trimmed) then []
  else
    let lines := split_on LF lyrics in
    let hits :=
      List.filter
        (fun hit => includes (toLowerCase (fst hit)) (toLowerCase trimmed))
        (indexed O lines) in
    collect lines (default 3 limit) hits [] ∅.

End WithCaseMapping.

End TrackList.

(** ** The word cloud (components/WordCloud) *)

Module WordCloud.

(** [ToInt32]: an integer read as a signed 32-bit one. *)
Definition toInt32 (z : Z) : Z := (z + 2 ^ 31) mod 2 ^ 32 - 2 ^ 31.

(** [hash = (hash << 5) - hash + code; hash |= 0]: the shift works on 32-bit
    integers, the subtraction and the sum are exact doubles. *)
Definition hashStep (hash code : Z) : Z :=
  toInt32 (toInt32 (Z.shiftl (toInt32 hash) 5) - hash + code).

Definition hashString (value : jsstring) : Z := Z.abs (fold_left hashStep value 0).

(** [seededRandom]: the variable the returned function keeps, and the step
    it makes at each call.  [%] takes the sign of the dividend.  A call
    returns the new value divided by 2147483647. *)
Definition seedValue (seed : Z) : Z :=
  let value := Z.rem seed 2147483647 in
  if value <=? 0 then value + 2147483646 else value.

Definition nextValue (value : Z) : Z := Z.rem (value * 16807) 2147483647.

(** The value kept after [n] calls. *)
Definition valueAfter (seed : Z) (n : nat) : Z := Nat.iter n nextValue (seedValue seed).

Definition highlightSnippet (toLowerCase : jsstring -> jsstring)
  : jsstring -> jsstring -> option TrackList.Highlighted :=
  TrackList.highlight toLowerCase TrackList.snippetMark.

End WordCloud.

(** ** Notions used by the statements about the rest of the code *)

Module Notions.

Import Packgen Schema Stats Page Reference Text TrackList Highlight.

(** A text of white space only. *)
Definition blank (s : jsstring) : Prop := Forall (fun c => isWhiteSpace c = true) s.

(** A name as the engine stores it: not empty, no white space at its ends. *)
Definition nameOk (n : jsstring) : Prop := n <> [] /\ trim n = n.

(** A track the engine may emit: a title, an album, lyrics with a line that
    is not blank and nothing blank at their end, and lyricists, if any, that
    are names. *)
Definition filled (t : PackageTrack) : Prop :=
  nameOk (pt_title t)
  /\ trim (pt_lyrics t) <> []
  /\ trimEnd (pt_lyrics t) = pt_lyrics t
  /\ (exists a, pt_album t = Some a /\ nameOk a)
  /\ (forall names, pt_lyricists t = Some names -> names <> [] /\ Forall nameOk names).

Definition draftOk (d : Draft) : Prop :=
  trim (d_title d) = d_title d /\ Forall nameOk (d_lyricists d).

Definition stateOk (st : State) : Prop :=
  Forall filled (s_tracks st)
  /\ nameOk (c_album (s_context st))
  /\ (forall d, s_draft st = Some d -> draftOk d).

(** The raw track the validator reads from an extracted track handed over
    by the page. *)
Definition inputOf (t : PackageTrack) : TrackInput :=
  {| ti_id := None;
     ti_title := pt_title t;
     ti_album := pt_album t;
     ti_year := inl <$> pt_year t;
     ti_lyricists := inr <$> pt_lyricists t;
     ti_lyrics := pt_lyrics t |}.

Definition idle (st : State) : Prop := s_tracks st = [] /\ s_draft st = None.

(** The artist the engine starts from. *)
Definition startingArtist (options : ParseOptions) : jsstring :=
  match trim <$> defaultArtist options with
  | Some (c :: a) => c :: a
  | Some [] | None => UNKNOWN_ARTIST
  end.

Fixpoint collapse (p : Z -> bool) (w : jsstring) (inRun : bool) (s : jsstring) : jsstring :=
  match s with
  | [] => []
  | c :: t =>
    if p c then (if inRun then [] else w) ++ collapse p w true t
    else c :: collapse p w false t
  end.

(** The characters a bare title is made of: CJK ideographs, ASCII letters
    and digits, white space and the two middle dots. *)
Definition titleChar : Z -> bool :=
  either (range 0x4e00 0x9fa5)
    (either (range 0x41 0x5A)
       (either (range 0x61 0x7A) (either digit (either space (oneOf (js "·・")))))).

(** A lyricist name as the credit pattern can read it: it holds neither
    [作] nor [曲], and no separator. *)
Definition creditName (n : jsstring) : Prop :=
  Forall (fun c => noneOf (js "作曲") c = true /\ isSeparator c = false) n.

(** A year as the album-context pattern reads it: four digits. *)
Definition fourDigits (w : jsstring) : Prop :=
  length w = 4%nat /\ Forall (fun c => digit c = true) w.

Definition yearOk (y : option jsstring) : Prop :=
  match y with Some w => fourDigits w | None => True end.

Definition creditsOk (t : PackageTrack) : Prop :=
  (forall names, pt_lyricists t = Some names -> Forall creditName names)
  /\ yearOk (pt_year t).

Definition creditsKept (st : State) : Prop :=
  Forall creditsOk (s_tracks st)
  /\ yearOk (c_year (s_context st))
  /\ (forall d, s_draft st = Some d -> Forall creditName (d_lyricists d)).

(** The number four digits stand for. *)
Definition decimal (w : jsstring) : Z := fold_left (fun acc c => acc * 10 + (c - 0x30)) w 0.

Fixpoint iterate (n : nat) (R : mstate -> mstate -> Prop) (x y : mstate) : Prop :=
  match n with
  | O => y = x
  | S n' => exists m, R x m /\ iterate n' R m y
  end.

Fixpoint spans (r : regex) (x y : mstate) : Prop :=
  match r with
  | Eps => y = x
  | Chr p =>
    match m_rest x with
    | c :: t => p c = true /\ y = MState (S (m_pos x)) t (m_caps x)
    | [] => False
    end
  | Seq a b => exists m, spans a x m /\ spans b m y
  | Alt a b => spans a x y \/ spans b x y
  | Grp i a =>
    exists m,
      spans a x m
      /\ y = MState (m_pos m) (m_rest m)
               (<[i := take (m_pos m - m_pos x) (m_rest x)]> (m_caps m))
  | Bol => m_pos x = O /\ y = x
  | Eol => m_rest x = [] /\ y = x
  | Ahead a => exists m, spans a x m /\ y = MState (m_pos x) (m_rest x) (m_caps m)
  | Rep _ min max a =>
    exists n,
      ((min <= n)%nat \/ max = Some n)
      /\ (forall m, max = Some m -> (n <= m)%nat)
      /\ iterate n (fun u v => spans a (clearGroups (groups a) u) v) x y
  end.

(** A digit of base 36 as [toString(36)] writes it. *)
Definition base36Digit (c : Z) : Prop := 0x30 <= c <= 0x39 \/ 0x61 <= c <= 0x7A.

(** The package of the README. *)
Definition readmePackage : value :=
  VObject
    [(js "schema_version", VNumber (Int 1));
     (js "artist", VString (js "演示艺人"));
     (js "tracks",
      VArray
        [VObject
           [(js "title", VString (js "雾灯之外"));
            (js "album", VString (js "回声档案"));
            (js "year", VNumber (Int 2024));
            (js "lyricists", VArray [VString (js "示例词作者")]);
            (js "lyrics", VString (js "这里是占位示例歌词文本..."))]])].

Definition readmeRecords : NormalizedPackage :=
  {| schemaVersion := js "1";
     np_artist := js "演示艺人";
     Schema.tracks :=
       [{| id := js "演示艺人-雾灯之外-回声档案-2024-"
                 ++ hashString (js "演示艺人-雾灯之外-回声档案-2024");
           title := js "雾灯之外";
           album := js "回声档案";
           year := Some (Int 2024);
           yearText := js "2024";
           lyricists := [js "示例词作者"];
           lyrics := js "这里是占位示例歌词文本...";
           Schema.artist := js "演示艺人" |}] |}.

(** A package without tracks. *)
Definition emptyPackage : value :=
  VObject
    [(js "schema_version", VNumber (Int 1));
     (js "artist", VString (js "演示艺人"));
     (js "tracks", VArray [])].

(** The issue raised for an empty list of tracks. *)
Definition tracksRequired : ZodIssue :=
  {| i_code := too_small; i_path := [Key (js "tracks")];
     i_message := Some (js "tracks is required") |}.

(** All the tokens the tracks add to the counts, in the order they are
    counted. *)
Definition allTokens (Segmenter : option (jsstring -> list jsstring)) (single : bool)
    (tracks : list TrackRecord) : list jsstring :=
  concat (List.map (tokensOf Segmenter single) tracks).

(** A line the locator looks for: not empty once trimmed, and holding the
    term in lower case. *)
Definition hit (toLowerCase : jsstring -> jsstring) (trimmed l : jsstring) : bool :=
  truthy (trim l) && includes (toLowerCase (trim l)) trimmed.

(** The text of a part. *)
Definition partText (part : Part) : jsstring :=
  match part with
  | Plain text => text
  | Marked _ _ _ text => text
  end.

(** A part as the loop makes it for a line and a query of [n] code units:
    plain text is not empty; a hit wraps the [n] code units of the line from
    an index at which the lower-case line reads the lower-case query. *)
Definition partOk (element : Element) (line lowerLine lowerQuery : jsstring) (n : Z)
    (part : Part) : Prop :=
  match part with
  | Plain text => text <> []
  | Marked el hitIndex cursor text =>
    el = element
    /\ 0 <= cursor <= hitIndex
    /\ text = slice line hitIndex (Some (hitIndex + n))
    /\ take (length lowerQuery) (drop (Z.to_nat hitIndex) lowerLine) = lowerQuery
  end.

(** A plain part holds no occurrence of the query, a marked part is the
    query, both up to case. *)
Definition partExact (toLowerCase : jsstring -> jsstring) (query : jsstring)
    (part : Part) : Prop :=
  match part with
  | Plain text => includes (toLowerCase text) (toLowerCase query) = false
  | Marked _ _ _ text => toLowerCase text = toLowerCase query
  end.

(** The window of a snippet. *)
Definition window (s : LyricSnippet) : Z * Z := (ls_start s, ls_end s).

(** A snippet as the loop makes it: a window of at most three lines inside
    the lyrics, around a line that holds the query up to case. *)
Definition snippetOk (toLowerCase : jsstring -> jsstring) (lines : list jsstring)
    (trimmed : jsstring) (s : LyricSnippet) : Prop :=
  0 <= ls_start s <= ls_end s
  /\ ls_end s < Z.of_nat (length lines)
  /\ ls_end s - ls_start s <= 2
  /\ ls_lines s
     = take (Z.to_nat (ls_end s - ls_start s + 1)) (drop (Z.to_nat (ls_start s)) lines)
  /\ exists i line,
       lines !! i = Some line
       /\ includes (toLowerCase line) (toLowerCase trimmed) = true
       /\ ls_start s <= Z.of_nat i <= ls_end s.

Definition collected (toLowerCase : jsstring -> jsstring) (lines : list jsstring)
    (trimmed : jsstring) (limit : Z) (snippets : list LyricSnippet) (used : gset (Z * Z))
  : Prop :=
  Z.of_nat (length snippets) <= Z.max limit 0
  /\ NoDup (List.map window snippets)
  /\ (forall s, s ∈ snippets -> window s ∈ used)
  /\ Forall (snippetOk toLowerCase lines trimmed) snippets.

(** What [escapeHtml] writes for one character. *)
Definition escapeChar (c : Z) : jsstring :=
  if c =? 0x26 then js "&amp;"
  else if c =? 0x3C then js "&lt;"
  else if c =? 0x3E then js "&gt;"
  else if c =? 0x22 then js "&quot;"
  else if c =? 0x27 then js "&#39;"
  else [c].

(** The characters that open or close markup: [<], [>], and the two quotes. *)
Definition isMarkup (c : Z) : bool := oneOf [0x3C; 0x3E; 0x22; 0x27] c.

(** The text the snippet is cut from. *)
Definition normalizedText (text : jsstring) : jsstring :=
  trim (replaceAll spaces (constant (js " ")) text).

(** The least number of code units a match of a pattern takes, a quantifier
    and a lookahead counted as none. *)
Fixpoint minLength (r : regex) : nat :=
  match r with
  | Chr _ => 1
  | Seq a b => minLength a + minLength b
  | Alt a b => Nat.min (minLength a) (minLength b)
  | Grp _ a => minLength a
  | Eps | Rep _ _ _ _ | Bol | Eol | Ahead _ => 0
  end.

(** A replacement step [.replace(r, f)], and a chain of them. *)
Definition Step : Type := regex * (match_result -> jsstring).

Definition replaceEach (steps : list Step) (s : jsstring) : jsstring :=
  fold_left (fun t step => replaceAll (fst step) (snd step) t) steps s.

(** A step whose matches are never empty and whose replacement is at least
    [d] code units shorter than the match. *)
Definition shortens (d : nat) (step : Step) : Prop :=
  (1 <= minLength (fst step))%nat
  /\ forall m, (length (snd step m) + d <= minLength (fst step))%nat.

(** The steps of [decodeEntities], in their order. *)
Definition entitySteps : list Step :=
  [(litNoCase (js "&nbsp;"), constant (js " "));
   (litNoCase (js "&lt;"), constant (js "<"));
   (litNoCase (js "&gt;"), constant (js ">"));
   (litNoCase (js "&amp;"), constant (js "&"));
   (litNoCase (js "&quot;"), constant [0x22]);
   (litNoCase (js "&#39;"), constant (js "'"));
   (seq [lit (js "&#x"); Grp 1 (plus (Chr hexDigit)); lit (js ";")],
    fun m => fromCharCode (parseInt (captured m 1) 16));
   (seq [lit (js "&#"); Grp 1 (plus (Chr digit)); lit (js ";")],
    fun m => fromCharCode (parseInt (captured m 1) 10))].

(** The steps of [normalizeText] after the decoding. *)
Definition lineSteps : list Step :=
  [(lit [CR; LF], constant [LF]);
   (lit [CR], constant [LF]);
   (lit [NBSP], constant (js " "))].

(** A text holds an entity when one of the patterns of [decodeEntities]
    matches somewhere in it. *)
Definition holdsEntity (s : jsstring) : bool :=
  existsb (fun step => test (fst step) s) entitySteps.


(** The text of a lyricists value that is a string, the empty text for an
    absent value; an array is not a text. *)
Definition lyricistText (value : option (jsstring + list jsstring)) : option jsstring :=
  match value with
  | None => Some []
  | Some (inl source) => Some source
  | Some (inr _) => None
  end.

End Notions.

Import Packgen Schema Stats Page Reference.

(** A decidable statement about given values, by evaluation. *)
Ltac evaluate := apply (bool_decide_unpack _); vm_compute; exact I.

(** * Properties *)

(** ** Strings *)

Lemma truthy_nonempty (s : jsstring) : truthy s = true <-> s <> [].
Proof. destruct s; simpl; split; congruence. Qed.

Lemma jsstring_eqb_true (a b : jsstring) : jsstring_eqb a b = true <-> a = b.
Proof. unfold jsstring_eqb. apply bool_decide_eq_true. Qed.

Lemma jsstring_eqb_false (a b : jsstring) : jsstring_eqb a b = false <-> a <> b.
Proof. unfold jsstring_eqb. apply bool_decide_eq_false. Qed.

Example js_literal : js "a中·" = [0x61; 0x4E2D; 0xB7].
Proof. reflexivity. Qed.

Example trim_title : trim (js "  雾灯 之外 ") = js "雾灯 之外".
Proof. reflexivity. Qed.

Example numbers_as_text :
  numberToString (Int 2024) = js "2024"
  /\ numberToString (Frac 4049 1) = js "2024.5"
  /\ numberToString (Int (2 ^ 60)) = js "1152921504606847000"
  /\ numberToString (Int (10 ^ 21)) = js "1e+21"
  /\ numberToString (Frac 3602879701896397 55) = js "0.1"
  /\ numberToString (Frac 1 1074) = js "5e-324".
Proof. vm_compute. repeat split. Qed.

Example parseInt_prefix :
  parseInt (js " 2024年") 10 = Int 2024 /\ parseInt (js "年") 10 = NaN.
Proof. vm_compute. split; reflexivity. Qed.

(** [trim] leaves nothing to trim. *)
Lemma trimStart_trimStart (s : jsstring) : trimStart (trimStart s) = trimStart s.
Proof.
  induction s as [|c t IH]; simpl; [reflexivity|].
  destruct (isWhiteSpace c) eqn:Hc; [exact IH|]. simpl. by rewrite Hc.
Qed.

Lemma trimStart_app_solid (s t : jsstring) (c : Z) :
  isWhiteSpace c = false -> trimStart (s ++ c :: t) = trimStart (s ++ [c]) ++ t.
Proof.
  intros Hc. induction s as [|d s IH]; simpl.
  - by rewrite Hc.
  - destruct (isWhiteSpace d); [exact IH|]. simpl. by rewrite <- app_assoc.
Qed.

(** Trimming the end of a text that starts solid leaves the start solid. *)
Lemma trimStart_rev_solid (s : jsstring) :
  trimStart s = s -> trimStart (rev (trimStart (rev s))) = rev (trimStart (rev s)).
Proof.
  destruct s as [|c t]; [reflexivity|].
  simpl. destruct (isWhiteSpace c) eqn:Hc.
  - intros H. exfalso.
    assert (Hlen : (length (trimStart t) <= length t)%nat).
    { clear. induction t as [|d t IH]; simpl; [lia|]. destruct (isWhiteSpace d); simpl; lia. }
    rewrite H in Hlen. simpl in Hlen. lia.
  - intros _. rewrite (trimStart_app_solid (rev t) [] c Hc). rewrite app_nil_r.
    destruct (trimStart (rev t ++ [c])) as [|d u] eqn:Hu.
    + reflexivity.
    + assert (Hlast : exists v, d :: u = v ++ [c]).
      { clear -Hu Hc. revert d u Hu. induction (rev t) as [|e r IH]; simpl; intros d u Hu.
        - rewrite Hc in Hu. exists []. simpl. congruence.
        - destruct (isWhiteSpace e).
          + by apply IH.
          + injection Hu as <- <-. by exists (e :: r). }
      destruct Hlast as [v ->]. rewrite rev_app_distr. simpl. by rewrite Hc.
Qed.

Lemma trim_trim (s : jsstring) : trim (trim s) = trim s.
Proof.
  unfold trim, trimEnd.
  rewrite (trimStart_rev_solid (trimStart s)) by apply trimStart_trimStart.
  by rewrite rev_involutive, trimStart_trimStart.
Qed.

(** ** The matcher *)

Section Matcher.

Lemma reaches_refl (x : mstate) : reaches x x.
Proof. unfold reaches. lia. Qed.

Lemma reaches_trans (x y z : mstate) : reaches x y -> reaches y z -> reaches x z.
Proof. unfold reaches. lia. Qed.

(** The quantifier hands on only states further on in the subject, and any
    fuel above the minimum plus what is left of the subject gives the same
    result: the matcher never runs out of it. *)
Lemma repeatMatch_reaches
    (atom : mstate -> (mstate -> option mstate) -> option mstate)
    (inside : list nat) (greedy : bool) :
  (forall x k1 k2, (forall y, reaches x y -> k1 y = k2 y) -> atom x k1 = atom x k2) ->
  forall fuel1 fuel2 min max x k1 k2,
    (forall y, reaches x y -> k1 y = k2 y) ->
    (min + length (m_rest x) < fuel1)%nat ->
    (min + length (m_rest x) < fuel2)%nat ->
    repeatMatch atom inside greedy k1 fuel1 min max x
    = repeatMatch atom inside greedy k2 fuel2 min max x.
Proof.
  intros Hatom. induction fuel1 as [|fuel1 IH]; intros fuel2 min max x k1 k2 Hk H1 H2;
    [lia|].
  destruct fuel2 as [|fuel2]; [lia|]. cbn [repeatMatch].
  assert (Hx : k1 x = k2 x) by apply Hk, reaches_refl.
  assert (Hagain : forall y, reaches (clearGroups inside x) y ->
            (if Nat.eqb min 0 && Nat.eqb (m_pos y) (m_pos x) then None
             else repeatMatch atom inside greedy k1 fuel1 (Nat.pred min) (Nat.pred <$> max) y)
            = (if Nat.eqb min 0 && Nat.eqb (m_pos y) (m_pos x) then None
               else repeatMatch atom inside greedy k2 fuel2 (Nat.pred min)
                      (Nat.pred <$> max) y)).
  { intros y Hy. destruct (Nat.eqb min 0 && Nat.eqb (m_pos y) (m_pos x)) eqn:Hstill;
      [reflexivity|].
    assert (Hxy : reaches x y) by exact Hy.
    apply IH.
    - intros z Hz. apply Hk. by apply (reaches_trans x y z).
    - apply andb_false_iff in Hstill as [Hmin|Hpos];
        [apply Nat.eqb_neq in Hmin|apply Nat.eqb_neq in Hpos];
        unfold reaches in Hxy; lia.
    - apply andb_false_iff in Hstill as [Hmin|Hpos];
        [apply Nat.eqb_neq in Hmin|apply Nat.eqb_neq in Hpos];
        unfold reaches in Hxy; lia. }
  assert (Hstep : forall again1 again2 : mstate -> option mstate,
            (forall y, reaches (clearGroups inside x) y -> again1 y = again2 y) ->
            match min with
            | S _ => atom (clearGroups inside x) again1
            | O =>
              if greedy then orElse (atom (clearGroups inside x) again1) (k1 x)
              else orElse (k1 x) (atom (clearGroups inside x) again1)
            end
            = match min with
              | S _ => atom (clearGroups inside x) again2
              | O =>
                if greedy then orElse (atom (clearGroups inside x) again2) (k2 x)
                else orElse (k2 x) (atom (clearGroups inside x) again2)
              end).
  { intros again1 again2 H. rewrite Hx, (Hatom _ again1 again2 H). reflexivity. }
  destruct max as [[|max]|]; [exact Hx| |]; apply Hstep, Hagain.
Qed.

Lemma run_reaches (r : regex) :
  forall x k1 k2, (forall y, reaches x y -> k1 y = k2 y) -> run r x k1 = run r x k2.
Proof.
  induction r as [|p|a IHa b IHb|a IHa b IHb|greedy min max a IHa|i a IHa| | |a IHa];
    intros x k1 k2 Hk; cbn [run].
  - apply Hk, reaches_refl.
  - destruct (m_rest x) as [|c t] eqn:Hrest; [reflexivity|].
    destruct (p c); [|reflexivity]. apply Hk. unfold reaches. rewrite Hrest. simpl. lia.
  - apply IHa. intros y Hy. apply IHb. intros z Hz. apply Hk. by apply (reaches_trans x y z).
  - by rewrite (IHa x k1 k2 Hk), (IHb x k1 k2 Hk).
  - apply repeatMatch_reaches; [exact IHa|exact Hk|lia|lia].
  - apply IHa. intros y Hy. apply Hk. exact Hy.
  - destruct (Nat.eqb (m_pos x) 0); [|reflexivity]. apply Hk, reaches_refl.
  - destruct (m_rest x); [|reflexivity]. apply Hk, reaches_refl.
  - destruct (run a x Some) as [y|]; [|reflexivity]. apply Hk. unfold reaches. simpl. lia.
Qed.

(** More fuel than the quantifier is given changes nothing. *)
Lemma repeatMatch_enough (a : regex) (greedy : bool) (min : nat) (max : option nat)
    (x : mstate) (k : mstate -> option mstate) (fuel : nat) :
  (min + length (m_rest x) < fuel)%nat ->
  repeatMatch (run a) (groups a) greedy k fuel min max x = run (Rep greedy min max a) x k.
Proof.
  intros H. cbn [run]. apply repeatMatch_reaches; [apply run_reaches|done|exact H|lia].
Qed.

(** Greedy and lazy quantifiers, groups inside them and lookahead, on their
    textbook cases: a lazy and a greedy run of [a] in [aaa]; an alternative
    found at index 1 with its group set; a group cleared by the next
    iteration of the quantifier around it; a lookahead that holds and one
    that fails; a quantifier around an atom that can match the empty
    string. *)
Example quantifiers :
  matched <$> exec (lazyPlus (Chr (just 0x61))) (js "aaa") = Some (js "a")
  /\ matched <$> exec (plus (Chr (just 0x61))) (js "aaa") = Some (js "aaa")
  /\ (fun m => (index m, group m 1))
       <$> exec (Alt (Grp 1 (Chr (just 0x61))) (Chr (just 0x62))) (js "xab")
     = Some (1%nat, Some (js "a"))
  /\ (fun m => (matched m, group m 1))
       <$> exec (plus (Alt (Grp 1 (Chr (just 0x61))) (Chr (just 0x62)))) (js "ab")
     = Some (js "ab", None)
  /\ matched <$> exec (seq [Chr (just 0x61); Ahead (Chr (just 0x62))]) (js "ab")
     = Some (js "a")
  /\ exec (seq [Chr (just 0x61); Ahead (Chr (just 0x62))]) (js "ac") = None
  /\ matched <$> exec (seq [star (star (Chr (just 0x61))); Eol]) (js "aa")
     = Some (js "aa")
  /\ matched <$> exec (star (star (Chr (just 0x61)))) (js "b") = Some [].
Proof. vm_compute. repeat split. Qed.

End Matcher.

(** ** The extraction engine *)

Section Extraction.

Example album_line_groups :
  (fun m => (group m 1, group m 2, group m 3))
    <$> exec albumLineRe (js "《回声档案》2024 演示艺人")
  = Some (Some (js "回声档案"), Some (js "2024"), Some (js "演示艺人")).
Proof. vm_compute. reflexivity. Qed.

(** The lyricist pattern stops at the first [作] or [曲]: a name holding one of
    them is not read. *)
Example lyricist_name_with_zuo :
  exec lyricistRe (js "作词：示例词作者 作曲：示例作曲者") = None
  /\ (fun m => group m 2) <$> exec lyricistRe (js "作词：林夕 作曲：示例作曲者")
     = Some (Some (js "林夕")).
Proof. vm_compute. split; reflexivity. Qed.

Lemma albumLineRe_blank : exec albumLineRe [] = None.
Proof. vm_compute. reflexivity. Qed.

Lemma flushDraft_context (st : State) : s_context (flushDraft st) = s_context st.
Proof.
  unfold flushDraft. destruct (s_draft st) as [d|]; [|reflexivity].
  destruct (negb (truthy (d_title d)) || _); reflexivity.
Qed.

(** After an album-context line the next line is not "after a blank line",
    whatever the state was; the draft is left as it is. *)
Lemma step_album_line (st : State) (line : jsstring) (m : match_result) :
  exec albumLineRe (trim line) = Some m ->
  step st line
  = {| s_context := albumContext m (s_context st); s_tracks := s_tracks st;
       s_draft := s_draft st; s_prevWasEmpty := false |}.
Proof.
  intros Hm. unfold step.
  destruct (truthy (trim line)) eqn:Ht; simpl.
  - rewrite Hm. reflexivity.
  - destruct (trim line); [|discriminate].
    rewrite albumLineRe_blank in Hm. discriminate.
Qed.

Lemma albumContext_artist (m : match_result) (c : Context) :
  c_artist (albumContext m c)
  = default (c_artist c)
      (match trim <$> group m 3 with
       | Some a => if truthy a then Some a else None
       | None => None
       end).
Proof.
  unfold albumContext; simpl.
  destruct (trim <$> group m 3) as [a|]; [|reflexivity].
  destruct (truthy a); reflexivity.
Qed.

Lemma trailingArtist_blank (line : jsstring) :
  truthy (trim line) = false -> trailingArtist line = None.
Proof.
  intros H. unfold trailingArtist. destruct (trim line); [|discriminate].
  rewrite albumLineRe_blank. reflexivity.
Qed.

Lemma trailingArtist_nonempty (line a : jsstring) :
  trailingArtist line = Some a -> a <> [].
Proof.
  unfold trailingArtist. destruct (exec albumLineRe (trim line)) as [m|]; [|discriminate].
  destruct (trim <$> group m 3) as [b|]; [|discriminate].
  destruct (truthy b) eqn:Hb; [|discriminate].
  intros [= <-]. by apply truthy_nonempty.
Qed.

(** One turn of the main loop changes the artist only on a line that carries
    one. *)
Lemma step_artist (st : State) (line : jsstring) :
  c_artist (s_context (step st line))
  = default (c_artist (s_context st)) (trailingArtist line).
Proof.
  unfold step. destruct (truthy (trim line)) eqn:Ht; simpl.
  - unfold trailingArtist.
    destruct (exec albumLineRe (trim line)) as [m|]; simpl.
    + apply albumContext_artist.
    + destruct (exec titleLineRe (trim line)) as [tm|]; simpl.
      { apply (f_equal c_artist), flushDraft_context. }
      destruct (s_prevWasEmpty st && looksLikeNakedTitle (trim line)); simpl.
      { apply (f_equal c_artist), flushDraft_context. }
      destruct (s_draft st) as [d|]; simpl; [|reflexivity].
      destruct (applyCreditsFromLine (trim line) d) as [d' applied].
      destruct (applied && isCreditOnlyLine (trim line)); reflexivity.
  - rewrite trailingArtist_blank by exact Ht. reflexivity.
Qed.

Lemma loop_artist (lines : list jsstring) (st : State) :
  c_artist (s_context (fold_left step lines st))
  = lastArtist lines (c_artist (s_context st)).
Proof.
  revert st. induction lines as [|line lines IH]; intros st; simpl; [reflexivity|].
  rewrite IH, step_artist. reflexivity.
Qed.

(** What the first loop sets, the main loop sets again. *)
Lemma firstContext_artist (lines : list jsstring) (c : Context) :
  lastArtist lines (c_artist (firstContext lines c)) = lastArtist lines (c_artist c).
Proof.
  unfold lastArtist. induction lines as [|line lines IH]; simpl; [reflexivity|].
  destruct (truthy (trim line)) eqn:Ht.
  - f_equal. unfold trailingArtist.
    destruct (exec albumLineRe (trim line)) as [m|]; [|reflexivity].
    rewrite albumContext_artist.
    destruct (trim <$> group m 3) as [a|]; [|reflexivity].
    destruct (truthy a); reflexivity.
  - rewrite trailingArtist_blank by exact Ht. simpl. exact IH.
Qed.

Lemma lastArtist_nonempty (lines : list jsstring) (a : jsstring) :
  a <> [] -> lastArtist lines a <> [].
Proof.
  unfold lastArtist. revert a. induction lines as [|line lines IH]; intros a Ha; simpl.
  - exact Ha.
  - apply IH. destruct (trailingArtist line) as [b|] eqn:Hb; simpl; [|exact Ha].
    by apply trailingArtist_nonempty in Hb.
Qed.

Lemma lastArtist_none (lines : list jsstring) (a : jsstring) :
  (forall line, line ∈ lines -> trailingArtist line = None) -> lastArtist lines a = a.
Proof.
  unfold lastArtist. induction lines as [|line lines IH]; intros H; simpl; [reflexivity|].
  rewrite (H line) by apply list_elem_of_here. simpl.
  apply IH. intros l Hl. apply H. by apply list_elem_of_further.
Qed.

(** The package artist is the last artist name an album-context line of the
    text carries, the sentinel if none does. *)
Lemma parseTextToPackage_artist (text : jsstring) :
  Packgen.artist (parseTextToPackage text noOptions)
  = lastArtist (linesOf text) UNKNOWN_ARTIST.
Proof.
  unfold parseTextToPackage.
  cbn [Packgen.artist defaultArtist noOptions fmap option_fmap option_map].
  rewrite flushDraft_context, loop_artist. cbn [s_context].
  rewrite firstContext_artist. reflexivity.
Qed.

End Extraction.

(** *** The canonical fixture (C1) *)

(** C1, as the code has it: on the canonical six-line fixture the extraction
    engine returns schema version 1, the artist of the album-context line,
    and no track at all.  The title line comes right after the album-context
    line, which leaves "previous line was blank" false, so it is not taken
    as a bare title and the lines up to the blank line belong to no draft;
    the last line, which follows the blank line, is taken as a bare title,
    and its draft has no lyric line when the text ends. *)
Theorem C1_fixture_extraction :
  parseTextToPackage fixture noOptions
  = {| schema_version := 1; Packgen.artist := js "演示艺人"; Packgen.tracks := [] |}.
Proof. vm_compute. reflexivity. Qed.

(** C1, as stated, fails: the fixture does not give the one expected track. *)
Lemma C1_fixture_track_missing :
  ~ (exists t, Packgen.tracks (parseTextToPackage fixture noOptions) = [t]
               /\ pt_title t = js "雾灯之外"
               /\ pt_lyricists t = Some [js "示例词作者"]
               /\ pt_lyrics t = js "第一行歌词" ++ [LF; LF] ++ js "第二行歌词").
Proof. intros [t [H _]]. vm_compute in H. discriminate H. Qed.

(** How the fixture goes through the loop: after its first line the flag is
    false, and the second line is a bare title only by its looks. *)
Example fixture_title_line_not_after_blank :
  s_prevWasEmpty
    (step {| s_context := {| c_artist := UNKNOWN_ARTIST; c_album := Packgen.UNFILED;
                             c_year := None |};
             s_tracks := []; s_draft := None; s_prevWasEmpty := true |}
       (js "《回声档案》2024 演示艺人")) = false
  /\ looksLikeNakedTitle (js "雾灯之外") = true
  /\ looksLikeNakedTitle (js "第二行歌词") = true.
Proof. vm_compute. repeat split. Qed.

(** With a blank line before the title and lyric lines that end in
    punctuation the engine gives the one track, album, year and artist; the
    lyricist is still not read, the name holding [作]. *)
Example spaced_fixture_extraction :
  parseTextToPackage spacedFixture noOptions
  = {| schema_version := 1;
       Packgen.artist := js "演示艺人";
       Packgen.tracks :=
         [{| pt_title := js "雾灯之外";
             pt_album := Some (js "回声档案");
             pt_year := Some (js "2024");
             pt_lyricists := None;
             pt_lyrics := js "第一行歌词，" ++ [LF; LF] ++ js "第二行歌词。" |}] |}.
Proof. vm_compute. reflexivity. Qed.

(** *** Artist and schema version of every extraction (C10) *)

Lemma UNKNOWN_ARTIST_nonempty : UNKNOWN_ARTIST <> [].
Proof. vm_compute. discriminate. Qed.

Lemma zMin1_nonempty (message s : jsstring) (path : list pathItem) :
  s <> [] -> zMin1 message zString path (VString s) = ZOk s.
Proof. intros H. destruct s; [congruence|reflexivity]. Qed.

(** C10: for every text, without a default artist, the package has schema
    version 1 and a non-empty artist, which is the sentinel when no line of
    the text is an album-context line with a trailing artist name (and the
    last such name otherwise); so the schema accepts its [schema_version]
    and [artist] properties, and any issue the validator raises on an
    extracted package is one of its [tracks]. *)
Theorem C10_extraction_artist_and_version (text : jsstring) :
  let p := parseTextToPackage text noOptions in
  Packgen.schema_version p = 1
  /\ Packgen.artist p <> []
  /\ Packgen.artist p = lastArtist (linesOf text) UNKNOWN_ARTIST
  /\ ((forall line, line ∈ linesOf text -> trailingArtist line = None) ->
      Packgen.artist p = UNKNOWN_ARTIST)
  /\ field schemaVersionSchema [] (packageValue p) (js "schema_version")
     = ZOk (inr (Int 1))
  /\ field artistSchema [] (packageValue p) (js "artist") = ZOk (Packgen.artist p)
  /\ (forall found,
        LyricsPackageSchema [] (packageValue p) = ZErr found ->
        field tracksSchema [] (packageValue p) (js "tracks") = ZErr found).
Proof.
  intros p.
  assert (Hartist : Packgen.artist p = lastArtist (linesOf text) UNKNOWN_ARTIST)
    by apply parseTextToPackage_artist.
  assert (Hne : Packgen.artist p <> []).
  { rewrite Hartist. apply lastArtist_nonempty, UNKNOWN_ARTIST_nonempty. }
  assert (Hversion : field schemaVersionSchema [] (packageValue p) (js "schema_version")
                     = ZOk (inr (Int 1))) by reflexivity.
  assert (Hfield : field artistSchema [] (packageValue p) (js "artist")
                   = ZOk (Packgen.artist p)).
  { unfold field, artistSchema, packageValue, getProp.
    change (lookupProp _ (js "artist")) with (VString (Packgen.artist p)).
    by apply zMin1_nonempty. }
  repeat split; try assumption.
  - intros H. rewrite Hartist. by apply lastArtist_none.
  - intros found. unfold LyricsPackageSchema.
    change (packageValue p) with (VObject
      [(js "schema_version", VNumber (Int (Packgen.schema_version p)));
       (js "artist", VString (Packgen.artist p));
       (js "tracks", VArray (List.map trackValue (Packgen.tracks p)))]) at 1.
    cbv beta iota. rewrite Hversion, Hfield.
    destruct (field tracksSchema [] (packageValue p) (js "tracks")); [discriminate|].
    simpl. congruence.
Qed.

Lemma C10_extraction_witness :
  Packgen.artist (parseTextToPackage (js "雾灯之外" ++ [LF] ++ js "第一行歌词，") noOptions)
  = UNKNOWN_ARTIST.
Proof.
  apply (proj1 (proj2 (proj2 (proj2
           (C10_extraction_artist_and_version (js "雾灯之外" ++ [LF] ++ js "第一行歌词，")))))).
  apply Forall_forall. evaluate.
Defined.

(** From text to canonical records: the spaced fixture through the engine
    and the validator. *)
Example spaced_fixture_validated :
  normalizeLyricsPackage (packageValue (parseTextToPackage spacedFixture noOptions))
  = Returns
      {| schemaVersion := js "1";
         np_artist := js "演示艺人";
         Schema.tracks :=
           [{| id := js "演示艺人-雾灯之外-回声档案-2024-"
                     ++ hashString (js "演示艺人-雾灯之外-回声档案-2024");
               title := js "雾灯之外";
               album := js "回声档案";
               year := Some (Int 2024);
               yearText := js "2024";
               lyricists := [js "佚名"];
               lyrics := js "第一行歌词，" ++ [LF; LF] ++ js "第二行歌词。";
               Schema.artist := js "演示艺人" |}] |}.
Proof. vm_compute. reflexivity. Qed.

(** ** The text normalizer (C2) *)

Section Normalizer.

Lemma leading_chr (p : Z -> bool) : leading p (Chr p).
Proof. intros [pos [|c t] caps] k H; simpl in *; [reflexivity|]. by rewrite H. Qed.

Lemma leading_seq (p : Z -> bool) (a b : regex) : leading p a -> leading p (Seq a b).
Proof. intros Ha x k H. simpl. by apply Ha. Qed.

Lemma leading_lit (c : Z) (cs : jsstring) : leading (just c) (lit (c :: cs)).
Proof. apply leading_seq, leading_chr. Qed.

Lemma leading_litNoCase (c : Z) (cs : jsstring) :
  leading (isNoCase c) (litNoCase (c :: cs)).
Proof. apply leading_seq, leading_chr. Qed.

Lemma replaceFrom_unchanged (p : Z -> bool) (r : regex) (f : match_result -> jsstring)
    (s : jsstring) (pos : nat) :
  leading p r -> Forall (fun c => p c = false) s -> replaceFrom r f pos 0 s = s.
Proof.
  intros Hr Hs. revert pos. induction Hs as [|c t Hc Ht IH]; intros pos; simpl.
  - unfold matchAt. by rewrite Hr.
  - unfold matchAt. rewrite Hr by exact Hc. by rewrite IH.
Qed.

Lemma replaceAll_unchanged (p : Z -> bool) (r : regex) (f : match_result -> jsstring)
    (s : jsstring) :
  leading p r -> Forall (fun c => p c = false) s -> replaceAll r f s = s.
Proof. apply replaceFrom_unchanged. Qed.

Lemma just_other (c x : Z) : x <> c -> just c x = false.
Proof. intros H. unfold just. apply Z.eqb_neq. congruence. Qed.

Lemma isNoCase_amp (x : Z) : x <> AMP -> isNoCase AMP x = false.
Proof.
  intros H. unfold isNoCase. apply Z.eqb_neq.
  change (upper AMP) with AMP. unfold upper, range, AMP in *.
  destruct ((0x61 <=? x) && (x <=? 0x7A)) eqn:E; [|congruence].
  apply andb_true_iff in E as [E1 E2]. lia.
Qed.

Lemma Forall_other (p : Z -> bool) (c : Z) (s : jsstring) :
  (forall x, x <> c -> p x = false) -> c ∉ s -> Forall (fun x => p x = false) s.
Proof.
  intros Hp Hs. apply Forall_forall. intros x Hx. apply Hp. intros ->. by apply Hs.
Qed.

(** Text without [&] holds no entity. *)
Lemma decodeEntities_without_amp (s : jsstring) : AMP ∉ s -> decodeEntities s = s.
Proof.
  intros Hs. unfold decodeEntities.
  assert (Hci : Forall (fun x => isNoCase AMP x = false) s)
    by (apply (Forall_other _ AMP); [apply isNoCase_amp|exact Hs]).
  assert (Hcs : Forall (fun x => just AMP x = false) s)
    by (apply (Forall_other _ AMP); [apply just_other|exact Hs]).
  rewrite (replaceAll_unchanged _ _ _ s (leading_litNoCase AMP (js "nbsp;")) Hci).
  rewrite (replaceAll_unchanged _ _ _ s (leading_litNoCase AMP (js "lt;")) Hci).
  rewrite (replaceAll_unchanged _ _ _ s (leading_litNoCase AMP (js "gt;")) Hci).
  rewrite (replaceAll_unchanged _ _ _ s (leading_litNoCase AMP (js "amp;")) Hci).
  rewrite (replaceAll_unchanged _ _ _ s (leading_litNoCase AMP (js "quot;")) Hci).
  rewrite (replaceAll_unchanged _ _ _ s (leading_litNoCase AMP (js "#39;")) Hci).
  assert (Hhex : leading (just AMP)
            (seq [lit (js "&#x"); Grp 1 (plus (Chr hexDigit)); lit (js ";")]))
    by apply leading_seq, leading_lit.
  assert (Hdec : leading (just AMP)
            (seq [lit (js "&#"); Grp 1 (plus (Chr digit)); lit (js ";")]))
    by apply leading_seq, leading_lit.
  rewrite (replaceAll_unchanged _ _ _ s Hhex Hcs).
  apply (replaceAll_unchanged _ _ _ s Hdec Hcs).
Qed.

(** Replacing one character everywhere. *)
Lemma replaceFrom_cons (r : regex) (f : match_result -> jsstring) (pos : nat)
    (c : Z) (t : jsstring) :
  replaceFrom r f pos 0 (c :: t)
  = match matchAt r pos (c :: t) with
    | Some y =>
      match (m_pos y - pos)%nat with
      | O => f (result_of pos (c :: t) y) ++ c :: replaceFrom r f (S pos) O t
      | S n => f (result_of pos (c :: t) y) ++ replaceFrom r f (S pos) n t
      end
    | None => c :: replaceFrom r f (S pos) O t
    end.
Proof. reflexivity. Qed.

Lemma matchAt_char (c x : Z) (t : jsstring) (pos : nat) :
  matchAt (lit [c]) pos (x :: t)
  = if c =? x then Some (MState (S pos) t ∅) else None.
Proof. reflexivity. Qed.

Lemma replaceAll_char (c : Z) (w s : jsstring) :
  replaceAll (lit [c]) (constant w) s = flat_map (fun x => if c =? x then w else [x]) s.
Proof.
  unfold replaceAll.
  enough (H : forall pos, replaceFrom (lit [c]) (constant w) pos 0 s
                          = flat_map (fun x => if c =? x then w else [x]) s) by apply H.
  induction s as [|x t IH]; intros pos; [reflexivity|].
  rewrite replaceFrom_cons, matchAt_char. simpl flat_map.
  destruct (c =? x).
  - cbn [m_pos]. replace (S pos - pos)%nat with 1%nat by lia.
    unfold constant at 1. by rewrite IH.
  - by rewrite IH.
Qed.

Lemma replaced_char_gone (c : Z) (w s : jsstring) :
  c ∉ w -> c ∉ flat_map (fun x => if c =? x then w else [x]) s.
Proof.
  intros Hw. induction s as [|x t IH]; simpl; [apply not_elem_of_nil|].
  rewrite elem_of_app. intros [H|H]; [|by apply IH].
  destruct (c =? x) eqn:E; [by apply Hw|].
  apply list_elem_of_singleton in H. apply Z.eqb_neq in E. congruence.
Qed.

Lemma replaced_char_other (c d : Z) (w s : jsstring) :
  d ∉ w -> d ∉ s -> d ∉ flat_map (fun x => if c =? x then w else [x]) s.
Proof.
  intros Hw. induction s as [|x t IH]; simpl; intros Hs; [apply not_elem_of_nil|].
  apply not_elem_of_cons in Hs as [Hx Ht].
  rewrite elem_of_app. intros [H|H]; [|by apply IH].
  destruct (c =? x); [by apply Hw|].
  apply list_elem_of_singleton in H. congruence.
Qed.

(** The normalized text holds no carriage return and no no-break space. *)
Lemma normalizeText_clean (x : jsstring) :
  (CR ∉ normalizeText x) /\ (NBSP ∉ normalizeText x).
Proof.
  unfold normalizeText. rewrite !replaceAll_char. split.
  - apply replaced_char_other; [evaluate|].
    apply replaced_char_gone. evaluate.
  - apply replaced_char_gone. evaluate.
Qed.

(** Text without [&], carriage return and no-break space is left as it is. *)
Lemma normalizeText_fixed (y : jsstring) :
  AMP ∉ y -> CR ∉ y -> NBSP ∉ y -> normalizeText y = y.
Proof.
  intros Hamp Hcr Hnbsp. unfold normalizeText.
  rewrite decodeEntities_without_amp by exact Hamp.
  assert (Hcrs : Forall (fun c => just CR c = false) y).
  { apply (Forall_other _ CR); [apply just_other|exact Hcr]. }
  rewrite (replaceAll_unchanged (just CR) _ _ y (leading_lit CR [LF]) Hcrs).
  rewrite (replaceAll_unchanged (just CR) _ _ y (leading_lit CR []) Hcrs).
  apply (replaceAll_unchanged (just NBSP)); [apply leading_lit|].
  apply (Forall_other _ NBSP); [apply just_other|exact Hnbsp].
Qed.

(** C2, as stated, fails: an escaped ampersand is decoded once by each pass. *)
Lemma C2_normalizeText_not_idempotent :
  normalizeText (js "&amp;amp;") = js "&amp;"
  /\ normalizeText (normalizeText (js "&amp;amp;")) = js "&"
  /\ normalizeText (normalizeText (js "&amp;amp;")) <> normalizeText (js "&amp;amp;").
Proof. vm_compute. repeat split. discriminate. Qed.

Example normalizeText_decodes :
  normalizeText (js "&LT;a&#65;&#x4E2D;&NBSP;b" ++ [CR; LF; NBSP; CR])
  = js "<aA中 b" ++ [LF; 0x20; LF].
Proof. vm_compute. reflexivity. Qed.

End Normalizer.

(** ** Splitting at runs of separators *)

Section SeparatorRuns.

Variable p : Z -> bool.

Lemma repeatMatch_star (atom : mstate -> (mstate -> option mstate) -> option mstate)
    (k : mstate -> option mstate) (fuel : nat) (x : mstate) :
  repeatMatch atom [] true k (S fuel) 0 None x
  = orElse
      (atom x (fun y =>
         if Nat.eqb (m_pos y) (m_pos x) then None
         else repeatMatch atom [] true k fuel 0 None y))
      (k x).
Proof. destruct x. reflexivity. Qed.

Lemma repeatMatch_plus (atom : mstate -> (mstate -> option mstate) -> option mstate)
    (k : mstate -> option mstate) (fuel : nat) (x : mstate) :
  repeatMatch atom [] true k (S fuel) 1 None x
  = atom x (fun y => repeatMatch atom [] true k fuel 0 None y).
Proof. destruct x. reflexivity. Qed.

Lemma run_class (x : mstate) (k : mstate -> option mstate) :
  run (Chr p) x k
  = match m_rest x with
    | c :: t => if p c then k (MState (S (m_pos x)) t (m_caps x)) else None
    | [] => None
    end.
Proof. reflexivity. Qed.

(** A greedy run of one character class followed by nothing takes the whole
    run the text opens with, given fuel for it. *)
Lemma repeatMatch_class (s : jsstring) (pos fuel : nat) (caps : gmap nat jsstring) :
  (length s < fuel)%nat ->
  repeatMatch (run (Chr p)) [] true Some fuel 0 None (MState pos s caps)
  = Some (MState (pos + runLength p s) (drop (runLength p s) s) caps).
Proof.
  revert pos fuel. induction s as [|c t IH]; intros pos fuel Hfuel;
    (destruct fuel as [|fuel]; [simpl in Hfuel; lia|]);
    rewrite repeatMatch_star, run_class; cbn [m_rest m_pos m_caps runLength].
  - by rewrite Nat.add_0_r.
  - destruct (p c) eqn:Hc; cbn [orElse drop].
    + replace (S pos =? pos)%nat with false by (symmetry; apply Nat.eqb_neq; lia).
      rewrite IH by (simpl in Hfuel; lia). cbn [orElse].
      by replace (pos + S (runLength p t))%nat with (S pos + runLength p t)%nat by lia.
    + by rewrite Nat.add_0_r.
Qed.

Lemma matchAt_plus_class (s : jsstring) (pos : nat) :
  matchAt (plus (Chr p)) pos s
  = match runLength p s with
    | O => None
    | S n => Some (MState (pos + S n) (drop (S n) s) ∅)
    end.
Proof.
  unfold matchAt, plus.
  change (run (Rep true 1 None (Chr p)) (MState pos s ∅) Some)
    with (repeatMatch (run (Chr p)) [] true Some (S (1 + length s)) 1 None (MState pos s ∅)).
  rewrite repeatMatch_plus, run_class. cbn [m_rest m_pos m_caps].
  destruct s as [|c t]; [reflexivity|]. cbn [runLength].
  destruct (p c) eqn:Hc; [|reflexivity].
  rewrite repeatMatch_class by (simpl; lia).
  by replace (pos + S (runLength p t))%nat with (S pos + runLength p t)%nat by lia.
Qed.

Lemma runLength_le (s : jsstring) : (runLength p s <= length s)%nat.
Proof. induction s as [|c t IH]; simpl; [lia|]. destruct (p c); simpl; lia. Qed.

Lemma runLength_run (s : jsstring) : Forall (fun c => p c = true) (take (runLength p s) s).
Proof.
  induction s as [|c t IH]; simpl; [constructor|].
  destruct (p c) eqn:Hc; simpl; by constructor.
Qed.

End SeparatorRuns.

Lemma extend_extend (v w : jsstring) (pieces : list jsstring) :
  extend v (extend w pieces) = extend (v ++ w) pieces.
Proof. destruct pieces; simpl; by rewrite <- ?app_assoc. Qed.

Lemma entries_cons (piece : jsstring) (pieces : list jsstring) :
  entries (piece :: pieces) = entries [piece] ++ entries pieces.
Proof. unfold entries. simpl. by destruct (truthy (trim piece)). Qed.

Lemma cutAt_extend_nil (p : Z -> bool) (s : jsstring) : extend [] (cutAt p s) = cutAt p s.
Proof.
  destruct s as [|c t]; simpl; [reflexivity|].
  destruct (p c); [reflexivity|]. by destruct (cutAt p t).
Qed.

(** Up to blank pieces, splitting at the runs of a character class is cutting
    at each of its characters. *)
Lemma splitFrom_cutAt (p : Z -> bool) (s : jsstring) (pos skip : nat) (piece : jsstring) :
  Forall (fun c => p c = true) (take skip s) ->
  (skip <= length s)%nat ->
  (skip <> O -> piece = []) ->
  entries (splitFrom (plus (Chr p)) pos skip piece s)
  = entries (extend (rev piece) (cutAt p s)).
Proof.
  revert pos skip piece. induction s as [|c t IH]; intros pos skip piece Hrun Hlen Hpiece.
  - simpl. by rewrite app_nil_r.
  - destruct skip as [|n].
    + cbn [splitFrom]. rewrite matchAt_plus_class. cbn [runLength cutAt].
      destruct (p c) eqn:Hc.
      * cbn [m_pos].
        replace (pos + S (runLength p t) - pos)%nat with (S (runLength p t)) by lia.
        cbn [extend]. rewrite app_nil_r.
        rewrite (entries_cons _ (splitFrom _ _ _ _ _)), (entries_cons _ (cutAt _ _)). f_equal.
        rewrite (IH (S pos) (runLength p t) []);
          [apply (f_equal entries), cutAt_extend_nil|apply runLength_run
          |apply runLength_le|done].
      * rewrite (IH (S pos) O (c :: piece)); [|constructor|lia|done].
        by rewrite extend_extend.
    + rewrite (Hpiece ltac:(lia)). cbn [splitFrom cutAt].
      simpl in Hrun. apply Forall_cons in Hrun as [Hc Hrun]. rewrite Hc.
      rewrite (IH (S pos) n []); [|exact Hrun|simpl in Hlen; lia|done].
      cbn [rev extend app]. rewrite cutAt_extend_nil. reflexivity.
Qed.

Lemma split_cutAt (p : Z -> bool) (s : jsstring) :
  entries (split (plus (Chr p)) s) = entries (cutAt p s).
Proof.
  destruct s as [|c t]; [reflexivity|].
  unfold split. rewrite splitFrom_cutAt; [|constructor|lia|done].
  apply (f_equal entries), cutAt_extend_nil.
Qed.

Example cut_example :
  Regex.split nonWordSplit (js ",甲,, 乙 /丙|") = [[]; js "甲"; js " 乙 "; js "丙"; []]
  /\ cutAt isSeparator (js ",甲,, 乙 /丙|")
     = [[]; js "甲"; []; js " 乙 "; js "丙"; []].
Proof. vm_compute. split; reflexivity. Qed.

(** ** The validator *)

Section Validator.

(** *** Lyricists (C9) *)

Lemma normalizeLyricists_entries (value : option (jsstring + list jsstring)) :
  normalizeLyricists value = entries (cutAt isSeparator (lyricistSource value)).
Proof.
  destruct value as [[s|items]|]; simpl; [|apply split_cutAt|reflexivity].
  destruct s; [reflexivity|]. apply split_cutAt.
Qed.

Lemma entries_trimmed (pieces : list jsstring) :
  Forall (fun e => e <> [] /\ exists piece, piece ∈ pieces /\ e = trim piece) (entries pieces).
Proof.
  apply Forall_forall. intros e He. apply list_elem_of_In, filter_In in He as [He Ht].
  apply in_map_iff in He as [piece [<- Hp]]. split; [by apply truthy_nonempty|].
  exists piece. split; [by apply list_elem_of_In|reflexivity].
Qed.

Lemma cutAt_pieces (p : Z -> bool) (s : jsstring) :
  Forall (Forall (fun c => p c = false)) (cutAt p s).
Proof.
  induction s as [|c t IH]; simpl; [by repeat constructor|].
  destruct (p c) eqn:Hc; [by constructor|].
  destruct (cutAt p t) as [|piece rest]; simpl; [by repeat constructor|].
  apply Forall_cons in IH as [H1 H2]. by repeat constructor.
Qed.

Lemma trimStart_elem (c : Z) (s : jsstring) : c ∈ trimStart s -> c ∈ s.
Proof.
  induction s as [|d t IH]; simpl; [done|].
  destruct (isWhiteSpace d); [|done]. intros H. by apply list_elem_of_further, IH.
Qed.

Lemma elem_of_rev (c : Z) (s : jsstring) : c ∈ rev s <-> c ∈ s.
Proof. rewrite !list_elem_of_In. symmetry. apply in_rev. Qed.

Lemma trim_elem (c : Z) (s : jsstring) : c ∈ trim s -> c ∈ s.
Proof.
  unfold trim, trimEnd. intros H.
  rewrite elem_of_rev in H. apply trimStart_elem in H.
  rewrite elem_of_rev in H. by apply trimStart_elem.
Qed.

Lemma Forall_trim (P : Z -> Prop) (s : jsstring) : Forall P s -> Forall P (trim s).
Proof.
  intros Hs. apply Forall_forall. intros c Hc.
  eapply Forall_forall in Hs; [exact Hs|]. by apply trim_elem.
Qed.

(** No returned track is without a lyricist. *)
Lemma returned_lyricists (input : value) (pkg : NormalizedPackage) :
  normalizeLyricsPackage input = Returns pkg ->
  Forall (fun t => lyricists t <> []) (Schema.tracks pkg).
Proof.
  unfold normalizeLyricsPackage.
  destruct (LyricsPackageSchema [] input) as [parsed|]; [|discriminate].
  intros [= <-]. cbn [Schema.tracks]. apply Forall_forall. intros t Ht.
  apply list_elem_of_In, in_map_iff in Ht as [raw [<- _]].
  unfold normalizeTrack. destruct (normalizeYear (ti_year raw)) as [y yt].
  cbn [lyricists]. by destruct (normalizeLyricists (ti_lyricists raw)).
Qed.

(** C9, as stated, fails: a duplicate is kept, the middle dot does not cut
    and the semicolon does. *)
Lemma C9_lyricists_not_as_claimed :
  lyricists (normalizeTrack (js "A") (withLyricists (rawTrack (js "T") (js "x")) (js "甲,甲")))
    = [js "甲"; js "甲"]
  /\ claimedLyricists (js "甲,甲") = [js "甲"]
  /\ lyricists (normalizeTrack (js "A") (withLyricists (rawTrack (js "T") (js "x")) (js "甲·乙;丙")))
     = [js "甲·乙"; js "丙"]
  /\ claimedLyricists (js "甲·乙;丙") = [js "甲"; js "乙;丙"].
Proof. vm_compute. repeat split. Qed.

(** *** Years (C8) *)

Lemma parseInt_integral (s : jsstring) (radix : Z) :
  match parseInt s radix with Frac _ _ => False | _ => True end.
Proof.
  unfold parseInt.
  destruct (match trimStart s with
            | 45 :: t => (true, t) | 43 :: t => (false, t) | _ => (false, trimStart s)
            end) as [neg s2].
  destruct (digitPrefix radix _ 0 0) as [[|n] v]; [exact I|].
  by destruct (roundToDouble v).
Qed.

(** C8, as the code has it: an absent or empty year gives no year and the
    "unknown" text; a string gives the integer [parseInt] reads from it and
    the text of that integer, or no year and the string itself when none is
    read, so a year from a string is an integer or null; a number is kept as
    it is when finite, integer or not, with its text. *)
Theorem C8_normalizeYear_cases (value : option (jsstring + number)) :
  ((value = None \/ value = Some (inl [])) -> normalizeYear value = (None, UNKNOWN_YEAR))
  /\ (forall s z, value = Some (inl s) -> s <> [] -> parseInt s 10 = Int z ->
        normalizeYear value = (Some (Int z), numberToString (Int z)))
  /\ (forall s, value = Some (inl s) -> s <> [] ->
        Number_isFinite (parseInt s 10) = false -> normalizeYear value = (None, s))
  /\ (forall s, value = Some (inl s) ->
        match fst (normalizeYear value) with
        | Some y => Number_isInteger y = true
        | None => True
        end)
  /\ (forall n, value = Some (inr n) ->
        normalizeYear value
        = (if Number_isFinite n then Some n else None, numberToString n)).
Proof.
  repeat split.
  - by intros [-> | ->].
  - intros s z -> Hs Hz. destruct s; [done|]. cbn [normalizeYear]. by rewrite Hz.
  - intros s -> Hs Hz. destruct s; [done|]. cbn [normalizeYear]. by rewrite Hz.
  - intros s ->. destruct s as [|c s]; [exact I|]. cbn [normalizeYear].
    pose proof (parseInt_integral (c :: s) 10) as H.
    by destruct (parseInt (c :: s) 10).
  - intros n ->. cbn [normalizeYear]. by destruct (Number_isFinite n).
Qed.

Lemma C8_normalizeYear_witness :
  normalizeYear None = (None, js "未知")
  /\ normalizeYear (Some (inl (js "2024年"))) = (Some (Int 2024), js "2024")
  /\ normalizeYear (Some (inl (js "二〇二四"))) = (None, js "二〇二四").
Proof.
  split; [|split].
  - exact (proj1 (C8_normalizeYear_cases None) (or_introl eq_refl)).
  - refine (proj1 (proj2 (C8_normalizeYear_cases (Some (inl (js "2024年")))))
              (js "2024年") 2024 eq_refl _ _).
    + vm_compute. discriminate.
    + vm_compute. reflexivity.
  - refine (proj1 (proj2 (proj2 (C8_normalizeYear_cases (Some (inl (js "二〇二四"))))))
              (js "二〇二四") eq_refl _ _).
    + vm_compute. discriminate.
    + vm_compute. reflexivity.
Defined.

(** C8, as stated, fails: a year given as the number 2024.5 is kept, and is
    no integer. *)
Lemma C8_year_not_integer :
  normalizeYear (Some (inr (Frac 4049 1))) = (Some (Frac 4049 1), js "2024.5")
  /\ Number_isInteger (Frac 4049 1) = false.
Proof. vm_compute. split; reflexivity. Qed.

(** *** Identifiers (C7) *)

Lemma digitsFrom_chars (fuel : nat) (radix n : Z) (acc : jsstring) :
  0 < radix -> Forall (fun c => 48 <= c) acc ->
  Forall (fun c => 48 <= c) (digitsFrom fuel radix n acc).
Proof.
  intros Hr. revert n acc.
  induction fuel as [|fuel IH]; intros n acc Hacc; simpl; [exact Hacc|].
  assert (Hd : 48 <= digitChar (n mod radix)).
  { pose proof (Z.mod_pos_bound n radix Hr). unfold digitChar.
    destruct (n mod radix <? 10); lia. }
  destruct (n <? radix); [by constructor|]. apply IH. by constructor.
Qed.

Lemma hashString_no_dash (value : jsstring) : 45 ∉ hashString value.
Proof.
  unfold hashString, natToString. intros H.
  assert (Hall := digitsFrom_chars
            (S (Z.to_nat (Z.log2 (fold_left hashStep value 0)))) 36
            (fold_left hashStep value 0) [] ltac:(lia) ltac:(constructor)).
  eapply Forall_forall in Hall; [|exact H]. lia.
Qed.

Lemma after_first_dash (l1 l2 r1 r2 : jsstring) :
  l1 ++ 45 :: r1 = l2 ++ 45 :: r2 -> 45 ∉ l1 -> 45 ∉ l2 -> r1 = r2.
Proof.
  revert l2. induction l1 as [|x l1 IH]; intros [|y l2] H H1 H2; simpl in H.
  - congruence.
  - injection H as <- _. exfalso. apply H2, list_elem_of_here.
  - injection H as -> _. exfalso. apply H1, list_elem_of_here.
  - injection H as _ H. apply (IH l2 H).
    + intros Hin. by apply H1, list_elem_of_further.
    + intros Hin. by apply H2, list_elem_of_further.
Qed.

Lemma before_last_dash (b1 b2 h1 h2 : jsstring) :
  b1 ++ 45 :: h1 = b2 ++ 45 :: h2 -> 45 ∉ h1 -> 45 ∉ h2 -> b1 = b2.
Proof.
  intros H H1 H2. apply (f_equal (@rev Z)) in H.
  rewrite !rev_app_distr in H. simpl in H. rewrite <- !app_assoc in H. simpl in H.
  apply after_first_dash in H.
  - apply (f_equal (@rev Z)) in H. by rewrite !rev_involutive in H.
  - intros Hin. by apply H1, elem_of_rev.
  - intros Hin. by apply H2, elem_of_rev.
Qed.

(** Two identifiers are equal exactly when their bases are. *)
Lemma makeId_equal (a1 t1 l1 y1 a2 t2 l2 y2 : jsstring) :
  makeId a1 t1 l1 y1 = makeId a2 t2 l2 y2 <-> idBase a1 t1 l1 y1 = idBase a2 t2 l2 y2.
Proof.
  unfold makeId. split; [|by intros ->].
  intros H. eapply before_last_dash; [exact H| |]; apply hashString_no_dash.
Qed.

Lemma normalizeTrack_id (artist : jsstring) (raw : TrackInput) :
  ti_id raw = None ->
  id (normalizeTrack artist raw)
  = makeId (Schema.artist (normalizeTrack artist raw)) (title (normalizeTrack artist raw))
      (album (normalizeTrack artist raw)) (yearText (normalizeTrack artist raw)).
Proof.
  intros H. unfold normalizeTrack. destruct (normalizeYear (ti_year raw)) as [y yt].
  rewrite H. reflexivity.
Qed.

(** C7, as the code has it: for raw tracks without an identifier of their
    own, the identifier is a function of the (artist, title, album,
    yearText) quadruple, so equal quadruples give equal identifiers; and two
    identifiers are equal exactly when the quadruples, joined with dashes
    and with every run of white space turned into a dash, are the same
    text. *)
Theorem C7_id_of_quadruple (artist1 artist2 : jsstring) (raw1 raw2 : TrackInput) :
  ti_id raw1 = None -> ti_id raw2 = None ->
  let t1 := normalizeTrack artist1 raw1 in
  let t2 := normalizeTrack artist2 raw2 in
  (quadruple t1 = quadruple t2 -> id t1 = id t2)
  /\ (id t1 = id t2 <-> baseOf t1 = baseOf t2).
Proof.
  intros H1 H2 t1 t2. unfold t1, t2.
  rewrite (normalizeTrack_id artist1 raw1 H1), (normalizeTrack_id artist2 raw2 H2).
  split; [|apply makeId_equal].
  unfold quadruple. intros [= -> -> -> ->]. reflexivity.
Qed.

Lemma C7_id_of_quadruple_witness :
  let t1 := normalizeTrack (js "演示艺人") (rawTrack (js " 雾灯之外") (js "a")) in
  let t2 := normalizeTrack (js "演示艺人") (rawTrack (js "雾灯之外 ") (js "b")) in
  (quadruple t1 = quadruple t2 -> id t1 = id t2)
  /\ (id t1 = id t2 <-> baseOf t1 = baseOf t2).
Proof.
  exact (C7_id_of_quadruple (js "演示艺人") (js "演示艺人")
           (rawTrack (js " 雾灯之外") (js "a")) (rawTrack (js "雾灯之外 ") (js "b"))
           eq_refl eq_refl).
Defined.

(** C7, as stated, fails: two different quadruples with the same
    identifier. *)
Lemma C7_distinct_quadruples_same_id :
  let t1 := normalizeTrack (js "A") (withAlbum (rawTrack (js "B-C") (js "x")) (js "D")) in
  let t2 := normalizeTrack (js "A") (withAlbum (rawTrack (js "B") (js "x")) (js "C-D")) in
  quadruple t1 <> quadruple t2 /\ id t1 = id t2 /\ id t1 = js "A-B-C-D-未知-18g0gh1".
Proof. vm_compute. repeat split. discriminate. Qed.

(** *** Lyrics (C3) *)

Lemma zMin1_string_ok (message : jsstring) (path : list pathItem) (v : value) (l : jsstring) :
  zMin1 message zString path v = ZOk l -> v = VString l /\ l <> [].
Proof.
  unfold zMin1, zString. destruct v; try discriminate.
  destruct s; simpl; [discriminate|]. intros [= <-]. by split.
Qed.

Lemma TrackInputSchema_lyrics (path : list pathItem) (v : value) (t : TrackInput) :
  TrackInputSchema path v = ZOk t ->
  getProp v (js "lyrics") = VString (ti_lyrics t) /\ ti_lyrics t <> [].
Proof.
  unfold TrackInputSchema. destruct v; try discriminate.
  destruct (field (zOptional zString) path _ (js "id")); [|discriminate].
  destruct (field (zMin1 (js "title is required") zString) path _ (js "title"));
    [|discriminate].
  destruct (field (zOptional zString) path _ (js "album")); [|discriminate].
  destruct (field (zOptional (zUnion zString zNumber)) path _ (js "year")); [|discriminate].
  destruct (field (zOptional (zUnion zString (zArray zString))) path _ (js "lyricists"));
    [|discriminate].
  destruct (field (zMin1 (js "lyrics is required") zString) path _ (js "lyrics")) eqn:Hl;
    [|discriminate].
  intros [= <-]. cbn [ti_lyrics]. by apply zMin1_string_ok in Hl.
Qed.

Lemma zItems_ok {A} (s : schema A) (path : list pathItem) (i : nat) (items : list value)
    (l : list A) :
  zItems s path i items = ZOk l ->
  Forall2 (fun v a => exists p, s p v = ZOk a) items l.
Proof.
  revert i l. induction items as [|v items IH]; intros i l; simpl.
  - intros [= <-]. constructor.
  - destruct (s (path ++ [Index i]) v) eqn:Hv; [|discriminate].
    destruct (zItems s path (S i) items) eqn:Hrest; [|discriminate].
    intros [= <-]. constructor; [by eauto|]. by eapply IH.
Qed.

Lemma Forall2_elem_l {A B} (P : A -> B -> Prop) (l : list A) (k : list B) (x : A) :
  Forall2 P l k -> x ∈ l -> exists y, y ∈ k /\ P x y.
Proof.
  induction 1 as [|a b l k Hab _ IH]; intros Hx; [by apply elem_of_nil in Hx|].
  apply elem_of_cons in Hx as [->|Hx].
  - exists b. split; [apply list_elem_of_here|exact Hab].
  - destruct (IH Hx) as [y [Hy HP]]. exists y. split; [by apply list_elem_of_further|exact HP].
Qed.

Lemma Forall2_elem_r {A B} (P : A -> B -> Prop) (l : list A) (k : list B) (y : B) :
  Forall2 P l k -> y ∈ k -> exists x, x ∈ l /\ P x y.
Proof.
  induction 1 as [|a b l k Hab _ IH]; intros Hy; [by apply elem_of_nil in Hy|].
  apply elem_of_cons in Hy as [->|Hy].
  - exists a. split; [apply list_elem_of_here|exact Hab].
  - destruct (IH Hy) as [x [Hx HP]]. exists x. split; [by apply list_elem_of_further|exact HP].
Qed.

(** What the schema lets through, track by track. *)
Lemma LyricsPackageSchema_tracks (input : value) (parsed : LyricsPackage) :
  LyricsPackageSchema [] input = ZOk parsed ->
  exists items,
    getProp input (js "tracks") = VArray items
    /\ Forall2 (fun v t => exists p, TrackInputSchema p v = ZOk t) items (lp_tracks parsed).
Proof.
  unfold LyricsPackageSchema. destruct input; try discriminate.
  destruct (field schemaVersionSchema [] _ (js "schema_version")); [|discriminate].
  destruct (field artistSchema [] _ (js "artist")); [|discriminate].
  destruct (field tracksSchema [] _ (js "tracks")) as [ts|] eqn:Ht; [|discriminate].
  intros [= <-]. cbn [lp_tracks].
  unfold field, tracksSchema, zMin1, zArray in Ht.
  destruct (getProp (VObject props) (js "tracks")) eqn:Hg; try discriminate.
  exists items. split; [reflexivity|].
  destruct (zItems TrackInputSchema _ 0 items) eqn:Hi; [|discriminate].
  destruct (1 <=? length a1)%nat; [|discriminate].
  injection Ht as <-. by eapply zItems_ok.
Qed.

(** The lyrics of every returned track are the trimmed lyrics of a raw track
    whose lyrics are not the empty string. *)
Lemma returned_lyrics (input : value) (pkg : NormalizedPackage) :
  normalizeLyricsPackage input = Returns pkg ->
  Forall (fun t => exists raw, raw <> [] /\ lyrics t = trim raw) (tracks pkg).
Proof.
  unfold normalizeLyricsPackage.
  destruct (LyricsPackageSchema [] input) as [parsed|] eqn:Hp; [|discriminate].
  intros [= <-]. cbn [tracks].
  apply LyricsPackageSchema_tracks in Hp as [items [_ Hitems]].
  apply Forall_forall. intros t Ht.
  apply list_elem_of_In, in_map_iff in Ht as [raw [<- Hraw]].
  apply list_elem_of_In in Hraw.
  destruct (Forall2_elem_r _ _ _ _ Hitems Hraw) as [v [_ [p Hv]]].
  apply TrackInputSchema_lyrics in Hv as [_ Hne].
  exists (ti_lyrics raw). split; [exact Hne|].
  unfold normalizeTrack. by destruct (normalizeYear (ti_year raw)).
Qed.

(** A raw track whose lyrics are the empty string makes the validator throw. *)
Lemma empty_lyrics_rejected (input : value) (items : list value) (item : value) :
  getProp input (js "tracks") = VArray items ->
  item ∈ items ->
  getProp item (js "lyrics") = VString [] ->
  exists e, normalizeLyricsPackage input = Throws e.
Proof.
  intros Htracks Hitem Hlyrics. unfold normalizeLyricsPackage.
  destruct (LyricsPackageSchema [] input) as [parsed|found] eqn:Hp; [|by eauto].
  exfalso. apply LyricsPackageSchema_tracks in Hp as [items' [Hitems' Hall]].
  rewrite Htracks in Hitems'. injection Hitems' as <-.
  destruct (Forall2_elem_l _ _ _ _ Hall Hitem) as [t [_ [p Ht]]].
  apply TrackInputSchema_lyrics in Ht as [Hl Hne].
  rewrite Hlyrics in Hl. injection Hl as Hl. congruence.
Qed.

(** The TXT import path keeps the invariant: it drops the tracks with blank
    lyrics before the validator sees them. *)
Lemma firstByKey_elem (artist : jsstring) (seen : gset jsstring)
    (tracks : list PackageTrack) (t : PackageTrack) :
  t ∈ firstByKey artist seen tracks -> t ∈ tracks.
Proof.
  revert seen. induction tracks as [|track rest IH]; intros seen; simpl; [done|].
  destruct (bool_decide (trackKey artist track ∈ seen)).
  - intros H. by apply list_elem_of_further, (IH seen).
  - intros H. apply elem_of_cons in H as [->|H]; [apply list_elem_of_here|].
    by apply list_elem_of_further, (IH _ H).
Qed.

Lemma validated_package_lyrics (p : PackageResult) (pkg : NormalizedPackage) :
  normalizeLyricsPackage (packageValue p) = Returns pkg ->
  Forall (fun t => exists pt, pt ∈ Packgen.tracks p /\ lyrics t = trim (pt_lyrics pt))
    (Schema.tracks pkg).
Proof.
  unfold normalizeLyricsPackage.
  destruct (LyricsPackageSchema [] (packageValue p)) as [parsed|] eqn:Hp; [|discriminate].
  intros [= <-]. cbn [Schema.tracks].
  apply LyricsPackageSchema_tracks in Hp as [items [Hitems Hall]].
  change (getProp (packageValue p) (js "tracks"))
    with (VArray (List.map trackValue (Packgen.tracks p))) in Hitems.
  injection Hitems as <-.
  apply Forall_forall. intros t Ht.
  apply list_elem_of_In, in_map_iff in Ht as [raw [<- Hraw]].
  apply list_elem_of_In in Hraw.
  destruct (Forall2_elem_r _ _ _ _ Hall Hraw) as [v [Hv [path Hparse]]].
  apply list_elem_of_In, in_map_iff in Hv as [pt [<- Hpt]].
  apply TrackInputSchema_lyrics in Hparse as [Hlyrics _].
  change (getProp (trackValue pt) (js "lyrics")) with (VString (pt_lyrics pt)) in Hlyrics.
  injection Hlyrics as Hlyrics.
  exists pt. split; [by apply list_elem_of_In|].
  unfold normalizeTrack. destruct (normalizeYear (ti_year raw)). cbn [lyrics].
  by rewrite Hlyrics.
Qed.

Lemma importText_lyrics (text : jsstring) (pkg : NormalizedPackage) :
  importText text = Some (Returns pkg) ->
  Forall (fun t => lyrics t <> []) (Schema.tracks pkg).
Proof.
  unfold importText.
  destruct (firstByKey _ ∅ _) as [|k kept] eqn:Hkept; [discriminate|].
  intros [= H]. apply validated_package_lyrics in H. cbn [Packgen.tracks] in H.
  eapply Forall_impl; [exact H|]. intros t [pt [Hpt ->]].
  rewrite <- Hkept in Hpt. apply firstByKey_elem in Hpt.
  apply list_elem_of_In, filter_In in Hpt as [_ Hpt].
  unfold hasLyrics in Hpt. apply andb_true_iff in Hpt as [_ Hpt].
  apply Nat.ltb_lt in Hpt. destruct (trim (pt_lyrics pt)); [simpl in Hpt; lia|done].
Qed.

(** C3 at the failing input: lyrics of one space pass the schema, which
    measures them before they are trimmed, and the returned track has empty
    lyrics. *)
Theorem C3_blank_lyrics_accepted :
  normalizeLyricsPackage blankLyricsPackage
  = Returns {| schemaVersion := js "1";
               np_artist := js "A";
               tracks := [normalizeTrack (js "A") (rawTrack (js "T") (js " "))] |}
  /\ lyrics (normalizeTrack (js "A") (rawTrack (js "T") (js " "))) = [].
Proof. vm_compute. split; reflexivity. Qed.

End Validator.

(** ** The lexical statistics *)

Section Statistics.

Variable Segmenter : option (jsstring -> list jsstring).

(** *** The count map *)

Lemma mapGet_mapSet (counts : list (jsstring * Z)) (key key' : jsstring) (n : Z) :
  mapGet (mapSet counts key n) key'
  = if jsstring_eqb key key' then Some n else mapGet counts key'.
Proof.
  unfold jsstring_eqb.
  induction counts as [|[k m] rest IH]; simpl; unfold jsstring_eqb.
  - reflexivity.
  - repeat case_bool_decide; simpl; unfold jsstring_eqb;
      repeat case_bool_decide; subst; congruence.
Qed.

Lemma mapSet_keys (counts : list (jsstring * Z)) (key : jsstring) (n : Z) :
  List.map fst (mapSet counts key n)
  = if bool_decide (key ∈ List.map fst counts) then List.map fst counts
    else List.map fst counts ++ [key].
Proof.
  induction counts as [|[k m] rest IH]; simpl; [reflexivity|].
  destruct (jsstring_eqb k key) eqn:Hk; simpl.
  - apply jsstring_eqb_true in Hk as ->.
    rewrite bool_decide_eq_true_2 by apply list_elem_of_here. reflexivity.
  - apply jsstring_eqb_false in Hk. rewrite IH.
    destruct (bool_decide (key ∈ List.map fst rest)) eqn:Hin.
    + apply bool_decide_eq_true in Hin.
      rewrite bool_decide_eq_true_2 by (by apply list_elem_of_further). reflexivity.
    + apply bool_decide_eq_false in Hin.
      rewrite bool_decide_eq_false_2; [reflexivity|].
      intros H. apply elem_of_cons in H as [H|H]; congruence.
Qed.

Lemma mapSet_NoDup (counts : list (jsstring * Z)) (key : jsstring) (n : Z) :
  NoDup (List.map fst counts) -> NoDup (List.map fst (mapSet counts key n)).
Proof.
  intros H. rewrite mapSet_keys.
  destruct (bool_decide (key ∈ List.map fst counts)) eqn:Hin; [exact H|].
  apply bool_decide_eq_false in Hin.
  apply NoDup_app. split; [exact H|]. split; [|apply NoDup_singleton].
  intros x Hx Hx'. apply list_elem_of_singleton in Hx'. congruence.
Qed.

Lemma mapGet_elem (counts : list (jsstring * Z)) (key : jsstring) (n : Z) :
  NoDup (List.map fst counts) -> (key, n) ∈ counts -> mapGet counts key = Some n.
Proof.
  induction counts as [|[k m] rest IH]; simpl; intros Hnd Hin.
  - by apply elem_of_nil in Hin.
  - apply NoDup_cons in Hnd as [Hk Hnd].
    apply elem_of_cons in Hin as [[= <- <-]|Hin].
    + by rewrite (proj2 (jsstring_eqb_true key key) eq_refl).
    + destruct (jsstring_eqb k key) eqn:Hkk; [|by apply IH].
      apply jsstring_eqb_true in Hkk as ->. exfalso. apply Hk.
      apply list_elem_of_In, in_map_iff. exists (key, n). split; [reflexivity|].
      by apply list_elem_of_In.
Qed.

Lemma counted_keys (tokens : list jsstring) (counts : list (jsstring * Z)) (key : jsstring) :
  key ∈ List.map fst (fold_left countToken tokens counts) ->
  key ∈ List.map fst counts \/ key ∈ tokens.
Proof.
  revert counts. induction tokens as [|t tokens IH]; intros counts; simpl; [by left|].
  intros H. apply IH in H as [H|H]; [|right; by apply list_elem_of_further].
  unfold countToken in H. rewrite mapSet_keys in H.
  destruct (bool_decide (t ∈ List.map fst counts)); [by left|].
  apply elem_of_app in H as [H|H]; [by left|].
  apply list_elem_of_singleton in H as ->. right. apply list_elem_of_here.
Qed.

Lemma counted_NoDup (tokens : list jsstring) (counts : list (jsstring * Z)) :
  NoDup (List.map fst counts) -> NoDup (List.map fst (fold_left countToken tokens counts)).
Proof.
  revert counts. induction tokens as [|t tokens IH]; intros counts H; simpl; [exact H|].
  apply IH. by apply mapSet_NoDup.
Qed.

(** Each token counts once for each of its occurrences. *)
Lemma counted_occurrences (tokens : list jsstring) (counts : list (jsstring * Z))
    (key : jsstring) :
  default 0 (mapGet (fold_left countToken tokens counts) key)
  = default 0 (mapGet counts key) + Z.of_nat (occurrences key tokens).
Proof.
  revert counts. induction tokens as [|t tokens IH]; intros counts; simpl.
  - unfold occurrences. simpl. lia.
  - rewrite IH. unfold countToken. rewrite mapGet_mapSet.
    unfold occurrences. simpl.
    destruct (jsstring_eqb t key) eqn:Ht.
    + apply jsstring_eqb_true in Ht as ->.
      rewrite (proj2 (jsstring_eqb_true key key) eq_refl). simpl length.
      cbn [default from_option]. unfold Datatypes.id. lia.
    + replace (jsstring_eqb key t) with false; [lia|].
      symmetry. apply jsstring_eqb_false. apply jsstring_eqb_false in Ht. congruence.
Qed.

Lemma countsOf_keys (single : bool) (tracks : list TrackRecord) (key : jsstring) :
  key ∈ List.map fst (countsOf Segmenter single tracks) ->
  exists track, track ∈ tracks /\ key ∈ tokensOf Segmenter single track.
Proof.
  unfold countsOf.
  enough (H : forall counts,
             key ∈ List.map fst
               (fold_left (fun counts track =>
                  fold_left countToken (tokensOf Segmenter single track) counts)
                  tracks counts) ->
             key ∈ List.map fst counts
             \/ exists track, track ∈ tracks /\ key ∈ tokensOf Segmenter single track).
  { intros Hk. destruct (H [] Hk) as [Hnil|Hex]; [by apply elem_of_nil in Hnil|exact Hex]. }
  induction tracks as [|track tracks IH]; intros counts; simpl; [by left|].
  intros Hk. apply IH in Hk as [Hk|[t [Ht Hk]]].
  - apply counted_keys in Hk as [Hk|Hk]; [by left|].
    right. exists track. split; [apply list_elem_of_here|exact Hk].
  - right. exists t. split; [by apply list_elem_of_further|exact Hk].
Qed.

Lemma countsOf_NoDup (single : bool) (tracks : list TrackRecord) :
  NoDup (List.map fst (countsOf Segmenter single tracks)).
Proof.
  unfold countsOf.
  enough (H : forall counts, NoDup (List.map fst counts) ->
             NoDup (List.map fst
               (fold_left (fun counts track =>
                  fold_left countToken (tokensOf Segmenter single track) counts)
                  tracks counts))) by apply H, NoDup_nil_2.
  induction tracks as [|track tracks IH]; intros counts H; simpl; [exact H|].
  apply IH. by apply counted_NoDup.
Qed.

(** *** Sorting and slicing *)

Lemma insertByCount_elem (x y : BigramToken) (sorted : list BigramToken) :
  x ∈ insertByCount y sorted <-> x = y \/ x ∈ sorted.
Proof.
  induction sorted as [|z rest IH]; simpl.
  - rewrite list_elem_of_singleton. split; [by left|]. intros [H|H]; [exact H|].
    by apply elem_of_nil in H.
  - destruct (count y <? count z); rewrite !elem_of_cons; [rewrite IH|]; tauto.
Qed.

Lemma sortByCount_elem (x : BigramToken) (items : list BigramToken) :
  x ∈ sortByCount items <-> x ∈ items.
Proof.
  induction items as [|y items IH]; simpl; [reflexivity|].
  rewrite insertByCount_elem, elem_of_cons, IH. reflexivity.
Qed.

Lemma insertByCount_sorted (x : BigramToken) (sorted : list BigramToken) :
  nonIncreasing sorted -> nonIncreasing (insertByCount x sorted).
Proof.
  unfold nonIncreasing. induction 1 as [|y rest Hrest IH Hy]; simpl.
  - repeat constructor.
  - destruct (count x <? count y) eqn:Hxy.
    + apply Z.ltb_lt in Hxy. constructor; [exact IH|].
      apply Forall_forall. intros z Hz. apply insertByCount_elem in Hz as [->|Hz]; [lia|].
      eapply Forall_forall in Hy; [exact Hy|exact Hz].
    + apply Z.ltb_ge in Hxy. constructor; [by constructor|].
      constructor; [exact Hxy|].
      eapply Forall_impl; [exact Hy|]. intros z Hz. simpl in Hz. lia.
Qed.

Lemma sortByCount_sorted (items : list BigramToken) : nonIncreasing (sortByCount items).
Proof.
  induction items as [|x items IH]; simpl; [constructor|]. by apply insertByCount_sorted.
Qed.

Lemma take_sorted (n : nat) (items : list BigramToken) :
  nonIncreasing items -> nonIncreasing (take n items).
Proof.
  unfold nonIncreasing. intros H. revert n.
  induction H as [|x rest Hrest IH Hx]; intros [|n]; simpl; try constructor.
  - apply IH.
  - apply Forall_forall. intros y Hy. eapply Forall_forall in Hx; [exact Hx|].
    eapply elem_of_sublist; [exact Hy|apply sublist_take].
Qed.

Lemma slice0_sorted (items : list BigramToken) (limit : Z) :
  nonIncreasing items -> nonIncreasing (slice0 items limit).
Proof. intros H. unfold slice0. destruct (limit <? 0); by apply take_sorted. Qed.

Lemma slice0_elem {A} (x : A) (items : list A) (limit : Z) :
  x ∈ slice0 items limit -> x ∈ items.
Proof.
  unfold slice0. destruct (limit <? 0); intros H;
    (eapply elem_of_sublist; [exact H|apply sublist_take]).
Qed.

Lemma slice0_length {A} (items : list A) (limit : Z) :
  0 <= limit -> Z.of_nat (length (slice0 items limit)) <= limit.
Proof.
  intros H. unfold slice0. destruct (limit <? 0) eqn:Hneg; [apply Z.ltb_lt in Hneg; lia|].
  rewrite length_take. lia.
Qed.

(** *** The tokens of a track *)

Lemma segmentWords_kept (text token : jsstring) (options : option Options) :
  token ∈ segmentWords Segmenter text options ->
  keepToken (includeSingleOf options) token = true.
Proof.
  unfold segmentWords. destruct Segmenter as [segment|]; [|by intros H; apply elem_of_nil in H].
  intros H. by apply list_elem_of_In, filter_In in H as [_ H].
Qed.

Lemma bigrams_valid (chars : list jsstring) (token : jsstring) :
  token ∈ bigrams chars ->
  exists a b, token = a ++ b /\ isValidChar a = true /\ isValidChar b = true.
Proof.
  induction chars as [|first rest IH]; simpl; [by intros H; apply elem_of_nil in H|].
  destruct rest as [|second rest']; [by intros H; apply elem_of_nil in H|].
  intros H. apply elem_of_app in H as [H|H]; [|by apply IH].
  destruct (isValidChar first && isValidChar second) eqn:Hv;
    [|by apply elem_of_nil in H].
  apply list_elem_of_singleton in H as ->. apply andb_true_iff in Hv as [H1 H2].
  by exists first, second.
Qed.

Lemma isValidChar_nonempty (char : jsstring) : isValidChar char = true -> char <> [].
Proof. intros H ->. vm_compute in H. discriminate. Qed.

(** Where a token of a track comes from: the segmenter's words that pass the
    filters, or, when there are none, the valid bigrams. *)
Lemma tokensOf_origin (single : bool) (track : TrackRecord) (token : jsstring) :
  token ∈ tokensOf Segmenter single track ->
  keepToken single token = true
  \/ segmentWords Segmenter (uniqueTextOf track) (only single) = []
     /\ exists a b, token = a ++ b /\ isValidChar a = true /\ isValidChar b = true.
Proof.
  unfold tokensOf.
  destruct (segmentWords Segmenter (uniqueTextOf track) (only single)) as [|w ws] eqn:Hseg.
  - intros H. right. split; [reflexivity|]. by apply bigrams_valid in H.
  - intros H. left.
    apply (segmentWords_kept (uniqueTextOf track) token (only single)).
    rewrite Hseg. exact H.
Qed.

(** Every entry of the statistics is an entry of the count map. *)
Lemma buildBigramStats_entry (tracks : list TrackRecord) (limit : option Z)
    (options : option Options) (e : BigramToken) :
  e ∈ buildBigramStats Segmenter tracks limit options ->
  (token e, count e) ∈ countsOf Segmenter (includeSingleOf options) tracks.
Proof.
  unfold buildBigramStats. intros H.
  apply slice0_elem, sortByCount_elem, list_elem_of_In, in_map_iff in H
    as [[k n] [<- H]].
  by apply list_elem_of_In.
Qed.

(** *** Ordering and filters (C4) *)

(** C4, as the code has it: for a limit that is not negative the statistics
    are at most that many entries, in non-increasing order of count; no
    returned token is a single stop character, every one has two code units
    or more unless single characters are included, and a returned token is
    a stop word only if it is a bigram of the fallback, made for a track for
    which word segmentation gave nothing. *)
Theorem C4_statistics_ordering (tracks : list TrackRecord) (limit : Z)
    (options : option Options) :
  0 <= limit ->
  let result := buildBigramStats Segmenter tracks (Some limit) options in
  Z.of_nat (length result) <= limit
  /\ nonIncreasing result
  /\ Forall
       (fun e =>
          ~ (length (token e) = 1%nat /\ has stopChars (token e) = true)
          /\ (includeSingleOf options = false -> (2 <= length (token e))%nat)
          /\ (has stopWords (token e) = false
              \/ exists track a b,
                   track ∈ tracks
                   /\ segmentWords Segmenter (uniqueTextOf track)
                        (only (includeSingleOf options)) = []
                   /\ token e = a ++ b /\ isValidChar a = true /\ isValidChar b = true))
       result.
Proof.
  intros Hlimit result. split; [|split].
  - by apply slice0_length.
  - apply slice0_sorted, sortByCount_sorted.
  - apply Forall_forall. intros e He.
    apply buildBigramStats_entry in He.
    assert (Hkey : token e
                   ∈ List.map fst (countsOf Segmenter (includeSingleOf options) tracks)).
    { apply list_elem_of_In, in_map_iff. exists (token e, count e).
      split; [reflexivity|]. by apply list_elem_of_In. }
    apply countsOf_keys in Hkey as [track [Htrack Htoken]].
    apply tokensOf_origin in Htoken as [Hkeep|[Hseg [a [b [Hab [Ha Hb]]]]]].
    + unfold keepToken in Hkeep.
      repeat (apply andb_true_iff in Hkeep as [Hkeep ?]).
      repeat match goal with H : negb _ = true |- _ => apply negb_true_iff in H end.
      split; [|split].
      * intros [Hlen Hstop].
        match goal with H : _ && has stopChars _ = false |- _ =>
          rewrite Hlen, Hstop in H; discriminate H end.
      * intros Hsingle.
        match goal with H : negb _ && _ = false |- _ =>
          rewrite Hsingle in H; simpl in H; apply Nat.ltb_ge in H; exact H end.
      * by left.
    + assert (Hlen : (2 <= length (token e))%nat).
      { rewrite Hab, length_app.
        apply isValidChar_nonempty in Ha, Hb.
        destruct a; [done|]. destruct b; [done|]. simpl. lia. }
      split; [|split].
      * intros [H1 _]. lia.
      * by intros _.
      * right. by exists track, a, b.
Qed.

(** *** A repeated line (C5) *)

Lemma split_on_cons (sep : Z) (s : jsstring) :
  exists piece rest, split_on sep s = piece :: rest.
Proof.
  induction s as [|c t [piece [rest IH]]]; simpl; [by eauto|].
  rewrite IH. destruct (c =? sep); eauto.
Qed.







Lemma tokensOf_text (single : bool) (t1 t2 : TrackRecord) :
  uniqueTextOf t1 = uniqueTextOf t2 ->
  tokensOf Segmenter single t1 = tokensOf Segmenter single t2.
Proof. intros H. unfold tokensOf. by rewrite H. Qed.

End Statistics.

Lemma C4_statistics_ordering_witness :
  let tracks := [trackOf (js "1") (js "雾灯之外") (js "春风 吹过 山岗" ++ [LF] ++ js "山岗 春风")] in
  let result := buildBigramStats (Some wordsBetweenSpaces) tracks (Some 3) None in
  Z.of_nat (length result) <= 3
  /\ nonIncreasing result
  /\ Forall
       (fun e =>
          ~ (length (token e) = 1%nat /\ has stopChars (token e) = true)
          /\ (includeSingleOf None = false -> (2 <= length (token e))%nat)
          /\ (has stopWords (token e) = false
              \/ exists track a b,
                   track ∈ tracks
                   /\ segmentWords (Some wordsBetweenSpaces) (uniqueTextOf track)
                        (only (includeSingleOf None)) = []
                   /\ token e = a ++ b /\ isValidChar a = true /\ isValidChar b = true))
       result.
Proof.
  exact (C4_statistics_ordering (Some wordsBetweenSpaces)
           [trackOf (js "1") (js "雾灯之外") (js "春风 吹过 山岗" ++ [LF] ++ js "山岗 春风")]
           3 None ltac:(lia)).
Defined.

Example statistics_with_segmenter :
  buildBigramStats (Some wordsBetweenSpaces)
    [trackOf (js "1") (js "T") (js "春风 吹过 我们 的 山岗" ++ [LF] ++ js "山岗 春风 ok");
     trackOf (js "2") (js "U") (js "山岗")]
    None None
  = [{| token := js "山岗"; count := 3 |}; {| token := js "春风"; count := 2 |};
     {| token := js "吹过"; count := 1 |}].
Proof. vm_compute. reflexivity. Qed.

(** C4, as stated, fails: without a segmenter, or with one whose only word
    for the text is a stop word, the fallback returns the stop word; and a
    negative limit cuts from the end. *)
Lemma C4_fallback_returns_stop_word :
  buildBigramStats None [trackOf (js "1") (js "T") (js "自己")] (Some 20) None
    = [{| token := js "自己"; count := 1 |}]
  /\ buildBigramStats (Some (fun text => [text])) [trackOf (js "1") (js "T") (js "自己")]
       (Some 20) None
     = [{| token := js "自己"; count := 1 |}]
  /\ has stopWords (js "自己") = true
  /\ length (buildBigramStats None [trackOf (js "1") (js "T") (js "春风吹过")] (Some (-1)) None)
     = 2%nat.
Proof. vm_compute. repeat split. Qed.

Example repeated_line_statistics :
  buildBigramStats (Some wordsBetweenSpaces)
    [trackOf (js "1") (js "T") (join [LF] (repeat (js " 春风 吹过 春风 ") 10))] None None
  = [{| token := js "春风"; count := 2 |}; {| token := js "吹过"; count := 1 |}]
  /\ buildBigramStats None
       [trackOf (js "1") (js "T") (join [LF] (repeat (js "春风吹过") 10))] None None
     = [{| token := js "春风"; count := 1 |}; {| token := js "风吹"; count := 1 |};
        {| token := js "吹过"; count := 1 |}].
Proof. vm_compute. split; reflexivity. Qed.

(** ** The snippet locator (C6) *)

Section Snippets.

Variable toLowerCase : jsstring -> jsstring.

Lemma scanLines_cons (trimmed : jsstring) (limit : Z) (track : TrackRecord)
    (l : jsstring) (lines : list jsstring) (st : Scan) :
  scanLines toLowerCase trimmed limit track (l :: lines) st
  = if limit <=? Z.of_nat (length (results st)) then (st, true)
    else if truthy (trim l) then
      if includes (toLowerCase (trim l)) trimmed then
        if bool_decide (trim l ∈ seen st) then
          scanLines toLowerCase trimmed limit track lines st
        else if (2 <=? usedBy st track)%nat then
          scanLines toLowerCase trimmed limit track lines st
        else
          scanLines toLowerCase trimmed limit track lines
            {| results := results st ++ [{| line := trim l; s_title := title track |}];
               seen := {[trim l]} ∪ seen st;
               perTrackCount := <[id track := S (usedBy st track)]> (perTrackCount st) |}
      else scanLines toLowerCase trimmed limit track lines st
    else scanLines toLowerCase trimmed limit track lines st.
Proof.
  cbn [scanLines]. destruct (limit <=? _); [reflexivity|].
  destruct (truthy (trim l)); [|reflexivity].
  by destruct (includes (toLowerCase (trim l)) trimmed).
Qed.

Lemma scanLines_wellFormed (trimmed : jsstring) (limit : Z) (track : TrackRecord)
    (lines : list jsstring) (st st' : Scan) (returned : bool) :
  0 <= limit ->
  wellFormed toLowerCase trimmed limit st ->
  scanLines toLowerCase trimmed limit track lines st = (st', returned) ->
  wellFormed toLowerCase trimmed limit st'.
Proof.
  intros Hlimit. revert st. induction lines as [|l lines IH]; intros st Hst.
  - by intros [= <- _].
  - rewrite scanLines_cons.
    destruct (limit <=? Z.of_nat (length (results st))) eqn:Hfull; [by intros [= <- _]|].
    destruct (truthy (trim l)); [|by apply IH].
    destruct (includes (toLowerCase (trim l)) trimmed) eqn:Hinc; [|by apply IH].
    destruct (bool_decide (trim l ∈ seen st)) eqn:Hseen; [by apply IH|].
    destruct (2 <=? usedBy st track)%nat; [by apply IH|].
    apply IH. apply bool_decide_eq_false in Hseen. apply Z.leb_gt in Hfull.
    destruct Hst as (Hlen & Hall & Hnd & Hsub). repeat split; cbn [results seen].
    + rewrite length_app. simpl. lia.
    + apply Forall_app. split; [exact Hall|]. repeat constructor; [exact Hinc|apply trim_trim].
    + rewrite map_app. apply NoDup_app. split; [exact Hnd|]. split; [|apply NoDup_singleton].
      intros x Hx Hx'. apply list_elem_of_singleton in Hx'. subst x.
      apply list_elem_of_In, in_map_iff in Hx as [s [Hs Hin]].
      apply Hseen. cbn [line] in Hs. rewrite <- Hs. apply Hsub. by apply list_elem_of_In.
    + intros s Hs. apply elem_of_app in Hs as [Hs|Hs].
      * apply elem_of_union_r. by apply Hsub.
      * apply list_elem_of_singleton in Hs as ->. apply elem_of_union_l.
        by apply elem_of_singleton.
Qed.

(** What one track adds: at most two results, all its own. *)
Lemma scanLines_chunk (trimmed : jsstring) (limit : Z) (track : TrackRecord)
    (lines : list jsstring) (st st' : Scan) (returned : bool) :
  scanLines toLowerCase trimmed limit track lines st = (st', returned) ->
  exists chunk,
    results st' = results st ++ chunk
    /\ (length chunk + usedBy st track <= usedBy st' track)%nat
    /\ (usedBy st' track <= Nat.max (usedBy st track) 2)%nat
    /\ Forall (fun s => s_title s = title track
                        /\ exists l, l ∈ lines /\ line s = trim l) chunk.
Proof.
  revert st. induction lines as [|l lines IH]; intros st.
  - intros [= <- _]. exists []. rewrite app_nil_r. repeat split; [simpl; lia|lia|constructor].
  - rewrite scanLines_cons.
    assert (Hskip : scanLines toLowerCase trimmed limit track lines st = (st', returned) ->
            exists chunk,
              results st' = results st ++ chunk
              /\ (length chunk + usedBy st track <= usedBy st' track)%nat
              /\ (usedBy st' track <= Nat.max (usedBy st track) 2)%nat
              /\ Forall (fun s => s_title s = title track
                                  /\ exists l', l' ∈ l :: lines /\ line s = trim l') chunk).
    { intros H. destruct (IH st H) as (chunk & H1 & H2 & H3 & H4).
      exists chunk. repeat split; try assumption.
      eapply Forall_impl; [exact H4|]. intros s [Ht [l' [Hl' Hs]]].
      split; [exact Ht|]. exists l'. split; [by apply list_elem_of_further|exact Hs]. }
    destruct (limit <=? Z.of_nat (length (results st))).
    { intros [= <- _]. exists []. rewrite app_nil_r.
      repeat split; [simpl; lia|lia|constructor]. }
    destruct (truthy (trim l)); [|exact Hskip].
    destruct (includes (toLowerCase (trim l)) trimmed); [|exact Hskip].
    destruct (bool_decide (trim l ∈ seen st)); [exact Hskip|].
    destruct (2 <=? usedBy st track)%nat eqn:Hused; [exact Hskip|].
    apply Nat.leb_gt in Hused. intros H.
    destruct (IH _ H) as (chunk & H1 & H2 & H3 & H4).
    assert (Hnow :
              usedBy
                {| results := results st ++ [{| line := trim l; s_title := title track |}];
                   seen := {[trim l]} ∪ seen st;
                   perTrackCount := <[id track := S (usedBy st track)]> (perTrackCount st) |}
                track
              = S (usedBy st track)).
    { unfold usedBy at 1. cbn [perTrackCount]. by rewrite lookup_insert_eq. }
    rewrite Hnow in H2, H3. cbn [results] in H1.
    exists ({| line := trim l; s_title := title track |} :: chunk).
    rewrite H1, <- app_assoc. repeat split.
    + simpl. lia.
    + lia.
    + constructor.
      * split; [reflexivity|]. exists l. split; [apply list_elem_of_here|reflexivity].
      * eapply Forall_impl; [exact H4|]. intros s [Ht [l' [Hl' Hs]]].
        split; [exact Ht|]. exists l'. split; [by apply list_elem_of_further|exact Hs].
Qed.

Lemma scanTracks_chunks (trimmed : jsstring) (limit : Z) (tracks : list TrackRecord)
    (st : Scan) :
  0 <= limit ->
  wellFormed toLowerCase trimmed limit st ->
  exists final chunks,
    scanTracks toLowerCase trimmed limit tracks st = results final
    /\ wellFormed toLowerCase trimmed limit final
    /\ results final = results st ++ concat chunks
    /\ Forall2 (fun track chunk => (length chunk <= 2)%nat /\ Forall (fromTrack track) chunk)
         tracks chunks.
Proof.
  intros Hlimit. revert st. induction tracks as [|track tracks IH]; intros st Hst; simpl.
  - exists st, []. simpl. rewrite app_nil_r. repeat split; try apply Hst. constructor.
  - destruct (scanLines toLowerCase trimmed limit track (split_on LF (lyrics track)) st)
      as [st' returned] eqn:Hscan.
    pose proof (scanLines_wellFormed _ _ _ _ _ _ _ Hlimit Hst Hscan) as Hst'.
    destruct (scanLines_chunk _ _ _ _ _ _ _ Hscan) as (chunk & H1 & H2 & H3 & H4).
    assert (Hchunk : (length chunk <= 2)%nat /\ Forall (fromTrack track) chunk).
    { split; [lia|exact H4]. }
    destruct returned.
    + exists st', (chunk :: List.map (fun _ => []) tracks). repeat split; try apply Hst'.
      * simpl. rewrite H1. f_equal.
        clear. induction tracks; simpl; [by rewrite app_nil_r|assumption].
      * constructor; [exact Hchunk|].
        clear. induction tracks; simpl; constructor; [|assumption].
        split; [simpl; lia|constructor].
    + destruct (IH st' Hst') as (final & chunks & Hr & Hf & Hres & Hall).
      exists final, (chunk :: chunks). repeat split; try apply Hf; [exact Hr| |].
      * rewrite Hres, H1. simpl. by rewrite app_assoc.
      * by constructor.
Qed.

(** C6: with the limit 8, over tracks with pairwise distinct ids, the snippet
    locator returns at most 8 results; every returned line contains the
    trimmed term when both are put in lower case; no two results have the
    same trimmed line; and the results are, track by track in order, at most
    2 lines of each track. *)
Theorem C6_snippet_caps (tracks : list TrackRecord) (term : jsstring) :
  NoDup (List.map id tracks) ->
  let found := extractFocusedSnippets toLowerCase tracks term (Some 8) in
  (length found <= 8)%nat
  /\ Forall (fun s => includes (toLowerCase (line s)) (toLowerCase (trim term)) = true) found
  /\ NoDup (List.map (fun s => trim (line s)) found)
  /\ exists chunks,
       found = concat chunks
       /\ Forall2 (fun track chunk => (length chunk <= 2)%nat /\ Forall (fromTrack track) chunk)
            tracks chunks.
Proof.
  intros _ found. unfold found, extractFocusedSnippets.
  destruct (truthy (toLowerCase (trim term))); simpl.
  - destruct (scanTracks_chunks (toLowerCase (trim term)) 8 tracks
                {| results := []; seen := ∅; perTrackCount := ∅ |})
      as (final & chunks & Hr & (Hlen & Hall & Hnd & _) & Hres & Hchunks).
    { lia. }
    { repeat split; simpl; [lia|constructor|constructor|].
      intros s Hs. by apply elem_of_nil in Hs. }
    rewrite Hr. repeat split.
    + lia.
    + eapply Forall_impl; [exact Hall|]. by intros s [H _].
    + rewrite (map_ext_Forall _ line); [exact Hnd|].
      eapply Forall_impl; [exact Hall|]. by intros s [_ H].
    + exists chunks. split; [exact Hres|exact Hchunks].
  - repeat split; [simpl; lia|constructor|constructor|].
    exists (List.map (fun _ => []) tracks). split.
    + clear. induction tracks; simpl; [reflexivity|assumption].
    + clear. induction tracks; simpl; constructor; [|assumption].
      split; [simpl; lia|constructor].
Qed.

End Snippets.

Lemma C6_snippet_caps_witness :
  let tracks :=
    [trackOf (js "1") (js "雾灯之外")
       (js "Hello 雾灯" ++ [LF] ++ js " hello 雾灯 " ++ [LF] ++ js "HELLO 山岗"
        ++ [LF] ++ js "hello 春风");
     trackOf (js "2") (js "回声") (js "hello 山岗" ++ [LF] ++ js "hello 雾灯")] in
  let found := extractFocusedSnippets asciiLowerCase tracks (js " Hello ") (Some 8) in
  (length found <= 8)%nat
  /\ Forall (fun s => includes (asciiLowerCase (line s)) (asciiLowerCase (trim (js " Hello ")))
                      = true) found
  /\ NoDup (List.map (fun s => trim (line s)) found)
  /\ exists chunks,
       found = concat chunks
       /\ Forall2 (fun track chunk => (length chunk <= 2)%nat /\ Forall (fromTrack track) chunk)
            tracks chunks.
Proof.
  refine (C6_snippet_caps asciiLowerCase
            [trackOf (js "1") (js "雾灯之外")
               (js "Hello 雾灯" ++ [LF] ++ js " hello 雾灯 " ++ [LF] ++ js "HELLO 山岗"
                ++ [LF] ++ js "hello 春风");
             trackOf (js "2") (js "回声") (js "hello 山岗" ++ [LF] ++ js "hello 雾灯")]
            (js " Hello ") _).
  evaluate.
Defined.

Example snippets_found :
  extractFocusedSnippets asciiLowerCase
    [trackOf (js "1") (js "雾灯之外")
       (js "Hello 雾灯" ++ [LF] ++ js " hello 雾灯 " ++ [LF] ++ js "HELLO 山岗"
        ++ [LF] ++ js "hello 春风");
     trackOf (js "2") (js "回声") (js "hello 山岗" ++ [LF] ++ js "hello 雾灯")]
    (js " Hello ") None
  = [{| line := js "Hello 雾灯"; s_title := js "雾灯之外" |};
     {| line := js "hello 雾灯"; s_title := js "雾灯之外" |};
     {| line := js "hello 山岗"; s_title := js "回声" |}].
Proof. vm_compute. reflexivity. Qed.

(** * Properties of the rest of the code *)

Import Text Notions.

(** ** White space at the ends of a text *)

Lemma trimStart_parts (s : jsstring) : exists pre, s = pre ++ trimStart s /\ blank pre.
Proof.
  induction s as [|c s [pre [Hs Hpre]]]; simpl.
  - exists []. split; [reflexivity|constructor].
  - destruct (isWhiteSpace c) eqn:Hc.
    + exists (c :: pre). split; [simpl; congruence|by constructor].
    + exists []. split; [reflexivity|constructor].
Qed.

Lemma trimStart_blank (s : jsstring) : trimStart s = [] <-> blank s.
Proof.
  split.
  - intros H. destruct (trimStart_parts s) as [pre [Hs Hpre]].
    rewrite H, app_nil_r in Hs. by subst.
  - induction 1 as [|c s Hc _ IH]; simpl; [reflexivity|]. by rewrite Hc.
Qed.

Lemma blank_rev (s : jsstring) : blank (rev s) <-> blank s.
Proof.
  unfold blank. rewrite !Forall_forall. split; intros H c Hc; apply H.
  - by rewrite elem_of_rev.
  - by rewrite elem_of_rev in Hc.
Qed.

Lemma trimEnd_parts (s : jsstring) : exists post, s = trimEnd s ++ post /\ blank post.
Proof.
  unfold trimEnd. destruct (trimStart_parts (rev s)) as [pre [Hs Hpre]].
  exists (rev pre). split; [|by apply blank_rev].
  rewrite <- rev_app_distr, <- Hs. symmetry. apply rev_involutive.
Qed.

Lemma trimEnd_blank (s : jsstring) : trimEnd s = [] <-> blank s.
Proof.
  unfold trimEnd. split.
  - intros H. apply blank_rev, trimStart_blank.
    apply (f_equal (@rev Z)) in H. by rewrite rev_involutive in H.
  - intros H. apply blank_rev, trimStart_blank in H. by rewrite H.
Qed.

Lemma trim_blank (s : jsstring) : trim s = [] <-> blank s.
Proof.
  unfold trim. rewrite trimEnd_blank. split.
  - intros H. destruct (trimStart_parts s) as [pre [Hs Hpre]].
    rewrite Hs. by apply Forall_app.
  - intros H. apply trimStart_blank in H. rewrite H. constructor.
Qed.

Lemma trimEnd_trimEnd (s : jsstring) : trimEnd (trimEnd s) = trimEnd s.
Proof. unfold trimEnd. by rewrite rev_involutive, trimStart_trimStart. Qed.

Lemma blank_trimEnd (s : jsstring) : blank (trimEnd s) -> blank s.
Proof.
  intros H. destruct (trimEnd_parts s) as [post [Hs Hpost]].
  rewrite Hs. by apply Forall_app.
Qed.

Lemma blank_join (sep : jsstring) (parts : list jsstring) (part : jsstring) :
  part ∈ parts -> blank (join sep parts) -> blank part.
Proof.
  induction parts as [|p parts IH]; intros Hin Hb; [by apply elem_of_nil in Hin|].
  destruct parts as [|q parts].
  - apply list_elem_of_singleton in Hin. by subst.
  - change (join sep (p :: q :: parts)) with (p ++ sep ++ join sep (q :: parts)) in Hb.
    apply Forall_app in Hb as [Hp Hb]. apply Forall_app in Hb as [_ Hb].
    apply elem_of_cons in Hin as [->|Hin]; [exact Hp|by apply IH].
Qed.

(** ** The extraction engine: what every emitted track holds *)

Section Tracks.

Lemma splitArtists_names (value : jsstring) : Forall nameOk (splitArtists value).
Proof.
  unfold splitArtists. apply Forall_forall. intros e He.
  apply list_elem_of_In, filter_In in He as [He Ht].
  apply in_map_iff in He as [piece [<- _]]. split.
  - by apply truthy_nonempty.
  - apply trim_trim.
Qed.

Lemma applyCreditsFromLine_ok (line : jsstring) (d : Draft) :
  draftOk d -> draftOk (fst (applyCreditsFromLine line d)).
Proof.
  intros [Ht Hn]. unfold applyCreditsFromLine. cbv zeta.
  set (normalized := trim _).
  assert (H1 : draftOk
    (fst (match exec lyricistRe normalized with
          | Some m =>
            if truthy (captured m 2) then
              ({| d_title := d_title d;
                  d_lyricists := d_lyricists d ++ splitArtists (captured m 2);
                  d_composers := d_composers d;
                  d_lines := d_lines d |}, true)
            else (d, false)
          | None => (d, false)
          end))).
  { destruct (exec lyricistRe normalized) as [m|]; [|by split].
    destruct (truthy (captured m 2)); [|by split].
    split; [exact Ht|]. simpl. apply Forall_app. split; [exact Hn|apply splitArtists_names]. }
  destruct (match exec lyricistRe normalized with Some _ => _ | None => _ end) as [d1 a1].
  simpl in H1. destruct H1 as [Ht1 Hn1].
  destruct (exec composerRe normalized) as [m|]; [|by split].
  destruct (truthy (captured m 2)); by split.
Qed.

Lemma albumContext_album (m : match_result) (c : Context) :
  nameOk (c_album c) -> nameOk (c_album (albumContext m c)).
Proof.
  intros Hc. unfold albumContext; simpl.
  destruct (group m 1) as [a|]; simpl; [|exact Hc].
  destruct (truthy (trim a)) eqn:Ha; [|exact Hc].
  split; [by apply truthy_nonempty|apply trim_trim].
Qed.

Lemma withDraft_ok (st : State) (d : option Draft) (prev : bool) :
  stateOk st -> (forall x, d = Some x -> draftOk x) -> stateOk (withDraft st d prev).
Proof. intros (Htracks & Halbum & _) Hd. split; [exact Htracks|split; [exact Halbum|exact Hd]]. Qed.

Lemma flushDraft_ok (st : State) : stateOk st -> stateOk (flushDraft st).
Proof.
  intros Hst. pose proof Hst as (Htracks & Halbum & Hdraft). unfold flushDraft.
  destruct (s_draft st) as [d|] eqn:Hd; [|exact Hst].
  destruct (Hdraft d eq_refl) as [Htitle Hnames].
  destruct (truthy (d_title d)) eqn:Ht; simpl; [|by apply withDraft_ok].
  destruct (existsb _ (d_lines d)) eqn:Hl; simpl; [|by apply withDraft_ok].
  split; [|split; [exact Halbum|discriminate]]. simpl.
  apply Forall_app. split; [exact Htracks|]. constructor; [|constructor].
  unfold filled; simpl. repeat split.
  - by apply truthy_nonempty.
  - exact Htitle.
  - apply existsb_exists in Hl as [l [Hin Hlen]].
    intros Hb. apply trim_blank, blank_trimEnd in Hb.
    apply (blank_join _ _ l) in Hb; [|by apply list_elem_of_In].
    apply trim_blank in Hb. rewrite Hb in Hlen. discriminate.
  - apply trimEnd_trimEnd.
  - by exists (c_album (s_context st)).
  - destruct (d_lyricists d); [discriminate|]. by injection H as <-.
  - destruct (d_lyricists d); [discriminate|]. by injection H as <-.
Qed.

Lemma flushDraft_draft (st : State) : s_draft (flushDraft st) = None.
Proof.
  unfold flushDraft. destruct (s_draft st) as [d|] eqn:Hd; [|exact Hd].
  destruct (negb (truthy (d_title d)) || _); reflexivity.
Qed.

Lemma pushLine_ok (line : jsstring) (d : Draft) : draftOk d -> draftOk (pushLine line d).
Proof. intros [Ht Hn]. by split. Qed.

Lemma startDraft_ok (title : jsstring) : draftOk (startDraft (trim title)).
Proof. split; [apply trim_trim|constructor]. Qed.

Lemma step_ok (st : State) (line : jsstring) : stateOk st -> stateOk (step st line).
Proof.
  intros Hst. pose proof Hst as (Htracks & Halbum & Hdraft). unfold step.
  destruct (truthy (trim line)); simpl.
  2:{ apply withDraft_ok; [exact Hst|]. intros x Hx.
      destruct (s_draft st) as [d|]; [|discriminate]. injection Hx as <-.
      by apply pushLine_ok, Hdraft. }
  destruct (exec albumLineRe (trim line)) as [m|].
  { split; [exact Htracks|split; [by apply albumContext_album|exact Hdraft]]. }
  destruct (exec titleLineRe (trim line)) as [tm|].
  { apply withDraft_ok; [by apply flushDraft_ok|]. intros x [= <-].
    destruct (truthy _); [apply applyCreditsFromLine_ok|]; apply startDraft_ok. }
  destruct (s_prevWasEmpty st && looksLikeNakedTitle (trim line)).
  { apply withDraft_ok; [by apply flushDraft_ok|]. intros x [= <-]. apply startDraft_ok. }
  destruct (s_draft st) as [d|] eqn:Hd; [|by apply withDraft_ok].
  pose proof (applyCreditsFromLine_ok (trim line) d (Hdraft d eq_refl)) as Hc.
  destruct (applyCreditsFromLine (trim line) d) as [d' applied]. simpl in Hc.
  destruct (applied && isCreditOnlyLine (trim line)); apply withDraft_ok; try done.
  - by intros x [= <-].
  - intros x [= <-]. by apply pushLine_ok.
Qed.

Lemma loop_ok (lines : list jsstring) (st : State) :
  stateOk st -> stateOk (fold_left step lines st).
Proof.
  revert st. induction lines as [|line lines IH]; intros st Hst; simpl; [exact Hst|].
  by apply IH, step_ok.
Qed.

Lemma firstContext_album (lines : list jsstring) (c : Context) :
  nameOk (c_album c) -> nameOk (c_album (firstContext lines c)).
Proof.
  intros Hc. induction lines as [|line lines IH]; simpl; [exact Hc|].
  destruct (truthy (trim line)); [|exact IH].
  destruct (exec albumLineRe (trim line)) as [m|]; [|exact Hc].
  by apply albumContext_album.
Qed.

Lemma UNFILED_name : nameOk Packgen.UNFILED.
Proof. split; [vm_compute; discriminate|vm_compute; reflexivity]. Qed.

Lemma parseTextToPackage_state (text : jsstring) (options : ParseOptions) :
  exists st, stateOk st /\ s_draft st = None
    /\ Packgen.tracks (parseTextToPackage text options) = s_tracks st
    /\ Packgen.artist (parseTextToPackage text options) = c_artist (s_context st).
Proof.
  unfold parseTextToPackage. eexists. split; [|split; [|split; reflexivity]].
  - apply flushDraft_ok, loop_ok.
    split; [constructor|split; [apply firstContext_album, UNFILED_name|discriminate]].
  - apply flushDraft_draft.
Qed.

(** X1: every track the extraction engine emits has a title and an album
    that are names (not empty, trimmed), lyrics with a line that is not
    blank and with no white space at their end, and lyricists, when it has
    any, that are names. *)
Theorem extracted_tracks_filled (text : jsstring) (options : ParseOptions) :
  Forall filled (Packgen.tracks (parseTextToPackage text options)).
Proof.
  destruct (parseTextToPackage_state text options) as (st & (Htracks & _) & _ & -> & _).
  exact Htracks.
Qed.

End Tracks.

Section Handover.

Lemma hasLyrics_filled (t : PackageTrack) : filled t -> hasLyrics t = true.
Proof.
  intros (_ & Hl & _). unfold hasLyrics.
  destruct (pt_lyrics t) as [|c l] eqn:E; [by destruct Hl|]. simpl.
  destruct (trim (c :: l)); [by destruct Hl|reflexivity].
Qed.

Lemma filter_all {A} (f : A -> bool) (l : list A) :
  Forall (fun x => f x = true) l -> List.filter f l = l.
Proof. induction 1 as [|x l Hx _ IH]; simpl; [reflexivity|]. by rewrite Hx, IH. Qed.

(** X2: the filter of the import handler that drops tracks with blank
    lyrics never drops a track the extraction engine emitted. *)
Theorem extracted_tracks_pass_lyrics_filter (text : jsstring) (options : ParseOptions) :
  List.filter hasLyrics (Packgen.tracks (parseTextToPackage text options))
  = Packgen.tracks (parseTextToPackage text options).
Proof.
  destruct (parseTextToPackage_state text options) as (st & (Htracks & _) & _ & -> & _).
  apply filter_all. eapply Forall_impl; [exact Htracks|].
  apply hasLyrics_filled.
Qed.

Lemma zItems_strings (path : list pathItem) (i : nat) (l : list jsstring) :
  zItems zString path i (List.map VString l) = ZOk l.
Proof.
  revert i. induction l as [|s l IH]; intros i; simpl; [reflexivity|].
  by rewrite IH.
Qed.

Lemma TrackInputSchema_filled (path : list pathItem) (t : PackageTrack) :
  filled t -> TrackInputSchema path (trackValue t) = ZOk (inputOf t).
Proof.
  intros ([Htitle _] & Hlyrics & _).
  assert (Hl : pt_lyrics t <> []) by (intros E; apply Hlyrics; by rewrite E).
  unfold TrackInputSchema, trackValue, field, getProp.
  change (lookupProp _ (js "id")) with VUndefined.
  change (lookupProp _ (js "title")) with (VString (pt_title t)).
  change (lookupProp _ (js "album")) with (optionalValue VString (pt_album t)).
  change (lookupProp _ (js "year")) with (optionalValue VString (pt_year t)).
  change (lookupProp _ (js "lyricists"))
    with (optionalValue (fun l => VArray (List.map VString l)) (pt_lyricists t)).
  change (lookupProp _ (js "lyrics")) with (VString (pt_lyrics t)).
  rewrite !zMin1_nonempty by assumption.
  unfold inputOf.
  destruct (pt_album t), (pt_year t), (pt_lyricists t);
    cbn [optionalValue zOptional zUnion zString zArray fmap option_fmap option_map];
    rewrite ?zItems_strings; reflexivity.
Qed.

Lemma zItems_filled (path : list pathItem) (i : nat) (ts : list PackageTrack) :
  Forall filled ts ->
  zItems TrackInputSchema path i (List.map trackValue ts) = ZOk (List.map inputOf ts).
Proof.
  intros H. revert i. induction H as [|t ts Ht _ IH]; intros i; [reflexivity|].
  cbn [List.map zItems]. by rewrite TrackInputSchema_filled, IH.
Qed.

Lemma LyricsPackageSchema_filled (p : PackageResult) :
  Packgen.artist p <> [] -> Packgen.tracks p <> [] -> Forall filled (Packgen.tracks p) ->
  LyricsPackageSchema [] (packageValue p)
  = ZOk {| lp_schema_version := inr (Int (Packgen.schema_version p));
           lp_artist := Packgen.artist p;
           lp_tracks := List.map inputOf (Packgen.tracks p) |}.
Proof.
  intros Ha Ht Hf.
  unfold LyricsPackageSchema, packageValue, field, getProp.
  change (lookupProp _ (js "schema_version"))
    with (VNumber (Int (Packgen.schema_version p))).
  change (lookupProp _ (js "artist")) with (VString (Packgen.artist p)).
  change (lookupProp _ (js "tracks")) with (VArray (List.map trackValue (Packgen.tracks p))).
  unfold artistSchema. rewrite zMin1_nonempty by assumption.
  unfold tracksSchema, zMin1, zArray. rewrite zItems_filled by assumption.
  rewrite length_map. destruct (Packgen.tracks p); [congruence|]. reflexivity.
Qed.

Lemma trailingArtist_name (line a : jsstring) : trailingArtist line = Some a -> nameOk a.
Proof.
  unfold trailingArtist. destruct (exec albumLineRe (trim line)) as [m|]; [|discriminate].
  destruct (group m 3) as [b|]; [|discriminate]. simpl.
  destruct (truthy (trim b)) eqn:Hb; [|discriminate].
  intros [= <-]. split; [by apply truthy_nonempty|apply trim_trim].
Qed.

Lemma lastArtist_name (lines : list jsstring) (a : jsstring) :
  nameOk a -> nameOk (lastArtist lines a).
Proof.
  unfold lastArtist. revert a. induction lines as [|line lines IH]; intros a Ha; simpl.
  - exact Ha.
  - apply IH. destruct (trailingArtist line) as [b|] eqn:Hb; simpl; [|exact Ha].
    by apply trailingArtist_name in Hb.
Qed.

Lemma UNKNOWN_ARTIST_name : nameOk UNKNOWN_ARTIST.
Proof. split; [vm_compute; discriminate|vm_compute; reflexivity]. Qed.

Lemma firstByKey_first (artist : jsstring) (t : PackageTrack) (tracks : list PackageTrack) :
  firstByKey artist ∅ (t :: tracks)
  = t :: firstByKey artist ({[trackKey artist t]} ∪ ∅) tracks.
Proof. reflexivity. Qed.

Lemma firstByKey_filled (artist : jsstring) (seen : gset jsstring)
    (tracks : list PackageTrack) :
  Forall filled tracks -> Forall filled (firstByKey artist seen tracks).
Proof.
  intros H. apply Forall_forall. intros t Ht. apply firstByKey_elem in Ht.
  by apply (proj1 (Forall_forall _ _) H).
Qed.

Lemma normalizeTrack_filled (artist : jsstring) (t : PackageTrack) :
  filled t ->
  title (normalizeTrack artist (inputOf t)) = pt_title t
  /\ lyrics (normalizeTrack artist (inputOf t)) <> []
  /\ Schema.artist (normalizeTrack artist (inputOf t)) = artist.
Proof.
  intros ([_ Htitle] & Hlyrics & _). unfold normalizeTrack.
  destruct (normalizeYear _) as [y yt]. simpl. by repeat split.
Qed.

(** X3: a text that goes through the extraction engine and the TXT branch
    of the import handler is never rejected by the validator.  Nothing is
    imported exactly when the engine found no track; otherwise the validator
    returns schema version [1], the artist of the engine, and one canonical
    track for each extracted track that is the first with its key, each with
    the title of the extracted track and with lyrics that are not empty. *)
Theorem importText_accepted (text : jsstring) :
  let parsed := parseTextToPackage text noOptions in
  let kept := firstByKey (Packgen.artist parsed) ∅ (Packgen.tracks parsed) in
  match importText text with
  | None => Packgen.tracks parsed = []
  | Some (Throws _) => False
  | Some (Returns pkg) =>
    Packgen.tracks parsed <> []
    /\ schemaVersion pkg = js "1"
    /\ np_artist pkg = Packgen.artist parsed
    /\ List.map title (Schema.tracks pkg) = List.map pt_title kept
    /\ Forall (fun t => lyrics t <> [] /\ Schema.artist t = Packgen.artist parsed)
         (Schema.tracks pkg)
  end.
Proof.
  intros parsed. cbv zeta. unfold importText. fold parsed.
  assert (Hfilled : Forall filled (Packgen.tracks parsed)).
  { unfold parsed.
    destruct (parseTextToPackage_state text noOptions) as (st & (Htracks & _) & _ & -> & _).
    exact Htracks. }
  rewrite (filter_all hasLyrics (Packgen.tracks parsed))
    by (eapply Forall_impl; [exact Hfilled|apply hasLyrics_filled]).
  remember (firstByKey (Packgen.artist parsed) ∅ (Packgen.tracks parsed)) as kept eqn:Ek.
  assert (Hartist : nameOk (Packgen.artist parsed)).
  { unfold parsed. rewrite parseTextToPackage_artist.
    apply lastArtist_name, UNKNOWN_ARTIST_name. }
  assert (Hkept : Forall filled kept) by (subst kept; by apply firstByKey_filled).
  destruct kept as [|k kept'].
  - destruct (Packgen.tracks parsed) as [|t ts] eqn:Et; [reflexivity|].
    rewrite firstByKey_first in Ek. discriminate.
  - unfold normalizeLyricsPackage.
    rewrite LyricsPackageSchema_filled; [|apply Hartist|discriminate|exact Hkept].
    cbn [lp_artist lp_tracks lp_schema_version Packgen.tracks Packgen.artist
         Packgen.schema_version schemaVersion np_artist Schema.tracks].
    destruct Hartist as [_ ->]. repeat split.
    + intros E. rewrite E in Ek. discriminate.
    + rewrite !map_map. apply map_ext_in. intros t Ht.
      apply normalizeTrack_filled.
      apply (proj1 (Forall_forall _ _) Hkept). by apply list_elem_of_In.
    + rewrite !Forall_map. eapply Forall_impl; [exact Hkept|].
      intros t Ht. simpl.
      destruct (normalizeTrack_filled (Packgen.artist parsed) t Ht) as (_ & H1 & H2).
      by split.
Qed.

(** ** The import handler: one track for each key *)

Lemma firstByKey_fresh (artist : jsstring) (seen : gset jsstring)
    (tracks : list PackageTrack) (t : PackageTrack) :
  t ∈ firstByKey artist seen tracks -> trackKey artist t ∉ seen.
Proof.
  revert seen. induction tracks as [|h tracks IH]; intros seen Ht; simpl in Ht.
  - by apply elem_of_nil in Ht.
  - destruct (bool_decide (trackKey artist h ∈ seen)) eqn:Hh.
    + by apply IH.
    + apply bool_decide_eq_false in Hh.
      apply elem_of_cons in Ht as [->|Ht]; [exact Hh|].
      apply IH in Ht. set_solver.
Qed.

Lemma firstByKey_NoDup (artist : jsstring) (seen : gset jsstring)
    (tracks : list PackageTrack) :
  NoDup (List.map (trackKey artist) (firstByKey artist seen tracks)).
Proof.
  revert seen. induction tracks as [|h tracks IH]; intros seen; simpl; [constructor|].
  destruct (bool_decide (trackKey artist h ∈ seen)); [apply IH|].
  simpl. constructor; [|apply IH].
  intros Hin. apply list_elem_of_In, in_map_iff in Hin as [u [Hk Hu]].
  apply list_elem_of_In, firstByKey_fresh in Hu. set_solver.
Qed.

Lemma firstByKey_sublist (artist : jsstring) (seen : gset jsstring)
    (tracks : list PackageTrack) :
  sublist (firstByKey artist seen tracks) tracks.
Proof.
  revert seen. induction tracks as [|h tracks IH]; intros seen; simpl; [constructor|].
  destruct (bool_decide (trackKey artist h ∈ seen)).
  - by apply sublist_cons.
  - by apply sublist_skip.
Qed.

Lemma firstByKey_keeps_first (artist : jsstring) (seen : gset jsstring)
    (tracks : list PackageTrack) (t : PackageTrack) :
  t ∈ tracks -> trackKey artist t ∉ seen ->
  exists u before after,
    tracks = before ++ u :: after
    /\ trackKey artist u = trackKey artist t
    /\ Forall (fun v => trackKey artist v <> trackKey artist t) before
    /\ u ∈ firstByKey artist seen tracks.
Proof.
  revert seen. induction tracks as [|h tracks IH]; intros seen Ht Hk.
  - by apply elem_of_nil in Ht.
  - destruct (decide (trackKey artist h = trackKey artist t)) as [E|N].
    + exists h, [], tracks. repeat split; [exact E|constructor|].
      simpl. rewrite bool_decide_eq_false_2 by (by rewrite E). apply list_elem_of_here.
    + apply elem_of_cons in Ht as [->|Ht]; [congruence|].
      simpl. destruct (bool_decide (trackKey artist h ∈ seen)).
      * destruct (IH seen Ht Hk) as (u & before & after & -> & Hu & Hb & Hin).
        exists u, (h :: before), after. repeat split; try done. by constructor.
      * destruct (IH ({[trackKey artist h]} ∪ seen) Ht) as (u & before & after & -> & Hu & Hb & Hin).
        { intros [Hx|Hx]%elem_of_union; [|done].
          apply elem_of_singleton in Hx. congruence. }
        exists u, (h :: before), after. repeat split; try done.
        -- by constructor.
        -- by apply list_elem_of_further.
Qed.

(** X4: of the tracks of one package the import handler keeps, in their
    order, those that are the first with their artist-title-year key: no two
    tracks it keeps have the same key, and for every track it was given it
    keeps the first track with the key of that track. *)
Theorem firstByKey_keeps_one_per_key (artist : jsstring) (tracks : list PackageTrack) :
  let kept := firstByKey artist ∅ tracks in
  sublist kept tracks
  /\ NoDup (List.map (trackKey artist) kept)
  /\ Forall
       (fun t =>
          exists u before after,
            tracks = before ++ u :: after
            /\ trackKey artist u = trackKey artist t
            /\ Forall (fun v => trackKey artist v <> trackKey artist t) before
            /\ u ∈ kept)
       tracks.
Proof.
  intros kept. split; [apply firstByKey_sublist|]. split; [apply firstByKey_NoDup|].
  apply Forall_forall. intros t Ht. apply firstByKey_keeps_first; [exact Ht|set_solver].
Qed.

End Handover.

Section Lines.

Lemma split_on_pieces (sep : Z) (s : jsstring) :
  Forall (fun piece => (sep ∉ piece) /\ forall c, c ∈ piece -> c ∈ s) (split_on sep s).
Proof.
  induction s as [|c s IH]; simpl.
  - constructor; [|constructor]. split; [apply not_elem_of_nil|]. intros c Hc. exact Hc.
  - destruct (split_on sep s) as [|cur rest].
    { constructor; [|constructor]. split; [apply not_elem_of_nil|].
      intros x Hx. by apply elem_of_nil in Hx. }
    apply Forall_cons in IH as [[Hcur Hsub] Hrest].
    assert (Hrest' : Forall (fun piece => (sep ∉ piece) /\ forall x, x ∈ piece -> x ∈ c :: s) rest).
    { eapply Forall_impl; [exact Hrest|]. intros piece [H1 H2]. split; [exact H1|].
      intros x Hx. by apply list_elem_of_further, H2. }
    destruct (c =? sep) eqn:E.
    + constructor; [split; [apply not_elem_of_nil|intros x Hx; by apply elem_of_nil in Hx]|].
      constructor; [|exact Hrest'].
      split; [exact Hcur|]. intros x Hx. by apply list_elem_of_further, Hsub.
    + apply Z.eqb_neq in E. constructor; [|exact Hrest'].
      split.
      * intros [->|H]%elem_of_cons; [congruence|done].
      * intros x [->|Hx]%elem_of_cons; [apply list_elem_of_here|].
        by apply list_elem_of_further, Hsub.
Qed.

(** X5: the lines the extraction engine scans are trimmed and hold no line
    feed, no carriage return and no no-break space, whatever the text holds
    (also when a numeric entity such as [&#13;] decodes to one of them). *)
Theorem scanned_lines_clean (text : jsstring) :
  Forall (fun line =>
            trim line = line /\ (LF ∉ line) /\ (CR ∉ line) /\ (NBSP ∉ line))
    (linesOf text).
Proof.
  unfold linesOf. rewrite Forall_map.
  destruct (normalizeText_clean text) as [Hcr Hnbsp].
  eapply Forall_impl; [apply split_on_pieces|].
  intros piece [Hlf Hsub]. simpl. split; [apply trim_trim|].
  repeat split; intros H; apply trim_elem in H; [done| |]; by apply Hsub in H.
Qed.

(** ** Texts without a title *)

Lemma flushDraft_idle (st : State) : idle st -> flushDraft st = st.
Proof. intros [_ Hd]. unfold flushDraft. by rewrite Hd. Qed.

Lemma step_idle (st : State) (line : jsstring) :
  test titleLineRe (trim line) = false ->
  looksLikeNakedTitle (trim line) = false ->
  idle st -> idle (step st line).
Proof.
  intros Htitle Hnaked [Ht Hd]. unfold step.
  destruct (truthy (trim line)); simpl.
  2:{ by rewrite Hd. }
  destruct (exec albumLineRe (trim line)) as [m|]; [done|].
  unfold test in Htitle.
  destruct (exec titleLineRe (trim line)) as [tm|]; [discriminate|].
  rewrite Hnaked, andb_false_r, Hd. done.
Qed.

Lemma loop_idle (lines : list jsstring) (st : State) :
  Forall (fun line => test titleLineRe (trim line) = false
                      /\ looksLikeNakedTitle (trim line) = false) lines ->
  idle st -> idle (fold_left step lines st).
Proof.
  intros H. revert st. induction H as [|line lines [H1 H2] _ IH]; intros st Hst; simpl.
  - exact Hst.
  - by apply IH, step_idle.
Qed.

(** X6: a text none of whose lines is a bracketed title line or looks like a
    bare title gives no track, whatever else it holds: lines that come
    before any title belong to no track. *)
Theorem no_title_no_track (text : jsstring) (options : ParseOptions) :
  forallb (fun line => negb (test titleLineRe line) && negb (looksLikeNakedTitle line))
    (linesOf text) = true ->
  Packgen.tracks (parseTextToPackage text options) = [].
Proof.
  intros H. unfold parseTextToPackage. cbn [Packgen.tracks].
  match goal with |- s_tracks (flushDraft ?st) = _ => assert (Hidle : idle st) end.
  2:{ rewrite flushDraft_idle by exact Hidle. exact (proj1 Hidle). }
  apply loop_idle; [|by split].
  apply Forall_forall. intros line Hline.
  assert (Htrimmed : trim line = line).
  { unfold linesOf in Hline. apply list_elem_of_In, in_map_iff in Hline as (piece & <- & _).
    apply trim_trim. }
  rewrite Htrimmed.
  apply list_elem_of_In in Hline.
  apply (proj1 (forallb_forall _ _) H) in Hline.
  apply andb_true_iff in Hline as [H1 H2].
  by rewrite negb_true_iff in H1, H2.
Qed.

Lemma no_title_no_track_witness :
  Packgen.tracks
    (parseTextToPackage (js "第一行歌词，" ++ [LF] ++ js "作词：林夕" ++ [LF; LF] ++ js "第二行歌词。")
       noOptions) = [].
Proof. apply no_title_no_track. vm_compute. reflexivity. Defined.

(** ** The artist of a package, with a default artist *)

Lemma startingArtist_name (options : ParseOptions) : nameOk (startingArtist options).
Proof.
  unfold startingArtist. destruct (defaultArtist options) as [a|]; simpl.
  - destruct (trim a) as [|c b] eqn:E; [apply UNKNOWN_ARTIST_name|].
    split; [discriminate|]. rewrite <- E. apply trim_trim.
  - apply UNKNOWN_ARTIST_name.
Qed.

(** X7: whatever default artist the caller gives, the artist of the package
    is the last artist name an album-context line carries, or else the
    default artist trimmed, or else, the default being absent or blank, the
    sentinel; it is never empty and has no white space at its ends. *)
Theorem extracted_artist_with_default (text : jsstring) (options : ParseOptions) :
  Packgen.artist (parseTextToPackage text options)
  = lastArtist (linesOf text) (startingArtist options)
  /\ nameOk (Packgen.artist (parseTextToPackage text options)).
Proof.
  assert (H : Packgen.artist (parseTextToPackage text options)
              = lastArtist (linesOf text) (startingArtist options)).
  { unfold parseTextToPackage. cbn [Packgen.artist].
    rewrite flushDraft_context, loop_artist. cbn [s_context].
    rewrite firstContext_artist. cbn [c_artist]. f_equal.
    unfold startingArtist. destruct (defaultArtist options) as [a|]; simpl; [|reflexivity].
    by destruct (trim a). }
  split; [exact H|]. rewrite H. apply lastArtist_name, startingArtist_name.
Qed.

End Lines.

(** ** Replacing the runs of a character class *)

Section Runs.

Variable p : Z -> bool.
Variable w : jsstring.

Lemma collapse_after_run (s : jsstring) :
  runLength p s = O -> collapse p w true s = collapse p w false s.
Proof. destruct s as [|c t]; simpl; [reflexivity|]. by destruct (p c). Qed.

Lemma replaceFrom_collapse (s : jsstring) (pos skip : nat) :
  skip = O \/ runLength p s = skip ->
  replaceFrom (plus (Chr p)) (constant w) pos skip s
  = collapse p w (negb (Nat.eqb skip 0)) s.
Proof.
  revert pos skip. induction s as [|c t IH]; intros pos skip Hskip.
  - destruct skip; cbn [replaceFrom]; [|reflexivity].
    rewrite matchAt_plus_class. reflexivity.
  - destruct skip as [|k].
    + rewrite replaceFrom_cons, matchAt_plus_class. simpl.
      destruct (p c) eqn:Hc.
      * cbn [m_pos]. replace (pos + S (runLength p t) - pos)%nat with (S (runLength p t)) by lia.
        unfold constant at 1. f_equal.
        rewrite IH by (by right).
        destruct (runLength p t) eqn:E; simpl; [|reflexivity].
        symmetry. by apply collapse_after_run.
      * f_equal. by rewrite IH by (by left).
    + destruct Hskip as [|Hrun]; [discriminate|]. simpl in Hrun.
      destruct (p c) eqn:Hc; [|discriminate]. injection Hrun as Hrun.
      simpl. rewrite Hc, IH by (by right). simpl.
      destruct k; simpl; [|reflexivity].
      symmetry. by apply collapse_after_run.
Qed.

Lemma replaceAll_collapse (s : jsstring) :
  replaceAll (plus (Chr p)) (constant w) s = collapse p w false s.
Proof. unfold replaceAll. by rewrite replaceFrom_collapse by (by left). Qed.

Lemma collapse_chars (P : Z -> Prop) (inRun : bool) (s : jsstring) :
  Forall P w -> (forall c, c ∈ s -> p c = false -> P c) ->
  Forall P (collapse p w inRun s).
Proof.
  intros Hw. revert inRun. induction s as [|c t IH]; intros inRun Hs; simpl; [constructor|].
  assert (Ht : forall x, x ∈ t -> p x = false -> P x).
  { intros x Hx. apply Hs. by apply list_elem_of_further. }
  destruct (p c) eqn:Hc.
  - apply Forall_app. split; [by destruct inRun|by apply IH].
  - constructor; [apply Hs; [apply list_elem_of_here|exact Hc]|by apply IH].
Qed.

End Runs.

Lemma collapse_filter (p : Z -> bool) (inRun : bool) (s : jsstring) :
  collapse p [] inRun s = List.filter (fun c => negb (p c)) s.
Proof.
  revert inRun. induction s as [|c t IH]; intros inRun; simpl; [reflexivity|].
  destruct (p c); simpl; rewrite IH; [by destruct inRun|reflexivity].
Qed.

(** ** A bounded run of a character class up to the end of the text *)

Section Bounded.

Variable p : Z -> bool.

Lemma orElse_None {A} (a : option A) : orElse a None = a.
Proof. by destruct a. Qed.

Lemma repeatMatch_bounded (s : jsstring) :
  forall (pos fuel min max : nat) (caps : gmap nat jsstring),
    (min <= max)%nat -> (min + length s < fuel)%nat ->
    repeatMatch (run (Chr p)) [] true (fun y => run (seq [Eol]) y Some) fuel min (Some max)
      (MState pos s caps)
    = if (min <=? length s)%nat && (length s <=? max)%nat && forallb p s
      then Some (MState (pos + length s) [] caps) else None.
Proof.
  induction s as [|c t IH]; intros pos fuel min max caps Hmm Hfuel;
    (destruct fuel as [|fuel]; [lia|]).
  - cbn [repeatMatch]. destruct max as [|m].
    + assert (min = O) as -> by lia. simpl. by rewrite Nat.add_0_r.
    + destruct min as [|n]; simpl; [by rewrite Nat.add_0_r|reflexivity].
  - cbn [repeatMatch]. destruct max as [|m].
    + simpl. by rewrite andb_false_r.
    + cbn [length forallb].
      assert (Hne : (S pos =? pos)%nat = false) by (apply Nat.eqb_neq; lia).
      destruct min as [|n]; rewrite run_class;
        cbn [clearGroups m_rest m_pos m_caps foldr Nat.pred fmap option_fmap option_map].
      * destruct (p c); [|simpl; by rewrite andb_false_r].
        rewrite Hne. cbn [andb Nat.eqb].
        rewrite IH by (simpl in *; lia).
        replace (S pos + length t)%nat with (pos + S (length t))%nat by lia.
        simpl. by destruct (_ && _).
      * destruct (p c); [|simpl; by rewrite andb_false_r].
        cbn [andb Nat.eqb]. rewrite IH by (simpl in *; lia).
        replace (S pos + length t)%nat with (pos + S (length t))%nat by lia.
        reflexivity.
Qed.

End Bounded.

(** ** Bare titles *)

Section BareTitles.

Lemma execFrom_anchored (r : regex) (s : jsstring) (pos : nat) :
  execFrom (Seq Bol r) (S pos) s = None.
Proof.
  revert pos. induction s as [|c t IH]; intros pos; simpl; [reflexivity|]. apply IH.
Qed.

Lemma test_anchored (r : regex) (s : jsstring) :
  test (Seq Bol r) s = match matchAt (Seq Bol r) O s with Some _ => true | None => false end.
Proof.
  unfold test, exec. destruct s as [|c t]; cbn [execFrom].
  - by destruct (matchAt (Seq Bol r) 0 []).
  - destruct (matchAt (Seq Bol r) 0 (c :: t)); [reflexivity|].
    by rewrite execFrom_anchored.
Qed.

Lemma matchAt_nakedTitleRe (line : jsstring) :
  matchAt nakedTitleRe O line
  = repeatMatch (run (Chr titleChar)) [] true (fun y => run (seq [Eol]) y Some)
      (S (2 + length line)) 2 (Some 12%nat) (MState O line ∅).
Proof. reflexivity. Qed.

Lemma test_nakedTitleRe (line : jsstring) :
  test nakedTitleRe line
  = (2 <=? length line)%nat && (length line <=? 12)%nat && forallb titleChar line.
Proof.
  unfold nakedTitleRe. cbn [seq foldr]. rewrite test_anchored.
  change (matchAt (Seq Bol _) 0 line) with (matchAt nakedTitleRe 0 line).
  rewrite matchAt_nakedTitleRe, repeatMatch_bounded by lia.
  by destruct (_ && _).
Qed.

Lemma includes_char (s : jsstring) (c : Z) : includes s [c] = true <-> c ∈ s.
Proof.
  induction s as [|x s IH]; simpl.
  - split; [discriminate|by intros H%elem_of_nil].
  - rewrite andb_true_r, orb_true_iff, IH, Z.eqb_eq, elem_of_cons. tauto.
Qed.

Lemma forallb_elem (f : Z -> bool) (s : jsstring) (c : Z) :
  c ∈ s -> f c = false -> forallb f s = false.
Proof.
  intros Hc Hf. destruct (forallb f s) eqn:E; [|reflexivity].
  rewrite forallb_forall in E. rewrite <- Hf. symmetry. apply E. by apply list_elem_of_In.
Qed.

Lemma length_filter_le {A} (f : A -> bool) (l : list A) :
  (length (List.filter f l) <= length l)%nat.
Proof. induction l as [|x l IH]; simpl; [lia|]. destruct (f x); simpl; lia. Qed.

(** X8: a line looks like a bare title exactly when it has at most twelve
    code units, all of them title characters (CJK ideographs, ASCII letters
    and digits, white space, middle dots), and at least two of them are not
    white space.  The test for a colon in the code never decides: no colon
    is a title character. *)
Theorem looksLikeNakedTitle_cases (line : jsstring) :
  looksLikeNakedTitle line
  = (2 <=? length (List.filter (fun c => negb (isWhiteSpace c)) line))%nat
    && (length line <=? 12)%nat
    && forallb titleChar line.
Proof.
  unfold looksLikeNakedTitle, spaces.
  change (constant []) with (constant ([] : jsstring)).
  rewrite replaceAll_collapse, collapse_filter. fold isWhiteSpace.
  change (fun c : Z => negb (space c)) with (fun c : Z => negb (isWhiteSpace c)).
  pose proof (length_filter_le (fun c => negb (isWhiteSpace c)) line) as Hle.
  set (compact := List.filter _ line) in *.
  destruct (length compact <? 2)%nat eqn:H2.
  { apply Nat.ltb_lt in H2. rewrite (proj2 (Nat.leb_gt _ _)) by lia. reflexivity. }
  apply Nat.ltb_ge in H2. rewrite (proj2 (Nat.leb_le 2 _)) by lia.
  destruct (12 <? length compact)%nat eqn:H12.
  { apply Nat.ltb_lt in H12. rewrite (proj2 (Nat.leb_gt _ _)) by lia. reflexivity. }
  cbn [orb andb].
  destruct (includes line (js ":")) eqn:Hc1.
  { apply includes_char in Hc1. rewrite (forallb_elem _ _ _ Hc1) by reflexivity.
    by rewrite andb_false_r. }
  destruct (includes line (js "：")) eqn:Hc2.
  { apply includes_char in Hc2. rewrite (forallb_elem _ _ _ Hc2) by reflexivity.
    by rewrite andb_false_r. }
  cbn [orb]. rewrite test_nakedTitleRe.
  rewrite (proj2 (Nat.leb_le 2 (length line))) by lia. reflexivity.
Qed.

End BareTitles.

(** ** Generated identifiers *)

Section Identifiers.

Lemma digitChar_base36 (d : Z) : 0 <= d < 36 -> base36Digit (digitChar d).
Proof. intros H. unfold digitChar, base36Digit. destruct (d <? 10) eqn:E; lia. Qed.

Lemma digitsFrom_base36 (fuel : nat) (n : Z) (acc : jsstring) :
  Forall base36Digit acc -> Forall base36Digit (digitsFrom fuel 36 n acc).
Proof.
  revert n acc. induction fuel as [|fuel IH]; intros n acc Hacc; simpl; [exact Hacc|].
  assert (Hd : base36Digit (digitChar (n mod 36))).
  { apply digitChar_base36. apply Z.mod_pos_bound. lia. }
  destruct (n <? 36); [by constructor|]. apply IH. by constructor.
Qed.

Lemma digitsFrom_grows (fuel : nat) (radix n : Z) (acc : jsstring) :
  (length acc <= length (digitsFrom fuel radix n acc))%nat.
Proof.
  revert n acc. induction fuel as [|fuel IH]; intros n acc; simpl; [lia|].
  destruct (n <? radix); simpl; [lia|].
  etransitivity; [|apply IH]. simpl. lia.
Qed.

Lemma digitsFrom_length (fuel : nat) (n : Z) (acc : jsstring) (k : nat) :
  (1 <= k)%nat -> 0 <= n < 36 ^ Z.of_nat k ->
  (length (digitsFrom fuel 36 n acc) <= k + length acc)%nat.
Proof.
  revert n acc k. induction fuel as [|fuel IH]; intros n acc k Hk Hn; simpl; [lia|].
  destruct (n <? 36) eqn:E; simpl; [lia|].
  apply Z.ltb_ge in E.
  destruct k as [|[|k]]; [lia| |].
  - change (36 ^ Z.of_nat 1) with 36 in Hn. lia.
  - etransitivity; [apply (IH _ _ (S k))|simpl; lia]; [lia|].
    split; [apply Z.div_pos; lia|].
    apply Z.div_lt_upper_bound; [lia|].
    replace (Z.of_nat (S (S k))) with (1 + Z.of_nat (S k)) in Hn by lia.
    rewrite Z.pow_add_r in Hn by lia. lia.
Qed.

Lemma hash_range (value : jsstring) : 0 <= fold_left hashStep value 0 < 2 ^ 32.
Proof.
  induction value as [|c value _] using rev_ind; [simpl; lia|].
  rewrite fold_left_app. simpl. unfold hashStep at 1. apply Z.mod_pos_bound. lia.
Qed.

Lemma hashString_digits (value : jsstring) :
  (1 <= length (hashString value) <= 7)%nat /\ Forall base36Digit (hashString value).
Proof.
  unfold hashString, natToString. pose proof (hash_range value) as Hr.
  set (n := fold_left hashStep value 0) in *. split; [split|].
  - simpl. destruct (n <? 36); [simpl; lia|].
    etransitivity; [|apply digitsFrom_grows]. simpl. lia.
  - etransitivity; [apply (digitsFrom_length _ _ _ 7); [lia|]|simpl; lia].
    change (36 ^ Z.of_nat 7) with 78364164096. lia.
  - apply digitsFrom_base36. constructor.
Qed.

Lemma base36Digit_solid (c : Z) : base36Digit c -> isWhiteSpace c = false.
Proof.
  unfold base36Digit, isWhiteSpace. intros H.
  repeat (apply orb_false_intro); try (apply Z.eqb_neq; lia).
  apply andb_false_iff. left. apply Z.leb_gt. lia.
Qed.

Lemma idBase_solid (artist title album yearText : jsstring) :
  Forall (fun c => isWhiteSpace c = false) (idBase artist title album yearText).
Proof.
  unfold idBase. change (fun _ : match_result => dash) with (constant dash).
  rewrite replaceAll_collapse. apply collapse_chars.
  - by repeat constructor.
  - by intros c _ Hc.
Qed.

(** X9: a generated identifier is the base (artist, title, album and year
    text joined by dashes, every run of white space turned into one dash),
    a dash, and the hash of the base, which is one to seven digits of base
    36; the identifier holds no white space at all. *)
Theorem generated_id_shape (artist title album yearText : jsstring) :
  let base := idBase artist title album yearText in
  makeId artist title album yearText = base ++ dash ++ hashString base
  /\ (1 <= length (hashString base) <= 7)%nat
  /\ Forall base36Digit (hashString base)
  /\ Forall (fun c => isWhiteSpace c = false) (makeId artist title album yearText).
Proof.
  intros base. destruct (hashString_digits base) as [Hlen Hdigits].
  repeat split; try done; try apply Hlen.
  unfold makeId. fold base. apply Forall_app. split; [apply idBase_solid|].
  apply Forall_app. split; [by repeat constructor|].
  eapply Forall_impl; [exact Hdigits|]. apply base36Digit_solid.
Qed.

End Identifiers.

Section Acceptance.

Lemma zOptional_string (path : list pathItem) (v : value) (o : option jsstring) :
  zOptional zString path v = ZOk o ->
  match o with Some s => v = VString s | None => v = VUndefined end.
Proof.
  unfold zOptional, zString. destruct v; try discriminate; by intros [= <-].
Qed.

Lemma TrackInputSchema_fields (path : list pathItem) (v : value) (t : TrackInput) :
  TrackInputSchema path v = ZOk t ->
  getProp v (js "title") = VString (ti_title t) /\ ti_title t <> []
  /\ getProp v (js "lyrics") = VString (ti_lyrics t) /\ ti_lyrics t <> []
  /\ match ti_id t with
     | Some s => getProp v (js "id") = VString s
     | None => getProp v (js "id") = VUndefined
     end.
Proof.
  intros H. pose proof (TrackInputSchema_lyrics path v t H) as [Hl1 Hl2].
  revert H. unfold TrackInputSchema. destruct v; try discriminate.
  destruct (field (zOptional zString) path _ (js "id")) eqn:Hi; [|discriminate].
  destruct (field (zMin1 (js "title is required") zString) path _ (js "title")) eqn:Ht;
    [|discriminate].
  destruct (field (zOptional zString) path _ (js "album")); [|discriminate].
  destruct (field (zOptional (zUnion zString zNumber)) path _ (js "year")); [|discriminate].
  destruct (field (zOptional (zUnion zString (zArray zString))) path _ (js "lyricists"));
    [|discriminate].
  destruct (field (zMin1 (js "lyrics is required") zString) path _ (js "lyrics"));
    [|discriminate].
  intros [= <-]. cbn [ti_title ti_id ti_lyrics] in *.
  apply zMin1_string_ok in Ht as [Ht1 Ht2]. apply zOptional_string in Hi.
  repeat split; assumption.
Qed.

Lemma LyricsPackageSchema_fields (input : value) (parsed : LyricsPackage) :
  LyricsPackageSchema [] input = ZOk parsed ->
  getProp input (js "artist") = VString (lp_artist parsed) /\ lp_artist parsed <> []
  /\ lp_tracks parsed <> []
  /\ match lp_schema_version parsed with
     | inl s => getProp input (js "schema_version") = VString s
     | inr n => getProp input (js "schema_version") = VNumber n
     end.
Proof.
  unfold LyricsPackageSchema. destruct input; try discriminate.
  destruct (field schemaVersionSchema [] _ (js "schema_version")) as [sv|] eqn:Hv;
    [|discriminate].
  destruct (field artistSchema [] _ (js "artist")) as [a|] eqn:Ha; [|discriminate].
  destruct (field tracksSchema [] _ (js "tracks")) as [ts|] eqn:Ht; [|discriminate].
  intros [= <-]. cbn [lp_artist lp_tracks lp_schema_version].
  apply zMin1_string_ok in Ha as [Ha1 Ha2].
  repeat split; try assumption.
  - unfold field, tracksSchema, zMin1 in Ht.
    destruct (zArray TrackInputSchema _ _) as [l|]; [|discriminate].
    destruct l; [discriminate|]. injection Ht as <-. discriminate.
  - unfold field, schemaVersionSchema, zUnion, zString, zNumber in Hv.
    destruct (getProp (VObject props) (js "schema_version")) as [| | |n|s| |];
      try discriminate.
    + destruct n; try discriminate; by injection Hv as <-.
    + by injection Hv as <-.
Qed.

(** X10: what a returned package says about the input.  The input holds a
    non-empty artist string and a non-empty array of tracks; the package
    has the artist trimmed, the schema version as text, and one canonical
    track for each raw track, in the same order, with the artist of the
    package, the title and the lyrics of the raw track trimmed (each was a
    non-empty string), and the identifier of the raw track if it has one. *)
Theorem returned_package_reflects_input (input : value) (pkg : NormalizedPackage) :
  normalizeLyricsPackage input = Returns pkg ->
  exists a items,
    getProp input (js "artist") = VString a /\ a <> [] /\ np_artist pkg = trim a
    /\ match getProp input (js "schema_version") with
       | VString s => schemaVersion pkg = s
       | VNumber n => schemaVersion pkg = numberToString n
       | _ => False
       end
    /\ getProp input (js "tracks") = VArray items /\ items <> []
    /\ Forall2
         (fun item t =>
            Schema.artist t = np_artist pkg
            /\ (exists s, getProp item (js "title") = VString s /\ s <> []
                          /\ title t = trim s)
            /\ (exists s, getProp item (js "lyrics") = VString s /\ s <> []
                          /\ lyrics t = trim s)
            /\ (forall s, getProp item (js "id") = VString s -> id t = s))
         items (Schema.tracks pkg).
Proof.
  unfold normalizeLyricsPackage.
  destruct (LyricsPackageSchema [] input) as [parsed|] eqn:Hp; [|discriminate].
  intros [= <-]. cbn [np_artist schemaVersion Schema.tracks].
  pose proof (LyricsPackageSchema_fields _ _ Hp) as (Ha & Hane & Htne & Hv).
  apply LyricsPackageSchema_tracks in Hp as [items [Hitems Hall]].
  exists (lp_artist parsed), items. repeat split; try assumption.
  - destruct (lp_schema_version parsed); by rewrite Hv.
  - intros ->. apply Forall2_nil_inv_l in Hall. congruence.
  - clear Hitems Htne. induction Hall as [|item raw items raws [p Hraw] _ IH]; [constructor|].
    cbn [List.map]. constructor; [|exact IH].
    apply TrackInputSchema_fields in Hraw as (Ht1 & Ht2 & Hl1 & Hl2 & Hid).
    unfold normalizeTrack. destruct (normalizeYear (ti_year raw)) as [y yt].
    cbn [Schema.artist title lyrics id]. repeat split.
    + by exists (ti_title raw).
    + by exists (ti_lyrics raw).
    + intros s Hs. destruct (ti_id raw); rewrite Hs in Hid; [by injection Hid as <-|discriminate].
Qed.

Lemma returned_package_reflects_input_witness :
  exists a items,
    getProp readmePackage (js "artist") = VString a /\ a <> []
    /\ np_artist readmeRecords = trim a
    /\ match getProp readmePackage (js "schema_version") with
       | VString s => schemaVersion readmeRecords = s
       | VNumber n => schemaVersion readmeRecords = numberToString n
       | _ => False
       end
    /\ getProp readmePackage (js "tracks") = VArray items /\ items <> []
    /\ Forall2
         (fun item t =>
            Schema.artist t = np_artist readmeRecords
            /\ (exists s, getProp item (js "title") = VString s /\ s <> []
                          /\ title t = trim s)
            /\ (exists s, getProp item (js "lyrics") = VString s /\ s <> []
                          /\ lyrics t = trim s)
            /\ (forall s, getProp item (js "id") = VString s -> id t = s))
         items (Schema.tracks readmeRecords).
Proof.
  apply (returned_package_reflects_input readmePackage readmeRecords).
  vm_compute. reflexivity.
Defined.

(** X11: a package whose [tracks] property is an empty array is rejected,
    whatever else it holds: the validator throws, and the issues of the
    error hold the one that says that tracks are required. *)
Theorem empty_tracks_rejected (input : value) :
  getProp input (js "tracks") = VArray [] ->
  exists e, normalizeLyricsPackage input = Throws e /\ tracksRequired ∈ issues e.
Proof.
  intros Ht. unfold normalizeLyricsPackage, LyricsPackageSchema.
  destruct input; try discriminate.
  assert (Hf : field tracksSchema [] (VObject props) (js "tracks") = ZErr [tracksRequired]).
  { unfold field, tracksSchema, zMin1, zArray. rewrite Ht. reflexivity. }
  rewrite Hf.
  destruct (field schemaVersionSchema [] _ (js "schema_version"));
    destruct (field artistSchema [] _ (js "artist"));
    eexists; (split; [reflexivity|]); cbn [issues issuesOf];
    apply elem_of_app; right; apply elem_of_app; right; apply list_elem_of_here.
Qed.

Lemma empty_tracks_rejected_witness :
  exists e, normalizeLyricsPackage emptyPackage = Throws e /\ tracksRequired ∈ issues e.
Proof. apply (empty_tracks_rejected emptyPackage). reflexivity. Defined.

End Acceptance.

(** ** More on the statistics *)

Section Counting.

Variable Segmenter : option (jsstring -> list jsstring).

Lemma fold_left_concat {A B} (f : A -> B -> A) (ls : list (list B)) (a : A) :
  fold_left (fun acc l => fold_left f l acc) ls a = fold_left f (concat ls) a.
Proof.
  revert a. induction ls as [|l ls IH]; intros a; simpl; [reflexivity|].
  by rewrite fold_left_app, IH.
Qed.

Lemma countsOf_allTokens (single : bool) (tracks : list TrackRecord) :
  countsOf Segmenter single tracks = fold_left countToken (allTokens Segmenter single tracks) [].
Proof.
  unfold countsOf, allTokens. rewrite <- fold_left_concat.
  generalize (@nil (jsstring * Z)). induction tracks as [|t tracks IH]; intros acc; simpl.
  - reflexivity.
  - apply IH.
Qed.

Lemma occurrences_elem (key : jsstring) (tokens : list jsstring) :
  key ∈ tokens -> (1 <= occurrences key tokens)%nat.
Proof.
  unfold occurrences. induction tokens as [|t tokens IH]; intros H.
  - by apply elem_of_nil in H.
  - simpl. destruct (jsstring_eqb key t) eqn:E; simpl; [lia|].
    apply jsstring_eqb_false in E. apply elem_of_cons in H as [->|H]; [congruence|].
    by apply IH.
Qed.

Lemma insertByCount_perm (x : BigramToken) (sorted : list BigramToken) :
  insertByCount x sorted ≡ₚ x :: sorted.
Proof.
  induction sorted as [|y rest IH]; simpl; [reflexivity|].
  destruct (count x <? count y); [|reflexivity].
  rewrite IH. apply perm_swap.
Qed.

Lemma sortByCount_perm (items : list BigramToken) : sortByCount items ≡ₚ items.
Proof.
  unfold sortByCount. induction items as [|x items IH]; simpl; [reflexivity|].
  by rewrite insertByCount_perm, IH.
Qed.

Lemma slice0_take {A} (items : list A) (limit : Z) :
  exists n, slice0 items limit = take n items.
Proof. unfold slice0. destruct (limit <? 0); eauto. Qed.

Lemma take_NoDup {A} (n : nat) (l : list A) : NoDup l -> NoDup (take n l).
Proof. intros H. eapply sublist_NoDup; [exact H|apply sublist_take]. Qed.

(** X12: in the statistics no token comes twice, and the count of a token is
    the number of times it stands among the tokens of all the tracks (the
    words of a track, or its bigrams when the track has no word), which is
    at least one. *)
Theorem statistics_count_occurrences (tracks : list TrackRecord) (limit : option Z)
    (options : option Options) :
  let result := buildBigramStats Segmenter tracks limit options in
  NoDup (List.map token result)
  /\ Forall
       (fun e =>
          count e
          = Z.of_nat (occurrences (token e) (allTokens Segmenter (includeSingleOf options) tracks))
          /\ 1 <= count e)
       result.
Proof.
  intros result. split.
  - unfold result, buildBigramStats.
    destruct (slice0_take
      (sortByCount
         (List.map (fun '(token, count) => {| token := token; count := count |})
            (countsOf Segmenter (includeSingleOf options) tracks)))
      (default 20 limit)) as [n ->].
    rewrite <- firstn_map. apply take_NoDup.
    rewrite sortByCount_perm, map_map.
    erewrite map_ext; [apply countsOf_NoDup|]. by intros [k n'].
  - apply Forall_forall. intros e He. apply buildBigramStats_entry in He.
    pose proof (counted_occurrences (allTokens Segmenter (includeSingleOf options) tracks) []
                  (token e)) as Hc.
    rewrite <- countsOf_allTokens in Hc.
    pose proof He as Hkey.
    apply mapGet_elem in He; [|apply countsOf_NoDup].
    rewrite He in Hc. simpl in Hc. rewrite Hc. split; [reflexivity|].
    assert (Hin : token e ∈ List.map fst (countsOf Segmenter (includeSingleOf options) tracks)).
    { apply list_elem_of_In, in_map_iff. exists (token e, count e).
      split; [reflexivity|by apply list_elem_of_In]. }
    rewrite countsOf_allTokens in Hin. apply counted_keys in Hin as [Hin|Hin].
    + by apply elem_of_nil in Hin.
    + apply occurrences_elem in Hin. lia.
Qed.

Lemma sorted_take_drop (items : list BigramToken) (n : nat) (e d : BigramToken) :
  nonIncreasing items -> e ∈ take n items -> d ∈ drop n items -> count d <= count e.
Proof.
  intros H. revert n. induction H as [|x l _ IH Hx]; intros n He Hd.
  - rewrite take_nil in He. by apply elem_of_nil in He.
  - destruct n as [|n]; simpl in *; [by apply elem_of_nil in He|].
    apply elem_of_cons in He as [->|He].
    + apply (proj1 (Forall_forall _ _) Hx).
      eapply elem_of_sublist; [exact Hd|apply sublist_drop].
    + by apply (IH n).
Qed.

(** X13: the statistics are the most frequent tokens: a counted token that
    is not returned does not count more than any token that is. *)
Theorem statistics_keep_most_frequent (tracks : list TrackRecord) (limit : option Z)
    (options : option Options) (key : jsstring) (n : Z) :
  let result := buildBigramStats Segmenter tracks limit options in
  (key, n) ∈ countsOf Segmenter (includeSingleOf options) tracks ->
  {| token := key; count := n |} ∈ result \/ Forall (fun e => n <= count e) result.
Proof.
  intros result Hkey. unfold result, buildBigramStats.
  set (sorted := sortByCount _).
  destruct (slice0_take sorted (default 20 limit)) as [m ->].
  assert (Hin : {| token := key; count := n |} ∈ sorted).
  { apply sortByCount_elem, list_elem_of_In, in_map_iff. exists (key, n).
    split; [reflexivity|by apply list_elem_of_In]. }
  rewrite <- (take_drop m sorted) in Hin. apply elem_of_app in Hin as [Hin|Hin].
  - by left.
  - right. apply Forall_forall. intros e He.
    apply (sorted_take_drop sorted m e _ (sortByCount_sorted _) He Hin).
Qed.

Lemma filter_filter {A} (f g : A -> bool) (l : list A) :
  List.filter f (List.filter g l) = List.filter (fun x => g x && f x) l.
Proof.
  induction l as [|x l IH]; simpl; [reflexivity|].
  destruct (g x); simpl; [|exact IH]. destruct (f x); by rewrite IH.
Qed.

(** X14: the words of a text without single characters are the words with
    single characters that have two code units or more, in the same order;
    leaving the option out is asking for no single characters. *)
Theorem segmentWords_single_characters (text : jsstring) :
  segmentWords Segmenter text (only false)
  = List.filter (fun token => (2 <=? length token)%nat)
      (segmentWords Segmenter text (only true))
  /\ segmentWords Segmenter text None = segmentWords Segmenter text (only false)
  /\ segmentWords Segmenter text (Some {| includeSingle := None |})
     = segmentWords Segmenter text (only false).
Proof.
  split; [|split; reflexivity].
  unfold segmentWords. destruct Segmenter as [segment|]; [|reflexivity].
  rewrite filter_filter. apply filter_ext. intros token.
  change (includeSingleOf (only true)) with true.
  change (includeSingleOf (only false)) with false.
  unfold keepToken. cbn [negb andb]. rewrite Nat.ltb_antisym, negb_involutive.
  destruct (truthy token), (negb (isPunctuation token)), (hasCjk token),
    (2 <=? length token)%nat, (negb (has stopWords token)), (negb (_ && _)); reflexivity.
Qed.

End Counting.

(** ** Slices and occurrences *)

Section Slices.

Context {A : Type}.

Lemma relativeIndex_nonneg (len : nat) (i : Z) :
  0 <= i -> relativeIndex len i = Nat.min (Z.to_nat i) len.
Proof. intros H. unfold relativeIndex. by rewrite (proj2 (Z.ltb_ge _ _)) by lia. Qed.

Lemma take_drop_between (l : list A) (a b : nat) :
  take (Nat.min b (length l) - Nat.min a (length l)) (drop (Nat.min a (length l)) l)
  = drop a (take b l).
Proof.
  destruct (le_lt_dec (length l) a) as [Ha|Ha].
  - rewrite (Nat.min_r a) by lia. rewrite (drop_ge l) by lia.
    rewrite (drop_ge (take b l)) by (rewrite length_take; lia). apply take_nil.
  - rewrite (Nat.min_l a) by lia. rewrite take_drop_commute.
    destruct (le_lt_dec a (Nat.min b (length l))) as [Hb|Hb].
    + replace (a + (Nat.min b (length l) - a))%nat with (Nat.min b (length l)) by lia.
      f_equal. rewrite <- take_take. by rewrite (take_ge l (length l)) by lia.
    + rewrite !drop_ge; [reflexivity| |]; rewrite length_take; lia.
Qed.

Lemma slice_between (l : list A) (a b : Z) :
  0 <= a -> 0 <= b -> slice l a (Some b) = drop (Z.to_nat a) (take (Z.to_nat b) l).
Proof.
  intros Ha Hb. unfold slice. rewrite !relativeIndex_nonneg by assumption.
  apply take_drop_between.
Qed.

Lemma slice_from (l : list A) (a : Z) : 0 <= a -> slice l a None = drop (Z.to_nat a) l.
Proof.
  intros Ha. unfold slice. rewrite relativeIndex_nonneg by assumption.
  transitivity (drop (Z.to_nat a) (take (length l) l)); [|by rewrite take_ge].
  rewrite <- take_drop_between. by rewrite Nat.min_id.
Qed.

Lemma take_then_between (l : list A) (a b : nat) :
  (a <= b)%nat -> take a l ++ drop a (take b l) = take b l.
Proof.
  intros H. rewrite <- (take_drop a (take b l)) at 2. f_equal.
  rewrite take_take. f_equal. lia.
Qed.

End Slices.

Section Occurrences.

Lemma startsWith_app (t s : jsstring) : startsWith t s = true <-> exists post, s = t ++ post.
Proof.
  revert s. induction t as [|a t IH]; intros s; simpl.
  - split; [by exists s|done].
  - destruct s as [|b s].
    + split; [discriminate|by intros [post H]].
    + rewrite andb_true_iff, Z.eqb_eq, IH. split.
      * intros [-> [post ->]]. by exists post.
      * intros [post [= -> ->]]. split; [reflexivity|by exists post].
Qed.

Lemma includes_app (s t : jsstring) :
  includes s t = true <-> exists pre post, s = pre ++ t ++ post.
Proof.
  induction s as [|c s IH]; simpl.
  - rewrite orb_false_r, startsWith_app. split.
    + intros [post H]. by exists [], post.
    + intros (pre & post & H). symmetry in H.
      apply app_eq_nil in H as [-> H]. apply app_eq_nil in H as [-> ->]. by exists [].
  - rewrite orb_true_iff, startsWith_app, IH. split.
    + intros [[post H]|(pre & post & ->)]; [by exists [], post|by exists (c :: pre), post].
    + intros (pre & post & H). destruct pre as [|x pre].
      * left. by exists post.
      * right. injection H as -> ->. by exists pre, post.
Qed.

Lemma includes_trans (s t u : jsstring) :
  includes s t = true -> includes t u = true -> includes s u = true.
Proof.
  rewrite !includes_app. intros (p1 & q1 & ->) (p2 & q2 & ->).
  exists (p1 ++ p2), (q2 ++ q1). by rewrite <- !app_assoc.
Qed.

(** What [indexOfFrom] finds: nothing, or the first place at or after [pos]
    where the text reads [t]. *)
Lemma indexOfFrom_found (t s : jsstring) (pos : nat) :
  t <> [] ->
  indexOfFrom t pos s = -1
  \/ exists i, indexOfFrom t pos s = Z.of_nat (pos + i)
               /\ (i + length t <= length s)%nat
               /\ take (length t) (drop i s) = t.
Proof.
  intros Ht. revert pos. induction s as [|c s IH]; intros pos; simpl.
  - destruct t; [done|]. simpl. by left.
  - destruct (startsWith t (c :: s)) eqn:E.
    + right. exists O. apply startsWith_app in E as [post E]. split; [f_equal; lia|]. split.
      * change (S (length s)) with (length (c :: s)). rewrite E, length_app. lia.
      * rewrite drop_0, E. apply take_app_length.
    + destruct (IH (S pos)) as [H|(i & H1 & H2 & H3)]; [by left|].
      right. exists (S i). rewrite H1. repeat split; [f_equal; lia|simpl; lia|exact H3].
Qed.

Lemma indexOf_found (s t : jsstring) (position : Z) :
  t <> [] -> 0 <= position ->
  indexOf s t position = -1
  \/ exists i, indexOf s t position = Z.of_nat i
               /\ (Z.to_nat position <= i)%nat
               /\ (i + length t <= length s)%nat
               /\ take (length t) (drop i s) = t.
Proof.
  intros Ht Hp. unfold indexOf. rewrite Z.max_l by lia.
  set (start := Nat.min (Z.to_nat position) (length s)).
  destruct (indexOfFrom_found t (drop start s) start Ht) as [H|(i & H1 & H2 & H3)];
    [by left|].
  right. exists (start + i)%nat. rewrite length_drop in H2. rewrite drop_drop in H3.
  assert (Hstart : start = Z.to_nat position).
  { unfold start. destruct t; [done|]. simpl in H2. lia. }
  repeat split; [exact H1|lia|lia|exact H3].
Qed.

End Occurrences.

Import TrackList.

Section Highlighting.

Lemma drop_take_rest {A} (l : list A) (c k : nat) :
  (c <= k)%nat -> drop c (take k l) ++ drop k l = drop c l.
Proof.
  intros H. rewrite <- (take_drop k l) at 3. rewrite drop_app.
  f_equal. rewrite length_take.
  destruct (le_lt_dec k (length l)).
  - replace (c - Nat.min k (length l))%nat with O by lia. reflexivity.
  - rewrite (drop_ge l k) by lia. by rewrite drop_nil.
Qed.

Lemma drop_take_next {A} (l : list A) (c h k : nat) :
  (c <= h)%nat -> (h <= k)%nat ->
  drop c (take h l) ++ drop h (take k l) = drop c (take k l).
Proof.
  intros H1 H2. rewrite <- (drop_take_rest (take k l) c h H1).
  by rewrite take_take, Nat.min_l by lia.
Qed.

Variables (element : Element) (line lowerLine lowerQuery : jsstring) (n : Z).
Hypothesis lowerQuery_nonempty : lowerQuery <> [].
Hypothesis n_positive : 1 <= n.

Lemma highlightLoop_parts (fuel : nat) :
  forall (cursor : Z) (parts : list Part),
    0 <= cursor -> (length line - Z.to_nat cursor <= fuel)%nat ->
    exists more,
      highlightLoop element line lowerLine lowerQuery n fuel cursor parts
      = Some (parts ++ more)
      /\ concat (List.map partText more) = drop (Z.to_nat cursor) line
      /\ Forall (partOk element line lowerLine lowerQuery n) more.
Proof.
  induction fuel as [|fuel IH]; intros cursor parts Hc Hfuel.
  - exists []. cbn [highlightLoop].
    rewrite (proj2 (Z.ltb_ge _ _)) by lia.
    rewrite app_nil_r, drop_ge by lia. by repeat split.
  - cbn [highlightLoop]. destruct (cursor <? Z.of_nat (length line)) eqn:Hlt.
    2:{ apply Z.ltb_ge in Hlt. exists [].
        rewrite app_nil_r, drop_ge by lia. by repeat split. }
    apply Z.ltb_lt in Hlt.
    destruct (indexOf_found lowerLine lowerQuery cursor lowerQuery_nonempty Hc)
      as [->|(i & -> & Hi1 & Hi2 & Hi3)].
    + exists [Plain (slice line cursor None)]. split; [reflexivity|].
      rewrite slice_from by lia. simpl. rewrite app_nil_r. split; [reflexivity|].
      constructor; [|constructor]. simpl. intros E.
      apply (f_equal length) in E. rewrite length_drop in E. simpl in E. lia.
    + rewrite (proj2 (Z.eqb_neq _ _)) by lia.
      set (hit := Marked element (Z.of_nat i) cursor
                    (slice line (Z.of_nat i) (Some (Z.of_nat i + n)))).
      assert (Hhit : partOk element line lowerLine lowerQuery n hit).
      { simpl. rewrite Nat2Z.id. repeat split; try lia. exact Hi3. }
      assert (Hi : Z.to_nat (Z.of_nat i + n) = (i + Z.to_nat n)%nat) by lia.
      destruct (cursor <? Z.of_nat i) eqn:E.
      * apply Z.ltb_lt in E.
        set (plain := Plain (slice line cursor (Some (Z.of_nat i)))).
        destruct (IH (Z.of_nat i + n) ((parts ++ [plain]) ++ [hit]))
          as (more & -> & Hmore & Hok); [lia|lia|].
        exists (plain :: hit :: more). split; [by rewrite <- !app_assoc|]. split.
        -- cbn [List.map concat partText hit plain]. rewrite Hmore, Hi.
           rewrite !slice_between by lia. rewrite Hi, Nat2Z.id.
           rewrite drop_take_rest by lia. apply drop_take_rest. lia.
        -- constructor; [|by constructor]. simpl.
           rewrite slice_between by lia. rewrite Nat2Z.id. intros E'.
           apply (f_equal length) in E'. rewrite length_drop, length_take in E'.
           simpl in E'. lia.
      * apply Z.ltb_ge in E.
        destruct (IH (Z.of_nat i + n) (parts ++ [hit]))
          as (more & -> & Hmore & Hok); [lia|lia|].
        exists (hit :: more). split; [by rewrite <- !app_assoc|]. split.
        -- cbn [List.map concat partText hit]. rewrite Hmore, Hi.
           rewrite slice_between by lia. rewrite Hi, Nat2Z.id.
           rewrite drop_take_rest by lia. f_equal. lia.
        -- by constructor.
Qed.

End Highlighting.

(** X15: for a query that is not blank (and whose lower-case form is not
    empty) both highlighters end and return parts whose texts, put together,
    are the line; no plain part is empty, and every marked part wraps the
    code units of the line at an index where the lower-case line reads the
    lower-case query. *)
Theorem highlight_parts (toLowerCase : jsstring -> jsstring) (element : Element)
    (line query : jsstring) :
  trim query <> [] -> toLowerCase (trim query) <> [] ->
  exists parts,
    highlight toLowerCase element line query = Some (Parts parts)
    /\ concat (List.map partText parts) = line
    /\ Forall
         (partOk element line (toLowerCase line) (toLowerCase (trim query))
            (Z.of_nat (length (trim query))))
         parts.
Proof.
  intros Hq Hlower. unfold highlight.
  destruct (trim query) as [|c q] eqn:E; [done|]. cbn [truthy negb].
  destruct (highlightLoop_parts element line (toLowerCase line) (toLowerCase (c :: q))
              (Z.of_nat (length (c :: q))) Hlower ltac:(simpl; lia) (length line) 0 [])
    as (parts & -> & Hparts & Hok); [lia|lia|].
  exists parts. by repeat split.
Qed.

Lemma highlight_parts_witness :
  exists parts,
    highlightLine asciiLowerCase (js "Hello hello heLLo!") (js " llo") = Some (Parts parts)
    /\ concat (List.map partText parts) = js "Hello hello heLLo!"
    /\ Forall
         (partOk mark (js "Hello hello heLLo!") (asciiLowerCase (js "Hello hello heLLo!"))
            (asciiLowerCase (trim (js " llo"))) (Z.of_nat (length (trim (js " llo")))))
         parts.
Proof.
  apply (highlight_parts asciiLowerCase mark (js "Hello hello heLLo!") (js " llo"));
    vm_compute; discriminate.
Defined.

Example highlighted_line :
  highlightLine asciiLowerCase (js "Hello hello heLLo!") (js " llo")
  = Some (Parts [Plain (js "He"); Marked mark 2 0 (js "llo"); Plain (js " he");
                 Marked mark 8 5 (js "llo"); Plain (js " he");
                 Marked mark 14 11 (js "LLo"); Plain (js "!")])
  /\ WordCloud.highlightSnippet asciiLowerCase (js "雾灯之外") (js "灯")
     = Some (Parts [Plain (js "雾"); Marked snippetMark 1 0 (js "灯"); Plain (js "之外")])
  /\ highlightLine asciiLowerCase (js "雾灯之外") (js "  ") = Some (Whole (js "雾灯之外")).
Proof. vm_compute. repeat split. Qed.

(** ** Highlighting when lower case is taken character by character *)

Section ByCharacter.

Lemma indexOfFrom_none (t s : jsstring) (pos : nat) :
  indexOfFrom t pos s = -1 <-> includes s t = false.
Proof.
  revert pos. induction s as [|c s IH]; intros pos; simpl.
  - destruct (startsWith t []); simpl; [|done]. split; [lia|discriminate].
  - destruct (startsWith t (c :: s)); simpl; [|apply IH]. split; [lia|discriminate].
Qed.

Lemma indexOfFrom_ge (t s : jsstring) (pos : nat) :
  indexOfFrom t pos s = -1 \/ Z.of_nat pos <= indexOfFrom t pos s.
Proof.
  revert pos. induction s as [|c s IH]; intros pos; simpl.
  - destruct (startsWith t []); [right; lia|by left].
  - destruct (startsWith t (c :: s)); [right; lia|].
    destruct (IH (S pos)) as [H|H]; [by left|right; lia].
Qed.

Lemma indexOfFrom_first (t s : jsstring) (pos i : nat) :
  indexOfFrom t pos s = Z.of_nat (pos + i) ->
  forall j, (j < i)%nat -> startsWith t (drop j s) = false.
Proof.
  revert pos i. induction s as [|c s IH]; intros pos i; simpl.
  - destruct (startsWith t []) eqn:E; intros H j Hj; lia.
  - destruct (startsWith t (c :: s)) eqn:E; intros H j Hj; [lia|].
    destruct (indexOfFrom_ge t s (S pos)) as [H'|H']; [lia|].
    destruct i as [|i]; [lia|]. destruct j as [|j]; [exact E|].
    simpl. apply (IH (S pos) i); [rewrite H; f_equal; lia|lia].
Qed.

Variable f : Z -> Z.
Variables (element : Element) (line query : jsstring).
Hypothesis query_nonempty : query <> [].

Lemma highlightLoop_exact (fuel : nat) :
  forall (cursor : Z) (parts : list Part),
    0 <= cursor -> (length line - Z.to_nat cursor <= fuel)%nat ->
    exists more,
      highlightLoop element line (List.map f line) (List.map f query)
        (Z.of_nat (length query)) fuel cursor parts
      = Some (parts ++ more)
      /\ Forall (partExact (List.map f) query) more.
Proof.
  assert (Hq : List.map f query <> []) by (by destruct query).
  assert (Hn : 1 <= Z.of_nat (length query)) by (destruct query; [done|simpl; lia]).
  induction fuel as [|fuel IH]; intros cursor parts Hc Hfuel.
  - exists []. cbn [highlightLoop].
    rewrite (proj2 (Z.ltb_ge _ _)) by lia. by rewrite app_nil_r.
  - cbn [highlightLoop]. destruct (cursor <? Z.of_nat (length line)) eqn:Hlt.
    2:{ exists []. by rewrite app_nil_r. }
    apply Z.ltb_lt in Hlt.
    assert (Hstart : Nat.min (Z.to_nat (Z.max cursor 0)) (length (List.map f line))
                     = Z.to_nat cursor) by (rewrite length_map; lia).
    destruct (indexOf_found (List.map f line) (List.map f query) cursor Hq Hc)
      as [Hfound|(i & Hfound & Hi1 & Hi2 & Hi3)]; rewrite Hfound.
    + eexists [_]. split; [reflexivity|].
      constructor; [|constructor]. simpl. rewrite slice_from by lia.
      rewrite <- skipn_map. unfold indexOf in Hfound. rewrite Hstart in Hfound.
      by apply indexOfFrom_none in Hfound.
    + rewrite (proj2 (Z.eqb_neq _ _)) by lia. rewrite length_map in Hi2, Hi3.
      set (hit := Marked element (Z.of_nat i) cursor
                    (slice line (Z.of_nat i) (Some (Z.of_nat i + Z.of_nat (length query))))).
      assert (Hhit : partExact (List.map f) query hit).
      { simpl. rewrite slice_between by lia.
        replace (Z.to_nat (Z.of_nat i + Z.of_nat (length query)))
          with (i + length query)%nat by lia.
        rewrite Nat2Z.id.
        rewrite <- take_drop_commute, <- firstn_map, <- skipn_map. exact Hi3. }
      destruct (cursor <? Z.of_nat i) eqn:E.
      * apply Z.ltb_lt in E.
        destruct (IH (Z.of_nat i + Z.of_nat (length query))
                    ((parts ++ [Plain (slice line cursor (Some (Z.of_nat i)))]) ++ [hit]))
          as (more & -> & Hok); [lia|lia|].
        eexists (_ :: hit :: more). split; [by rewrite <- !app_assoc|].
        constructor; [|by constructor]. simpl.
        rewrite slice_between by lia. rewrite Nat2Z.id.
        rewrite <- skipn_map, <- firstn_map.
        destruct (includes _ _) eqn:Hinc; [|reflexivity]. exfalso.
        apply includes_app in Hinc as (pre & post & Hinc).
        unfold indexOf in Hfound. rewrite Hstart in Hfound.
        assert (Hlen : (length pre + length query <= i - Z.to_nat cursor)%nat).
        { apply (f_equal length) in Hinc.
          rewrite length_drop, length_take, !length_app, !length_map in Hinc. lia. }
        pose proof (indexOfFrom_first (List.map f query)
                      (drop (Z.to_nat cursor) (List.map f line)) (Z.to_nat cursor)
                      (i - Z.to_nat cursor)) as Hfirst.
        rewrite Hfound in Hfirst.
        specialize (Hfirst ltac:(f_equal; lia) (length pre) ltac:(lia)).
        apply not_true_iff_false in Hfirst. apply Hfirst, startsWith_app.
        rewrite <- (drop_take_rest (List.map f line) (Z.to_nat cursor) i) by lia.
        rewrite Hinc. rewrite <- !app_assoc, drop_app_length. eauto.
      * destruct (IH (Z.of_nat i + Z.of_nat (length query)) (parts ++ [hit]))
          as (more & -> & Hok); [lia|lia|].
        exists (hit :: more). split; [by rewrite <- !app_assoc|]. by constructor.
Qed.

End ByCharacter.

(** X16: when lower case is taken code unit by code unit, the parts of a
    highlighted line are exact: every marked part is the query up to case,
    and no plain part holds an occurrence of the query up to case (the hits
    are marked from left to right, none is passed over). *)
Theorem highlight_marks_every_hit (f : Z -> Z) (element : Element) (line query : jsstring) :
  trim query <> [] ->
  exists parts,
    highlight (List.map f) element line query = Some (Parts parts)
    /\ Forall (partExact (List.map f) (trim query)) parts.
Proof.
  intros Hq. unfold highlight.
  destruct (trim query) as [|c q] eqn:E; [done|]. cbn [truthy negb].
  destruct (highlightLoop_exact f element line (c :: q) ltac:(done) (length line) 0 [])
    as (parts & -> & Hok); [lia|lia|].
  by exists parts.
Qed.

Lemma highlight_marks_every_hit_witness :
  exists parts,
    highlight (List.map (fun c => if range 0x41 0x5A c then c + 0x20 else c)) mark
      (js "Hello hello heLLo!") (js " llo") = Some (Parts parts)
    /\ Forall
         (partExact (List.map (fun c => if range 0x41 0x5A c then c + 0x20 else c))
            (trim (js " llo")))
         parts.
Proof.
  apply (highlight_marks_every_hit (fun c => if range 0x41 0x5A c then c + 0x20 else c) mark
           (js "Hello hello heLLo!") (js " llo")).
  vm_compute. discriminate.
Defined.

Section LyricSnippets.

Variable toLowerCase : jsstring -> jsstring.

Lemma indexed_lookup (lines : list jsstring) (k : nat) :
  Forall (fun hit => exists j, snd hit = (k + j)%nat /\ lines !! j = Some (fst hit))
    (indexed k lines).
Proof.
  revert k. induction lines as [|line lines IH]; intros k; simpl; constructor.
  - exists O. split; [simpl; lia|reflexivity].
  - eapply Forall_impl; [apply IH|]. intros hit (j & Hj & Hl). exists (S j).
    split; [lia|exact Hl].
Qed.

Variables (lines : list jsstring) (trimmed : jsstring) (limit : Z).

Lemma collect_collected (hits : list (jsstring * nat)) :
  Forall (fun hit => lines !! snd hit = Some (fst hit)
                     /\ includes (toLowerCase (fst hit)) (toLowerCase trimmed) = true) hits ->
  forall snippets used,
    collected toLowerCase lines trimmed limit snippets used ->
    exists used', collected toLowerCase lines trimmed limit (collect lines limit hits snippets used) used'.
Proof.
  induction 1 as [|[line i] hits [Hline Hhit] _ IH]; intros snippets used Hc; simpl.
  - by exists used.
  - destruct (limit <=? Z.of_nat (length snippets)) eqn:Hl; [by exists used|].
    apply Z.leb_gt in Hl. simpl in Hline, Hhit.
    set (start := Z.max 0 (Z.of_nat i - 1)).
    set (stop := Z.min (Z.of_nat (length lines) - 1) (Z.of_nat i + 1)).
    destruct (bool_decide ((start, stop) ∈ used)) eqn:Hu; [by apply IH|].
    apply bool_decide_eq_false in Hu. apply IH.
    destruct Hc as (Hlen & Hdup & Hused & Hok).
    pose proof (lookup_lt_Some _ _ _ Hline) as Hi.
    split; [|split; [|split]].
    + rewrite length_app. simpl. lia.
    + rewrite map_app. apply NoDup_app. split; [exact Hdup|]. split.
      * intros w Hw [->|H]%elem_of_cons; [|by apply elem_of_nil in H].
        apply list_elem_of_In, in_map_iff in Hw as (s & Hs & Hin).
        apply list_elem_of_In, Hused in Hin. rewrite Hs in Hin. done.
      * apply NoDup_singleton.
    + intros s [Hs|Hs]%elem_of_app.
      * apply elem_of_union. right. by apply Hused.
      * apply list_elem_of_singleton in Hs as ->. apply elem_of_union. left.
        by apply elem_of_singleton.
    + apply Forall_app. split; [exact Hok|]. constructor; [|constructor].
      unfold snippetOk. cbn [ls_start ls_end ls_lines].
      split; [unfold start, stop; lia|]. split; [unfold stop; lia|].
      split; [unfold start, stop; lia|]. split.
      * rewrite slice_between by (unfold start, stop; lia).
        rewrite take_drop_commute. f_equal. f_equal. unfold start, stop. lia.
      * exists i, line. split; [exact Hline|]. split; [exact Hhit|].
        unfold start, stop. lia.
Qed.

End LyricSnippets.

(** X17: the snippets of one track for a query are at most [limit] windows
    of the lyrics, no window twice; each is at most three lines long, lies
    inside the lyrics, and holds a line in which the query occurs up to
    case. *)
Theorem getLyricSnippets_windows (toLowerCase : jsstring -> jsstring)
    (lyrics query : jsstring) (limit : Z) :
  let found := getLyricSnippets toLowerCase lyrics query (Some limit) in
  Z.of_nat (length found) <= Z.max limit 0
  /\ NoDup (List.map window found)
  /\ Forall (snippetOk toLowerCase (split_on LF lyrics) (trim query)) found.
Proof.
  intros found. unfold found, getLyricSnippets.
  destruct (truthy (trim query)); simpl.
  2:{ split; [lia|]. split; constructor. }
  edestruct (collect_collected toLowerCase (split_on LF lyrics) (trim query) limit)
    as (used' & H1 & H2 & _ & H4); [| |by eauto].
  - apply Forall_forall. intros hit Hhit.
    apply list_elem_of_In, filter_In in Hhit as [Hin Hinc].
    apply list_elem_of_In in Hin.
    pose proof (proj1 (Forall_forall _ _) (indexed_lookup (split_on LF lyrics) O) hit Hin)
      as (j & Hj & Hl).
    simpl in Hj. rewrite Hj. by split.
  - split; [simpl; lia|]. split; [constructor|]. split; [|constructor].
    intros s Hs. by apply elem_of_nil in Hs.
Qed.

Import SearchIndex.

(** ** The fallback search and the index by identifier *)

Section Searching.

Variable toLowerCase : jsstring -> jsstring.

Lemma filter_sublist {A} (f : A -> bool) (l : list A) : sublist (List.filter f l) l.
Proof.
  induction l as [|x l IH]; simpl; [constructor|].
  destruct (f x); [by apply sublist_skip|by apply sublist_cons].
Qed.

Lemma filter_narrower {A} (f g : A -> bool) (l : list A) :
  (forall x, f x = true -> g x = true) -> sublist (List.filter f l) (List.filter g l).
Proof.
  intros H. induction l as [|x l IH]; simpl; [constructor|].
  destruct (f x) eqn:Hf.
  - rewrite (H x Hf). by apply sublist_skip.
  - destruct (g x); [by apply sublist_cons|exact IH].
Qed.

Lemma includes_nil (s : jsstring) : includes s [] = true.
Proof. by destruct s. Qed.

Lemma includes_of_nil (t : jsstring) : includes [] t = true -> t = [].
Proof. destruct t; [done|discriminate]. Qed.

(** X18: the fallback search returns tracks of the collection in their
    order, all of them for a blank query; and a query whose lower-case form
    holds the lower-case form of another finds no track the other does not
    find: typing more never adds results. *)
Theorem fallbackSearch_narrows (tracks : list TrackRecord) (query longer : jsstring) :
  includes (toLowerCase (trim longer)) (toLowerCase (trim query)) = true ->
  sublist (fallbackSearch toLowerCase tracks longer) (fallbackSearch toLowerCase tracks query)
  /\ sublist (fallbackSearch toLowerCase tracks query) tracks
  /\ (toLowerCase (trim query) = [] -> fallbackSearch toLowerCase tracks query = tracks).
Proof.
  intros Hinc. unfold fallbackSearch. split; [|split].
  - destruct (toLowerCase (trim query)) as [|c q] eqn:Eq; cbn [truthy negb].
    + destruct (truthy (toLowerCase (trim longer))); simpl;
        [apply filter_sublist|reflexivity].
    + destruct (toLowerCase (trim longer)) as [|d l] eqn:El.
      * by apply includes_of_nil in Hinc.
      * cbn [truthy negb]. apply filter_narrower. intros t Ht.
        by apply (includes_trans _ (d :: l)).
  - destruct (truthy (toLowerCase (trim query))); simpl; [apply filter_sublist|reflexivity].
  - by intros ->.
Qed.

Lemma byId_snoc (tracks : list TrackRecord) (t : TrackRecord) :
  byId (tracks ++ [t]) = <[id t := t]> (byId tracks).
Proof. unfold byId. by rewrite fold_left_app. Qed.

(** X19: the index by identifier holds, for an identifier, the last track
    of the collection with that identifier, and nothing for an identifier
    no track has; when no two tracks share an identifier every track is
    found under its own. *)
Theorem byId_lookup (tracks : list TrackRecord) :
  (forall key,
     byId tracks !! key = last (List.filter (fun t => jsstring_eqb (id t) key) tracks))
  /\ (NoDup (List.map id tracks) -> forall t, t ∈ tracks -> byId tracks !! id t = Some t).
Proof.
  assert (H : forall key,
    byId tracks !! key = last (List.filter (fun t => jsstring_eqb (id t) key) tracks)).
  { induction tracks as [|t tracks IH] using rev_ind; intros key; [reflexivity|].
    rewrite byId_snoc, List.filter_app. simpl.
    destruct (jsstring_eqb (id t) key) eqn:E.
    - apply jsstring_eqb_true in E as <-. by rewrite lookup_insert_eq, last_snoc.
    - apply jsstring_eqb_false in E. rewrite lookup_insert_ne by exact E.
      by rewrite app_nil_r. }
  split; [exact H|]. intros Hdup t Ht. rewrite H.
  apply list_elem_of_split in Ht as (before & after & ->).
  rewrite map_app in Hdup. simpl in Hdup.
  apply NoDup_app in Hdup as (_ & Hfresh & Hafter).
  apply NoDup_cons in Hafter as [Hafter _].
  rewrite List.filter_app. simpl. rewrite (proj2 (jsstring_eqb_true _ _) eq_refl).
  assert (Hnone : List.filter (fun t0 => jsstring_eqb (id t0) (id t)) after = []).
  { clear H Hfresh. induction after as [|a after IHa]; [reflexivity|]. simpl.
    destruct (jsstring_eqb (id a) (id t)) eqn:E.
    - apply jsstring_eqb_true in E. exfalso. apply Hafter. simpl. rewrite E.
      apply list_elem_of_here.
    - apply IHa. intros Hin. apply Hafter. simpl. by apply list_elem_of_further. }
  rewrite Hnone. apply last_snoc.
Qed.

End Searching.

(** ** The seed hash and the random numbers of the word cloud *)

Section Seeds.

Lemma toInt32_range (z : Z) : - 2 ^ 31 <= WordCloud.toInt32 z < 2 ^ 31.
Proof.
  unfold WordCloud.toInt32.
  pose proof (Z.mod_pos_bound (z + 2 ^ 31) (2 ^ 32) ltac:(lia)). lia.
Qed.

Lemma toInt32_congruent (a b : Z) :
  (a - b) mod 2 ^ 32 = 0 -> WordCloud.toInt32 a = WordCloud.toInt32 b.
Proof.
  intros H. unfold WordCloud.toInt32. f_equal.
  apply Z.mod_divide in H; [|lia]. destruct H as [k Hk].
  replace (a + 2 ^ 31) with (b + 2 ^ 31 + k * 2 ^ 32) by lia.
  apply Z.mod_add. lia.
Qed.

Lemma toInt32_difference (a : Z) : exists k, WordCloud.toInt32 a = a + k * 2 ^ 32.
Proof.
  unfold WordCloud.toInt32. exists (- ((a + 2 ^ 31) / 2 ^ 32)).
  pose proof (Z.div_mod (a + 2 ^ 31) (2 ^ 32) ltac:(lia)). lia.
Qed.

Lemma hashStep_signed (u c : Z) :
  WordCloud.hashStep (WordCloud.toInt32 u) c = WordCloud.toInt32 (Schema.hashStep u c).
Proof.
  unfold WordCloud.hashStep, Schema.hashStep. apply toInt32_congruent.
  rewrite Z.shiftl_mul_pow2 by lia.
  destruct (toInt32_difference u) as [k1 H1].
  destruct (toInt32_difference (WordCloud.toInt32 u)) as [k2 H2].
  destruct (toInt32_difference (WordCloud.toInt32 (WordCloud.toInt32 u) * 2 ^ 5)) as [k3 H3].
  rewrite H3, H2, H1.
  pose proof (Z.div_mod (u * 31 + c) (2 ^ 32) ltac:(lia)) as Hd.
  apply Z.mod_divide; [lia|].
  exists (k2 * 32 + k1 * 31 + k3 + (u * 31 + c) / 2 ^ 32 ). lia.
Qed.

Lemma hash_signed (value : jsstring) :
  fold_left WordCloud.hashStep value 0
  = WordCloud.toInt32 (fold_left Schema.hashStep value 0).
Proof.
  induction value as [|c value IH] using rev_ind; [reflexivity|].
  rewrite !fold_left_app. simpl. rewrite IH. apply hashStep_signed.
Qed.

(** X20: the seed hash of the word cloud is the hash the identifiers are
    made with (before it is written in base 36), read as a signed 32-bit
    integer and made positive; it lies between 0 and 2^31, both included. *)
Theorem seed_hash_is_signed_id_hash (value : jsstring) :
  WordCloud.hashString value
  = Z.abs (WordCloud.toInt32 (fold_left Schema.hashStep value 0))
  /\ 0 <= WordCloud.hashString value <= 2 ^ 31.
Proof.
  unfold WordCloud.hashString. rewrite hash_signed.
  pose proof (toInt32_range (fold_left hashStep value 0)). split; [reflexivity|lia].
Qed.

Lemma modulus_coprime : Z.gcd 2147483647 16807 = 1.
Proof. vm_compute. reflexivity. Qed.

Lemma nextValue_range (value : Z) :
  1 <= value <= 2147483646 -> 1 <= WordCloud.nextValue value <= 2147483646.
Proof.
  intros H. unfold WordCloud.nextValue. rewrite Z.rem_mod_nonneg by lia.
  pose proof (Z.mod_pos_bound (value * 16807) 2147483647 ltac:(lia)) as Hb.
  assert (Hne : (value * 16807) mod 2147483647 <> 0).
  { intros E. apply Z.mod_divide in E; [|lia].
    rewrite Z.mul_comm in E. apply Z.gauss in E; [|apply modulus_coprime].
    destruct E as [k Hk]. nia. }
  lia.
Qed.

Lemma seedValue_range (seed : Z) : 0 <= seed -> 1 <= WordCloud.seedValue seed <= 2147483646.
Proof.
  intros H. unfold WordCloud.seedValue. rewrite Z.rem_mod_nonneg by lia.
  pose proof (Z.mod_pos_bound seed 2147483647 ltac:(lia)) as Hb.
  destruct (seed mod 2147483647 <=? 0) eqn:E; [apply Z.leb_le in E|apply Z.leb_gt in E]; lia.
Qed.

(** X21: seeded with a number that is not negative, the generator keeps a
    value from 1 to 2147483646 at every call, so what a call returns, the
    value divided by 2147483647, lies strictly between 0 and 1; and the
    product it takes the remainder of stays below 2^53, so it is exact. *)
Theorem seededRandom_range (seed : Z) (n : nat) :
  0 <= seed ->
  1 <= WordCloud.valueAfter seed n <= 2147483646
  /\ WordCloud.valueAfter seed n * 16807 < 2 ^ 53.
Proof.
  intros H. assert (Hr : 1 <= WordCloud.valueAfter seed n <= 2147483646).
  { unfold WordCloud.valueAfter. induction n as [|n IH]; simpl.
    - by apply seedValue_range.
    - by apply nextValue_range. }
  split; [exact Hr|]. lia.
Qed.

Lemma seededRandom_range_witness :
  1 <= WordCloud.valueAfter (WordCloud.hashString (js "雾灯之外")) 3 <= 2147483646
  /\ WordCloud.valueAfter (WordCloud.hashString (js "雾灯之外")) 3 * 16807 < 2 ^ 53.
Proof.
  apply (seededRandom_range (WordCloud.hashString (js "雾灯之外")) 3).
  vm_compute. discriminate.
Defined.

Example seeds :
  WordCloud.hashString (js "abc") = 96354
  /\ List.map (WordCloud.valueAfter 1) [1; 2; 3]%nat = [16807; 282475249; 1622650073]
  /\ WordCloud.seedValue 0 = 2147483646
  /\ WordCloud.seedValue (-2147483646) = 0.
Proof. vm_compute. repeat split. Qed.

End Seeds.

Import Highlight.

(** ** Escaped text and the search-result snippet *)

Section Escaping.

Lemma flat_map_flat_map {A B C} (f : A -> list B) (g : B -> list C) (l : list A) :
  flat_map g (flat_map f l) = flat_map (fun x => flat_map g (f x)) l.
Proof.
  induction l as [|x l IH]; simpl; [reflexivity|]. by rewrite flat_map_app, IH.
Qed.

Lemma escapeChar_steps (c : Z) :
  flat_map (fun x => if 0x27 =? x then js "&#39;" else [x])
    (flat_map (fun x => if 0x22 =? x then js "&quot;" else [x])
       (flat_map (fun x => if 0x3E =? x then js "&gt;" else [x])
          (flat_map (fun x => if 0x3C =? x then js "&lt;" else [x])
             (if 0x26 =? c then js "&amp;" else [c]))))
  = escapeChar c.
Proof.
  unfold escapeChar.
  destruct (Z.eq_dec c 0x26) as [->|H1]; [reflexivity|].
  destruct (Z.eq_dec c 0x3C) as [->|H2]; [reflexivity|].
  destruct (Z.eq_dec c 0x3E) as [->|H3]; [reflexivity|].
  destruct (Z.eq_dec c 0x22) as [->|H4]; [reflexivity|].
  destruct (Z.eq_dec c 0x27) as [->|H5]; [reflexivity|].
  rewrite (proj2 (Z.eqb_neq 0x26 c)) by lia. cbn [flat_map app].
  rewrite (proj2 (Z.eqb_neq 0x3C c)) by lia. cbn [flat_map app].
  rewrite (proj2 (Z.eqb_neq 0x3E c)) by lia. cbn [flat_map app].
  rewrite (proj2 (Z.eqb_neq 0x22 c)) by lia. cbn [flat_map app].
  rewrite (proj2 (Z.eqb_neq 0x27 c)) by lia. cbn [flat_map app].
  rewrite !(proj2 (Z.eqb_neq c _)) by lia. reflexivity.
Qed.

Lemma escapeHtml_chars (value : jsstring) : escapeHtml value = flat_map escapeChar value.
Proof.
  unfold escapeHtml.
  change (js "&") with [0x26]. change (js "<") with [0x3C]. change (js ">") with [0x3E].
  change (js "'") with [0x27].
  rewrite !replaceAll_char, !flat_map_flat_map.
  apply flat_map_ext. intros c. rewrite <- !flat_map_flat_map. apply escapeChar_steps.
Qed.

Lemma escapeChar_markup (c : Z) : Forall (fun x => isMarkup x = false) (escapeChar c).
Proof.
  unfold escapeChar.
  destruct (c =? 0x26) eqn:E1; [by repeat constructor|].
  destruct (c =? 0x3C) eqn:E2; [by repeat constructor|].
  destruct (c =? 0x3E) eqn:E3; [by repeat constructor|].
  destruct (c =? 0x22) eqn:E4; [by repeat constructor|].
  destruct (c =? 0x27) eqn:E5; [by repeat constructor|].
  constructor; [|constructor]. unfold isMarkup, oneOf. simpl.
  by rewrite E2, E3, E4, E5.
Qed.

(** X22: escaping works character by character: the five replacements made
    one after the other give each of [&], [<], [>] and the two quotes its
    entity and leave every other character alone (an ampersand the later
    replacements write is not escaped again); so the escaped text of two
    texts put together is the two escaped texts put together, and no [<],
    [>] or quote is left in an escaped text. *)
Theorem escapeHtml_by_character (value other : jsstring) :
  escapeHtml value = flat_map escapeChar value
  /\ escapeHtml (value ++ other) = escapeHtml value ++ escapeHtml other
  /\ Forall (fun c => isMarkup c = false) (escapeHtml value).
Proof.
  rewrite !escapeHtml_chars. split; [reflexivity|]. split; [apply flat_map_app|].
  induction value as [|c value IH]; simpl; [constructor|].
  apply Forall_app. split; [apply escapeChar_markup|exact IH].
Qed.

End Escaping.

Section Snippet.

Variable toLowerCase : jsstring -> jsstring.

Lemma truthy_drop {A} (l : list A) (n : nat) :
  match drop n l with [] => false | _ :: _ => true end = (n <? length l)%nat.
Proof.
  destruct (drop n l) eqn:E; symmetry.
  - apply Nat.ltb_ge. apply (f_equal length) in E. rewrite length_drop in E. simpl in E. lia.
  - apply Nat.ltb_lt. apply (f_equal length) in E. rewrite length_drop in E. simpl in E. lia.
Qed.

Lemma indexOf_start (s t : jsstring) : indexOf s t 0 = indexOfFrom t 0 s.
Proof. reflexivity. Qed.

Lemma indexOfFrom_at (t s : jsstring) (pos i : nat) :
  indexOfFrom t pos s = Z.of_nat (pos + i) -> startsWith t (drop i s) = true.
Proof.
  revert pos i. induction s as [|c s IH]; intros pos i; simpl.
  - destruct (startsWith t []) eqn:E; [|lia]. intros H.
    replace i with O by lia. exact E.
  - destruct (startsWith t (c :: s)) eqn:E.
    + intros H. replace i with O by lia. exact E.
    + intros H. destruct (indexOfFrom_ge t s (S pos)) as [H'|H']; [lia|].
      destruct i as [|i]; [lia|]. simpl. apply (IH (S pos) i). rewrite H. f_equal. lia.
Qed.

(** X23: with a radius and a fallback length that are not negative, the
    snippet is a run of the normalized text, the two ellipsis flags say
    whether text is left out before and after it, and it is no longer than
    the fallback length or the query and twice the radius.  When the
    normalized text and the trimmed query are not empty and the text reads
    the query somewhere, both in lower case, the snippet is made of up to
    [radius] code units before the first such place, the code units of the
    text at that place, as many as the query has, and up to [radius] code
    units after them, and the markup is the three parts escaped with one
    [mark] element around the second; otherwise the snippet is the first
    [fallbackLength] code units of the text and the markup is the snippet
    escaped. *)
Theorem buildHighlightSnippet_window (text query : jsstring) (radius fallbackLength : Z) :
  0 <= radius -> 0 <= fallbackLength ->
  let found :=
    buildHighlightSnippet toLowerCase text query (Some radius) (Some fallbackLength) in
  let whole := normalizedText text in
  let wanted := trim query in
  (exists before after,
     whole = before ++ snippet found ++ after
     /\ leadingEllipsis found = truthy before
     /\ trailingEllipsis found = truthy after)
  /\ Z.of_nat (length (snippet found))
     <= Z.max fallbackLength (Z.of_nat (length wanted) + 2 * radius)
  /\ if truthy whole && truthy wanted && includes (toLowerCase whole) (toLowerCase wanted)
     then
       exists h,
         startsWith (toLowerCase wanted) (drop h (toLowerCase whole)) = true
         /\ (forall j, (j < h)%nat ->
                       startsWith (toLowerCase wanted) (drop j (toLowerCase whole)) = false)
         /\ let b := drop (h - Z.to_nat radius) (take h whole) in
            let m := take (length wanted) (drop h whole) in
            let a := take (Z.to_nat radius) (drop (h + length wanted) whole) in
            snippet found = b ++ m ++ a
            /\ html found
               = escapeHtml b ++ js "<mark>" ++ escapeHtml m ++ js "</mark>" ++ escapeHtml a
     else
       snippet found = take (Z.to_nat fallbackLength) whole
       /\ html found = escapeHtml (snippet found).
Proof.
  intros Hr Hf found whole wanted.
  unfold found, buildHighlightSnippet. cbn [default from_option].
  fold (normalizedText text). unfold Datatypes.id. fold whole. fold wanted.
  assert (Hfallback :
    let s := slice whole 0 (Some fallbackLength) in
    (exists before after, whole = before ++ s ++ after
       /\ false = truthy before /\ (length s <? length whole)%nat = truthy after)
    /\ Z.of_nat (length s)
       <= Z.max fallbackLength (Z.of_nat (length wanted) + 2 * radius)
    /\ s = take (Z.to_nat fallbackLength) whole).
  { intros s. unfold s. rewrite slice_between by lia. rewrite drop_0. split; [|split].
    - exists [], (drop (Z.to_nat fallbackLength) whole). simpl. rewrite take_drop.
      repeat split. unfold truthy. rewrite truthy_drop, length_take.
      destruct (Nat.ltb_spec (Nat.min (Z.to_nat fallbackLength) (length whole)) (length whole)),
        (Nat.ltb_spec (Z.to_nat fallbackLength) (length whole)); try reflexivity; lia.
    - rewrite length_take. lia.
    - reflexivity. }
  destruct (truthy whole) eqn:HN; cbn [negb andb].
  2:{ destruct whole; [|discriminate]. cbn [snippet html leadingEllipsis trailingEllipsis].
      split; [by exists [], []|]. split; [simpl; lia|]. by rewrite take_nil. }
  destruct (truthy wanted); cbn [negb andb].
  2:{ cbn [snippet html leadingEllipsis trailingEllipsis].
      destruct Hfallback as (H1 & H2 & H3). split; [exact H1|]. split; [exact H2|].
      split; [exact H3|reflexivity]. }
  rewrite indexOf_start.
  destruct (includes (toLowerCase whole) (toLowerCase wanted)) eqn:Hinc.
  2:{ apply (indexOfFrom_none _ _ O) in Hinc. rewrite Hinc.
      cbn [Z.eqb snippet html leadingEllipsis trailingEllipsis].
      destruct Hfallback as (H1 & H2 & H3). split; [exact H1|]. split; [exact H2|].
      split; [exact H3|reflexivity]. }
  destruct (indexOfFrom_ge (toLowerCase wanted) (toLowerCase whole) O) as [Hnone|Hhit].
  { apply indexOfFrom_none in Hnone. congruence. }
  set (hit := indexOfFrom (toLowerCase wanted) 0 (toLowerCase whole)) in *.
  rewrite (proj2 (Z.eqb_neq hit (-1))) by lia.
  cbn [snippet html leadingEllipsis trailingEllipsis].
  set (q := Z.of_nat (length wanted)).
  set (start := Z.max 0 (hit - radius)).
  set (stop := Z.min (Z.of_nat (length whole)) (hit + q + radius)).
  assert (Hstart : 0 <= start <= hit) by (unfold start; lia).
  assert (Hstop : 0 <= stop <= Z.of_nat (length whole)) by (unfold stop, q; lia).
  assert (Hwidth : stop - start <= q + 2 * radius) by (unfold stop, start; lia).
  rewrite (slice_between whole) by lia.
  set (s := drop (Z.to_nat start) (take (Z.to_nat stop) whole)).
  split; [|split].
  - destruct (Z_le_gt_dec start stop) as [Hle|Hgt].
    + exists (take (Z.to_nat start) whole), (drop (Z.to_nat stop) whole). split; [|split].
      * unfold s. rewrite app_assoc, take_then_between by lia. by rewrite take_drop.
      * destruct whole as [|c N']; [discriminate|].
        destruct (Z.to_nat start) eqn:E; simpl.
        -- apply Z.ltb_ge. lia.
        -- apply Z.ltb_lt. lia.
      * unfold truthy. rewrite truthy_drop.
        destruct (stop <? Z.of_nat (length whole)) eqn:E; symmetry.
        -- apply Z.ltb_lt in E. apply Nat.ltb_lt. lia.
        -- apply Z.ltb_ge in E. apply Nat.ltb_ge. lia.
    + exists whole, []. split; [|split].
      * unfold s. rewrite drop_ge by (rewrite length_take; lia). by rewrite app_nil_r.
      * rewrite HN. apply Z.ltb_lt. lia.
      * simpl. apply Z.ltb_ge. lia.
  - unfold s. rewrite length_drop, length_take. lia.
  - exists (Z.to_nat hit).
    assert (Hhere : hit = Z.of_nat (0 + Z.to_nat hit)) by lia.
    split; [exact (indexOfFrom_at _ _ _ _ Hhere)|].
    split; [exact (indexOfFrom_first _ _ _ _ Hhere)|].
    cbv zeta.
    rewrite slice_between, drop_0 by lia. rewrite slice_between, slice_from by lia.
    set (h := Z.to_nat hit). set (n := length wanted). set (r := Z.to_nat radius).
    assert (Hs : s = drop (h - r) (take (h + n + r) whole)).
    { unfold s. replace (Z.to_nat start) with (h - r)%nat by (unfold start, h, r; lia).
      f_equal. unfold stop.
      destruct (Z.le_ge_cases (Z.of_nat (length whole)) (hit + q + radius)) as [Hc|Hc].
      - rewrite Z.min_l by lia. rewrite Nat2Z.id.
        rewrite (take_ge whole (length whole)) by lia.
        symmetry. apply take_ge. unfold h, n, r, q in *. lia.
      - rewrite Z.min_r by lia. f_equal. unfold h, n, r, q. lia. }
    replace (Z.to_nat (hit - start)) with (h - (h - r))%nat by (unfold start, h, r; lia).
    replace (Z.to_nat (hit - start + q)) with (h - (h - r) + n)%nat
      by (unfold start, h, r, n, q; lia).
    assert (Hb : take (h - (h - r)) s = drop (h - r) (take h whole)).
    { rewrite Hs, take_drop_commute, take_take. do 2 f_equal. lia. }
    assert (Hm : drop (h - (h - r)) (take (h - (h - r) + n) s) = take n (drop h whole)).
    { rewrite Hs, take_drop_commute, take_take, drop_drop, take_drop_commute.
      replace (h - r + (h - (h - r)))%nat with h by lia. do 2 f_equal. lia. }
    assert (Ha : drop (h - (h - r) + n) s = take r (drop (h + n) whole)).
    { rewrite Hs, drop_drop, take_drop_commute.
      replace (h - r + (h - (h - r) + n))%nat with (h + n)%nat by lia. reflexivity. }
    rewrite Hb, Hm, Ha. split; [|reflexivity].
    rewrite <- Hb, <- Hm, <- Ha.
    rewrite app_assoc, take_then_between by lia. by rewrite take_drop.
Qed.

End Snippet.

Lemma buildHighlightSnippet_window_witness :
  let text := js "  雾灯  之外 <Hello>  world " in
  let found := buildHighlightSnippet asciiLowerCase text (js " HELLO ") (Some 3) (Some 70) in
  let whole := normalizedText text in
  let wanted := trim (js " HELLO ") in
  (exists before after,
     whole = before ++ snippet found ++ after
     /\ leadingEllipsis found = truthy before
     /\ trailingEllipsis found = truthy after)
  /\ Z.of_nat (length (snippet found)) <= Z.max 70 (Z.of_nat (length wanted) + 2 * 3)
  /\ if truthy whole && truthy wanted
        && includes (asciiLowerCase whole) (asciiLowerCase wanted)
     then
       exists h,
         startsWith (asciiLowerCase wanted) (drop h (asciiLowerCase whole)) = true
         /\ (forall j, (j < h)%nat ->
                       startsWith (asciiLowerCase wanted) (drop j (asciiLowerCase whole)) = false)
         /\ let b := drop (h - Z.to_nat 3) (take h whole) in
            let m := take (length wanted) (drop h whole) in
            let a := take (Z.to_nat 3) (drop (h + length wanted) whole) in
            snippet found = b ++ m ++ a
            /\ html found
               = escapeHtml b ++ js "<mark>" ++ escapeHtml m ++ js "</mark>" ++ escapeHtml a
     else
       snippet found = take (Z.to_nat 70) whole
       /\ html found = escapeHtml (snippet found).
Proof.
  apply (buildHighlightSnippet_window asciiLowerCase (js "  雾灯  之外 <Hello>  world ")
           (js " HELLO ") 3 70); lia.
Defined.

Example highlighted_snippet :
  buildHighlightSnippet asciiLowerCase (js "  雾灯  之外 <Hello>  world ") (js "HELLO")
    (Some 3) None
  = {| snippet := js "外 <Hello> w";
       html := js "外 &lt;<mark>Hello</mark>&gt; w";
       leadingEllipsis := true;
       trailingEllipsis := true |}
  /\ buildHighlightSnippet asciiLowerCase (js "雾灯 之外") (js "山岗") None (Some 2)
     = {| snippet := js "雾灯"; html := js "雾灯";
          leadingEllipsis := false; trailingEllipsis := true |}
  /\ buildHighlightSnippet asciiLowerCase (js "   ") (js "山岗") None None
     = {| snippet := []; html := []; leadingEllipsis := false; trailingEllipsis := false |}.
Proof. vm_compute. repeat split. Qed.

(** ** What a match is made of

    [spans r x y]: the pattern [r] takes the matcher from [x] to [y].  It is
    what a successful run hands to its continuation. *)

Section Spans.

Lemma orElse_Some {A} (a b : option A) (z : A) :
  orElse a b = Some z -> a = Some z \/ b = Some z.
Proof. destruct a; simpl; [by left|by right]. Qed.

Lemma repeatMatch_spans (a : regex) (greedy : bool) (k : mstate -> option mstate) :
  (forall x k z, run a x k = Some z -> exists y, spans a x y /\ k y = Some z) ->
  forall fuel min max x z,
    repeatMatch (run a) (groups a) greedy k fuel min max x = Some z ->
    exists n y,
      ((min <= n)%nat \/ max = Some n)
      /\ (forall m, max = Some m -> (n <= m)%nat)
      /\ iterate n (fun u v => spans a (clearGroups (groups a) u) v) x y
      /\ k y = Some z.
Proof.
  intros IHa. induction fuel as [|fuel IH]; intros min max x z; [discriminate|].
  cbn [repeatMatch].
  assert (Hstop : k x = Some z -> (min = O \/ max = Some O) ->
                  exists n y,
                    ((min <= n)%nat \/ max = Some n)
                    /\ (forall m, max = Some m -> (n <= m)%nat)
                    /\ iterate n (fun u v => spans a (clearGroups (groups a) u) v) x y
                    /\ k y = Some z).
  { intros Hk Hmin. exists O, x. repeat split; try done; [|intros m _; lia].
    destruct Hmin as [-> | ->]; [by left|by right]. }
  assert (Hmore : forall again,
    (forall m, again m = Some z ->
               repeatMatch (run a) (groups a) greedy k fuel (Nat.pred min) (Nat.pred <$> max) m
               = Some z) ->
    max <> Some O ->
    run a (clearGroups (groups a) x) again = Some z ->
    exists n y,
      ((min <= n)%nat \/ max = Some n)
      /\ (forall m, max = Some m -> (n <= m)%nat)
      /\ iterate n (fun u v => spans a (clearGroups (groups a) u) v) x y
      /\ k y = Some z).
  { intros again Hagain Hmax Hrun.
    apply IHa in Hrun as (m & Hm & Hrun). apply Hagain, IH in Hrun as (n & y & H1 & H2 & H3 & H4).
    exists (S n), y. repeat split; try done.
    - destruct H1 as [H1|H1]; [left; lia|].
      destruct max as [[|b]|]; try done. injection H1 as <-. by right.
    - intros b ->. specialize (H2 (Nat.pred b) eq_refl). destruct b; [done|simpl in H2; lia].
    - by exists m. }
  destruct (decide (max = Some O)) as [->|Hmax]; [intros Hk; apply Hstop; [exact Hk|by right]|].
  assert (Hshape : forall T (u v : T),
            match max with Some O => u | _ => v end = v).
  { intros T u v. by destruct max as [[|b]|]. }
  rewrite Hshape.
  destruct min as [|min'].
  - destruct greedy; intros [H|H]%orElse_Some;
      try (apply Hstop; [exact H|by left]);
      (eapply Hmore; [|exact Hmax|exact H]);
      intros m; cbn [Nat.eqb andb]; by destruct (Nat.eqb (m_pos m) (m_pos x)).
  - intros H. eapply Hmore; [|exact Hmax|exact H]. by intros m.
Qed.

Lemma run_spans (r : regex) :
  forall x k z, run r x k = Some z -> exists y, spans r x y /\ k y = Some z.
Proof.
  induction r as [|p|a IHa b IHb|a IHa b IHb|greedy min max a IHa|i a IHa| | |a IHa];
    intros x k z; cbn [run spans].
  - intros H. by exists x.
  - destruct (m_rest x) as [|c t]; [discriminate|].
    destruct (p c) eqn:Hp; [|discriminate]. intros H. eexists. by split.
  - intros H. apply IHa in H as (m & Hm & H). apply IHb in H as (y & Hy & H).
    exists y. split; [by exists m|exact H].
  - intros [H|H]%orElse_Some; [apply IHa in H|apply IHb in H];
      destruct H as (y & Hy & H); exists y; (split; [|exact H]); [by left|by right].
  - intros H. apply (repeatMatch_spans a greedy k IHa) in H as (n & y & H1 & H2 & H3 & H4).
    exists y. split; [by exists n|exact H4].
  - intros H. apply IHa in H as (m & Hm & H). eexists. split; [exists m; by split|exact H].
  - destruct (Nat.eqb (m_pos x) 0) eqn:E; [|discriminate].
    apply Nat.eqb_eq in E. intros H. by exists x.
  - destruct (m_rest x) eqn:E; [|discriminate]. intros H. by exists x.
  - destruct (run a x Some) as [y|] eqn:E; [|discriminate].
    apply IHa in E as (m & Hm & [= <-]). intros H. eexists. split; [exists m; by split|exact H].
Qed.

End Spans.

Section Captures.

Lemma clearGroups_nil (x : mstate) : clearGroups [] x = x.
Proof. by destruct x. Qed.

Lemma clearGroups_other (gs : list nat) (x : mstate) (i : nat) :
  i ∉ gs -> m_caps (clearGroups gs x) !! i = m_caps x !! i.
Proof.
  intros Hi. unfold clearGroups. cbn [m_caps].
  induction gs as [|g gs IH]; simpl; [reflexivity|].
  rewrite lookup_delete_ne; [apply IH|]; set_solver.
Qed.

(** A run of [n] characters of a class. *)
Lemma iterate_class (p : Z -> bool) (n : nat) (x y : mstate) :
  iterate n (fun u v => spans (Chr p) (clearGroups (groups (Chr p)) u) v) x y ->
  m_pos y = (m_pos x + n)%nat
  /\ length (take n (m_rest x)) = n
  /\ Forall (fun c => p c = true) (take n (m_rest x))
  /\ m_caps y = m_caps x.
Proof.
  revert x. induction n as [|n IH]; intros x; cbn [iterate].
  - intros ->. rewrite take_0. repeat split; [lia|constructor].
  - intros (m & Hm & Hi). cbn [groups] in Hm. rewrite clearGroups_nil in Hm.
    cbn [spans] in Hm. destruct (m_rest x) as [|c t] eqn:E; [done|].
    destruct Hm as [Hc ->]. apply IH in Hi as (H1 & H2 & H3 & H4). cbn [m_pos m_rest m_caps] in *.
    repeat split; [lia|simpl; lia|by constructor|exact H4].
Qed.

(** What a pattern does not capture it leaves as it was. *)
Lemma spans_frame (r : regex) (i : nat) :
  i ∉ groups r -> forall x y, spans r x y -> m_caps y !! i = m_caps x !! i.
Proof.
  induction r as [|p|a IHa b IHb|a IHa b IHb|greedy min max a IHa|j a IHa| | |a IHa];
    intros Hi x y; cbn [spans groups] in *.
  - by intros ->.
  - destruct (m_rest x); [done|]. by intros [_ ->].
  - intros (m & Ha & Hb). rewrite (IHb ltac:(set_solver) _ _ Hb). apply IHa; [set_solver|done].
  - intros [H|H]; [apply IHa|apply IHb]; try done; set_solver.
  - intros (n & _ & _ & Hn). revert x Hn. induction n as [|n IHn]; intros x; cbn [iterate].
    + by intros ->.
    + intros (m & Hm & Hn). rewrite (IHn _ Hn), (IHa Hi _ _ Hm). by apply clearGroups_other.
  - intros (m & Hm & ->). cbn [m_caps]. rewrite lookup_insert_ne by set_solver.
    apply IHa; [set_solver|done].
  - by intros [_ ->].
  - by intros [_ ->].
  - intros (m & Hm & ->). cbn [m_caps]. by apply IHa.
Qed.

Lemma execFrom_spans (r : regex) (s : jsstring) (pos : nat) (m : match_result) :
  execFrom r pos s = Some m ->
  exists pos' s' y, spans r (MState pos' s' ∅) y /\ captures m = m_caps y.
Proof.
  revert pos. induction s as [|c t IH]; intros pos; cbn [execFrom].
  - destruct (matchAt r pos []) as [y|] eqn:E; [|discriminate]. intros [= <-].
    apply run_spans in E as (y' & Hy & [= ->]). by exists pos, [], y.
  - destruct (matchAt r pos (c :: t)) as [y|] eqn:E.
    + intros [= <-]. apply run_spans in E as (y' & Hy & [= ->]). by exists pos, (c :: t), y.
    + apply IH.
Qed.

Lemma exec_spans (r : regex) (s : jsstring) (m : match_result) :
  exec r s = Some m ->
  exists pos' s' y, spans r (MState pos' s' ∅) y /\ captures m = m_caps y.
Proof. apply execFrom_spans. Qed.

(** A pattern without the second group leaves that group as it was. *)
Ltac frame H :=
  match type of H with
  | spans ?r ?x ?y => rewrite (spans_frame r 2 ltac:(evaluate) x y H)
  end.

(** The second group of the lyricist pattern holds neither [作] nor [曲]. *)
Lemma lyricistRe_group (s : jsstring) (m : match_result) :
  exec lyricistRe s = Some m ->
  exists w, group m 2 = Some w /\ Forall (fun c => noneOf (js "作曲") c = true) w.
Proof.
  intros H. apply exec_spans in H as (pos & s' & y & Hy & Hc).
  unfold group. rewrite Hc. clear Hc m.
  unfold lyricistRe in Hy. cbn [seq foldr] in Hy.
  destruct Hy as (m1 & _ & m2 & _ & m3 & _ & m4 & H4 & m5 & H5 & ->).
  destruct H5 as (m' & Hm' & ->). cbn [m_caps].
  frame Hm'.
  destruct H4 as (m & Hm & ->). cbn [m_caps]. rewrite lookup_insert_eq.
  eexists. split; [reflexivity|].
  destruct Hm as (n & _ & _ & Hn). apply iterate_class in Hn as (H1 & H2 & H3 & H4).
  by replace (m_pos m - m_pos m3)%nat with n by lia.
Qed.

(** The second group of the album-context pattern, when set, is four digits. *)
Lemma albumLineRe_group (s : jsstring) (m : match_result) :
  exec albumLineRe s = Some m ->
  match group m 2 with
  | Some w => length w = 4%nat /\ Forall (fun c => digit c = true) w
  | None => True
  end.
Proof.
  intros H. apply exec_spans in H as (pos & s' & y & Hy & Hc).
  unfold group. rewrite Hc. clear Hc m.
  unfold albumLineRe in Hy. cbn [seq foldr] in Hy.
  destruct Hy as (m1 & H1 & m2 & H2 & m3 & H3 & m4 & H4 & m5 & H5 & m6 & H6 & m7 & H7
                  & m8 & H8 & m9 & H9 & m10 & H10 & m11 & H11 & ->).
  frame H11.
  frame H10.
  frame H9.
  destruct H8 as (n & _ & Hmax & Hn). specialize (Hmax 1%nat eq_refl).
  destruct n as [|[|n]]; [| |lia]; cbn [iterate] in Hn.
  - subst m8.
    frame H7.
    frame H6.
    frame H5.
    frame H4.
    frame H3.
    frame H2.
    frame H1.
    done.
  - destruct Hn as (m & Hm & ->). cbn [spans] in Hm.
    destruct Hm as (m' & Hm' & ->). cbn [m_caps]. rewrite lookup_insert_eq.
    destruct Hm' as (k & Hmin & Hmax' & Hk). specialize (Hmax' 4%nat eq_refl).
    assert (k = 4%nat) as -> by (destruct Hmin as [Hmin|[= <-]]; lia).
    apply iterate_class in Hk as (Hp & Hl & Hd & _).
    cbn [clearGroups m_pos m_rest] in *.
    by replace (m_pos m' - m_pos m7)%nat with 4%nat by lia.
Qed.

End Captures.

(** ** Lyricists and years of extracted tracks *)

Section Credits.

Lemma cutAt_chars (p : Z -> bool) (s : jsstring) :
  Forall (fun piece => forall c, c ∈ piece -> c ∈ s) (cutAt p s).
Proof.
  induction s as [|c s IH]; simpl.
  - constructor; [done|constructor].
  - assert (IH' : Forall (fun piece => forall x, x ∈ piece -> x ∈ c :: s) (cutAt p s)).
    { eapply Forall_impl; [exact IH|]. intros piece H x Hx. by apply list_elem_of_further, H. }
    destruct (p c).
    + constructor; [|exact IH']. intros x Hx. by apply elem_of_nil in Hx.
    + destruct (cutAt p s) as [|piece rest]; simpl.
      * constructor; [|constructor]. intros x ->%list_elem_of_singleton. apply list_elem_of_here.
      * apply Forall_cons in IH' as [H1 H2]. constructor; [|exact H2].
        intros x [->|Hx]%elem_of_cons; [apply list_elem_of_here|by apply H1].
Qed.

Lemma splitArtists_credit (w : jsstring) :
  Forall (fun c => noneOf (js "作曲") c = true) w -> Forall creditName (splitArtists w).
Proof.
  intros Hw. unfold splitArtists.
  change (List.filter truthy (List.map trim (Regex.split separators w)))
    with (entries (Regex.split (plus (Chr isSeparator)) w)).
  rewrite split_cutAt. unfold entries. apply Forall_forall. intros e He.
  apply list_elem_of_In, filter_In in He as [He _].
  apply in_map_iff in He as [piece [<- Hpiece]]. apply list_elem_of_In in Hpiece.
  apply Forall_trim. apply Forall_forall. intros c Hc. split.
  - apply (proj1 (Forall_forall _ _) Hw).
    by apply (proj1 (Forall_forall _ _) (cutAt_chars isSeparator w) piece Hpiece).
  - apply (proj1 (Forall_forall _ _)
             (proj1 (Forall_forall _ _) (cutAt_pieces isSeparator w) piece Hpiece) c Hc).
Qed.

Lemma applyCreditsFromLine_credit (line : jsstring) (d : Draft) :
  Forall creditName (d_lyricists d) ->
  Forall creditName (d_lyricists (fst (applyCreditsFromLine line d))).
Proof.
  intros Hd. unfold applyCreditsFromLine. cbv zeta.
  set (normalized := trim _).
  assert (H1 : Forall creditName (d_lyricists
    (fst (match exec lyricistRe normalized with
          | Some m =>
            if truthy (captured m 2) then
              ({| d_title := d_title d;
                  d_lyricists := d_lyricists d ++ splitArtists (captured m 2);
                  d_composers := d_composers d;
                  d_lines := d_lines d |}, true)
            else (d, false)
          | None => (d, false)
          end)))).
  { destruct (exec lyricistRe normalized) as [m|] eqn:E; [|exact Hd].
    destruct (truthy (captured m 2)); [|exact Hd]. simpl.
    apply Forall_app. split; [exact Hd|]. apply splitArtists_credit.
    apply lyricistRe_group in E as (w & Hw & Hp). unfold captured. by rewrite Hw. }
  destruct (match exec lyricistRe normalized with Some _ => _ | None => _ end) as [d1 a1].
  simpl in H1.
  destruct (exec composerRe normalized) as [m|]; [|exact H1].
  by destruct (truthy (captured m 2)).
Qed.

Lemma albumContext_year (line : jsstring) (m : match_result) (c : Context) :
  exec albumLineRe line = Some m -> yearOk (c_year c) -> yearOk (c_year (albumContext m c)).
Proof.
  intros Hm Hc. apply albumLineRe_group in Hm. unfold albumContext; simpl.
  destruct (group m 2) as [y|]; [|exact Hc]. by destruct (truthy y).
Qed.

Lemma flushDraft_credits (st : State) : creditsKept st -> creditsKept (flushDraft st).
Proof.
  intros Hst. pose proof Hst as (Htracks & Hyear & Hdraft). unfold flushDraft.
  destruct (s_draft st) as [d|] eqn:Hd; [|exact Hst].
  destruct (negb (truthy (d_title d)) || _).
  - split; [exact Htracks|]. split; [exact Hyear|discriminate].
  - split; [|split; [exact Hyear|discriminate]]. simpl.
    apply Forall_app. split; [exact Htracks|]. constructor; [|constructor].
    split; simpl; [|exact Hyear].
    intros names Hn. destruct (d_lyricists d) eqn:E; [discriminate|].
    injection Hn as <-. rewrite <- E. by apply Hdraft.
Qed.

Lemma withDraft_credits (st : State) (d : option Draft) (prev : bool) :
  creditsKept st -> (forall x, d = Some x -> Forall creditName (d_lyricists x)) ->
  creditsKept (withDraft st d prev).
Proof. intros (Htracks & Hyear & _) Hd. split; [exact Htracks|split; [exact Hyear|exact Hd]]. Qed.

Lemma step_credits (st : State) (line : jsstring) : creditsKept st -> creditsKept (step st line).
Proof.
  intros Hst. pose proof Hst as (Htracks & Hyear & Hdraft). unfold step.
  destruct (truthy (trim line)); simpl.
  2:{ apply withDraft_credits; [exact Hst|]. intros x Hx.
      destruct (s_draft st) as [d|]; [|discriminate]. injection Hx as <-.
      exact (Hdraft d eq_refl). }
  destruct (exec albumLineRe (trim line)) as [m|] eqn:Em.
  { split; [exact Htracks|split; [by eapply albumContext_year|exact Hdraft]]. }
  destruct (exec titleLineRe (trim line)) as [tm|].
  { apply withDraft_credits; [by apply flushDraft_credits|]. intros x [= <-].
    destruct (truthy _); [apply applyCreditsFromLine_credit|]; constructor. }
  destruct (s_prevWasEmpty st && looksLikeNakedTitle (trim line)).
  { apply withDraft_credits; [by apply flushDraft_credits|]. intros x [= <-]. constructor. }
  destruct (s_draft st) as [d|] eqn:Hd; [|by apply withDraft_credits].
  pose proof (applyCreditsFromLine_credit (trim line) d (Hdraft d eq_refl)) as Hc.
  destruct (applyCreditsFromLine (trim line) d) as [d' applied]. simpl in Hc.
  destruct (applied && isCreditOnlyLine (trim line)); apply withDraft_credits; try done;
    by intros x [= <-].
Qed.

Lemma loop_credits (lines : list jsstring) (st : State) :
  creditsKept st -> creditsKept (fold_left step lines st).
Proof.
  revert st. induction lines as [|line lines IH]; intros st Hst; simpl; [exact Hst|].
  by apply IH, step_credits.
Qed.

Lemma firstContext_year (lines : list jsstring) (c : Context) :
  yearOk (c_year c) -> yearOk (c_year (firstContext lines c)).
Proof.
  intros Hc. induction lines as [|line lines IH]; simpl; [exact Hc|].
  destruct (truthy (trim line)); [|exact IH].
  destruct (exec albumLineRe (trim line)) as [m|] eqn:Em; [|exact Hc].
  by eapply albumContext_year.
Qed.

Lemma extracted_credits (text : jsstring) (options : ParseOptions) :
  Forall creditsOk (Packgen.tracks (parseTextToPackage text options)).
Proof.
  unfold parseTextToPackage. cbn [Packgen.tracks].
  apply flushDraft_credits, loop_credits.
  split; [constructor|]. split; [by apply firstContext_year|discriminate].
Qed.

(** X24: no lyricist of an extracted track holds the character [作] or the
    character [曲], nor a separator: the credit pattern reads a name only up
    to the first [作] or [曲], and the names are cut at the separators. *)
Theorem extracted_lyricists_without_credit_characters (text : jsstring)
    (options : ParseOptions) :
  Forall
    (fun t => forall names, pt_lyricists t = Some names -> Forall creditName names)
    (Packgen.tracks (parseTextToPackage text options)).
Proof.
  eapply Forall_impl; [apply extracted_credits|]. by intros t [H _].
Qed.

Lemma digitPrefix_digits (w : jsstring) (count : nat) (acc : Z) :
  Forall (fun c => digit c = true) w ->
  digitPrefix 10 w count acc
  = ((count + length w)%nat, fold_left (fun acc c => acc * 10 + (c - 0x30)) w acc).
Proof.
  intros H. revert count acc. induction H as [|c w Hc _ IH]; intros count acc; simpl.
  - by rewrite Nat.add_0_r.
  - unfold digit, range in Hc. unfold digitValue. rewrite Hc.
    apply andb_true_iff in Hc as [H1 H2]. apply Z.leb_le in H1, H2.
    rewrite (proj2 (Z.ltb_lt (c - 48) 10)) by lia. rewrite IH. f_equal. lia.
Qed.

Lemma decimal_range (w : jsstring) (acc : Z) :
  Forall (fun c => digit c = true) w -> 0 <= acc ->
  0 <= fold_left (fun acc c => acc * 10 + (c - 0x30)) w acc
    < (acc + 1) * 10 ^ Z.of_nat (length w).
Proof.
  intros H. revert acc. induction H as [|c w Hc _ IH]; intros acc Hacc.
  - simpl. lia.
  - unfold digit, range in Hc. apply andb_true_iff in Hc as [H1 H2].
    apply Z.leb_le in H1, H2. cbn [fold_left length].
    specialize (IH (acc * 10 + (c - 48)) ltac:(lia)).
    rewrite Nat2Z.inj_succ, Z.pow_succ_r by lia.
    assert (0 < 10 ^ Z.of_nat (length w)) by (apply Z.pow_pos_nonneg; lia). nia.
Qed.

Lemma parseInt_digits (w : jsstring) :
  fourDigits w -> parseInt w 10 = Int (decimal w) /\ 0 <= decimal w <= 9999.
Proof.
  intros [Hlen Hd]. pose proof (decimal_range w 0 Hd ltac:(lia)) as Hr.
  rewrite Hlen in Hr. change (10 ^ Z.of_nat 4) with 10000 in Hr. fold (decimal w) in Hr.
  split; [|lia]. destruct w as [|c w]; [discriminate|].
  pose proof (Forall_inv Hd) as Hc. unfold digit, range in Hc.
  apply andb_true_iff in Hc as [H1 H2]. apply Z.leb_le in H1, H2.
  assert (Hcases : c = 48 \/ c = 49 \/ c = 50 \/ c = 51 \/ c = 52 \/ c = 53 \/ c = 54
                   \/ c = 55 \/ c = 56 \/ c = 57) by lia.
  unfold parseInt.
  assert (Hprefix : digitPrefix 10 (c :: w) 0 0 = (length (c :: w), decimal (c :: w)))
    by (by rewrite digitPrefix_digits).
  assert (Hround : roundToDouble (decimal (c :: w)) = Some (decimal (c :: w))).
  { unfold roundToDouble. by rewrite (proj2 (Z.ltb_lt _ (2 ^ 53))) by lia. }
  repeat (destruct Hcases as [->|Hcases]);
    try subst c;
    (cbn [trimStart isWhiteSpace Z.eqb Z.leb Z.compare Pos.eqb Pos.compare
          Pos.compare_cont orb andb];
     destruct w as [|x w];
     cbn [Z.eqb Pos.eqb andb]; rewrite Hprefix, Hround; reflexivity).
Qed.

(** X25: the year of an extracted track, when it has one, is four digits;
    the validator reads it as the integer they stand for, which lies
    between 0 and 9999. *)
Theorem extracted_years_four_digits (text : jsstring) (options : ParseOptions) :
  Forall
    (fun t =>
       match pt_year t with
       | Some w =>
         fourDigits w
         /\ 0 <= decimal w <= 9999
         /\ normalizeYear (Some (inl w)) = (Some (Int (decimal w)), numberToString (Int (decimal w)))
       | None => True
       end)
    (Packgen.tracks (parseTextToPackage text options)).
Proof.
  eapply Forall_impl; [apply extracted_credits|]. intros t [_ H].
  destruct (pt_year t) as [w|]; [|done]. simpl in H.
  destruct (parseInt_digits w H) as [Hp Hr].
  split; [exact H|]. split; [exact Hr|].
  destruct w as [|c w]; [by destruct H|].
  change (normalizeYear (Some (inl (c :: w))))
    with (if Number_isFinite (parseInt (c :: w) 10)
          then (Some (parseInt (c :: w) 10), numberToString (parseInt (c :: w) 10))
          else (None, c :: w)).
  by rewrite Hp.
Qed.

End Credits.

Lemma statistics_keep_most_frequent_witness :
  {| token := js "吹过"; count := 1 |}
    ∈ buildBigramStats (Some wordsBetweenSpaces)
        [trackOf (js "1") (js "雾灯之外") (js "春风 吹过 春风 山岗" ++ [LF] ++ js "山岗 春风")]
        (Some 2) None
  \/ Forall (fun e => 1 <= count e)
       (buildBigramStats (Some wordsBetweenSpaces)
          [trackOf (js "1") (js "雾灯之外") (js "春风 吹过 春风 山岗" ++ [LF] ++ js "山岗 春风")]
          (Some 2) None).
Proof.
  apply (statistics_keep_most_frequent (Some wordsBetweenSpaces)
           [trackOf (js "1") (js "雾灯之外") (js "春风 吹过 春风 山岗" ++ [LF] ++ js "山岗 春风")]
           (Some 2) None (js "吹过") 1).
  evaluate.
Defined.

Example most_frequent :
  buildBigramStats (Some wordsBetweenSpaces)
    [trackOf (js "1") (js "雾灯之外") (js "春风 吹过 春风 山岗" ++ [LF] ++ js "山岗 春风")]
    (Some 2) None
  = [{| token := js "春风"; count := 3 |}; {| token := js "山岗"; count := 2 |}].
Proof. vm_compute. reflexivity. Qed.

Lemma fallbackSearch_narrows_witness :
  let tracks :=
    [trackOf (js "1") (js "雾灯之外") (js "Hello 雾灯");
     trackOf (js "2") (js "回声") (js "山岗 hello")] in
  sublist (fallbackSearch asciiLowerCase tracks (js "HELLO 雾"))
    (fallbackSearch asciiLowerCase tracks (js " hello "))
  /\ sublist (fallbackSearch asciiLowerCase tracks (js " hello ")) tracks
  /\ (asciiLowerCase (trim (js " hello ")) = [] ->
      fallbackSearch asciiLowerCase tracks (js " hello ") = tracks).
Proof.
  apply (fallbackSearch_narrows asciiLowerCase
           [trackOf (js "1") (js "雾灯之外") (js "Hello 雾灯");
            trackOf (js "2") (js "回声") (js "山岗 hello")]
           (js " hello ") (js "HELLO 雾")).
  vm_compute. reflexivity.
Defined.

Example searches :
  let tracks :=
    [trackOf (js "1") (js "雾灯之外") (js "Hello 雾灯");
     trackOf (js "2") (js "回声") (js "山岗 hello")] in
  List.map id (fallbackSearch asciiLowerCase tracks (js " hello ")) = [js "1"; js "2"]
  /\ List.map id (fallbackSearch asciiLowerCase tracks (js "HELLO 雾")) = [js "1"]
  /\ List.map id (fallbackSearch asciiLowerCase tracks (js "未归档 未知 佚名")) = [js "1"; js "2"]
  /\ id <$> byId (tracks ++ [trackOf (js "1") (js "山岗") []]) !! js "1" = Some (js "1")
  /\ title <$> byId (tracks ++ [trackOf (js "1") (js "山岗") []]) !! js "1" = Some (js "山岗").
Proof. vm_compute. repeat split. Qed.

(** ** What the snippet locator leaves out *)

Section Coverage.

Variable toLowerCase : jsstring -> jsstring.

(** One track's scan, in full: what it adds to the results, to the seen
    lines and to the counts, and why a line with the term is not among the
    seen lines afterwards. *)
Lemma scanLines_covered (trimmed : jsstring) (limit : Z) (track : TrackRecord)
    (lines : list jsstring) (st st' : Scan) (returned : bool) :
  scanLines toLowerCase trimmed limit track lines st = (st', returned) ->
  exists chunk,
    results st' = results st ++ chunk
    /\ usedBy st' track = (usedBy st track + length chunk)%nat
    /\ (usedBy st' track <= Nat.max (usedBy st track) 2)%nat
    /\ (forall other, id other <> id track -> usedBy st' other = usedBy st other)
    /\ (forall x, x ∈ seen st' <-> x ∈ seen st \/ x ∈ List.map line chunk)
    /\ Forall (fun s => s_title s = title track
                        /\ exists l, l ∈ lines /\ line s = trim l) chunk
    /\ (if returned then limit <= Z.of_nat (length (results st'))
        else Forall (fun l => hit toLowerCase trimmed l = true ->
                              trim l ∈ seen st' \/ (2 <= usedBy st' track)%nat) lines).
Proof.
  revert st. induction lines as [|l lines IH]; intros st.
  - intros [= <- <-]. exists []. rewrite app_nil_r, Nat.add_0_r.
    split; [reflexivity|]. split; [reflexivity|]. split; [lia|]. split; [reflexivity|].
    split; [|split; constructor]. intros x. split; [by left|].
    intros [H|H]; [exact H|]. by apply elem_of_nil in H.
  - rewrite scanLines_cons.
    destruct (limit <=? Z.of_nat (length (results st))) eqn:Hfull.
    { intros [= <- <-]. exists []. rewrite app_nil_r, Nat.add_0_r.
      split; [reflexivity|]. split; [reflexivity|]. split; [lia|]. split; [reflexivity|].
      split; [|split; [constructor|by apply Z.leb_le]]. intros x. split; [by left|].
      intros [H|H]; [exact H|]. by apply elem_of_nil in H. }
    assert (Hskip : (hit toLowerCase trimmed l = true ->
                     trim l ∈ seen st \/ (2 <= usedBy st track)%nat) ->
            scanLines toLowerCase trimmed limit track lines st = (st', returned) ->
            exists chunk,
              results st' = results st ++ chunk
              /\ usedBy st' track = (usedBy st track + length chunk)%nat
              /\ (usedBy st' track <= Nat.max (usedBy st track) 2)%nat
              /\ (forall other, id other <> id track -> usedBy st' other = usedBy st other)
              /\ (forall x, x ∈ seen st' <-> x ∈ seen st \/ x ∈ List.map line chunk)
              /\ Forall (fun s => s_title s = title track
                                  /\ exists l', l' ∈ l :: lines /\ line s = trim l') chunk
              /\ (if returned then limit <= Z.of_nat (length (results st'))
                  else Forall (fun l' => hit toLowerCase trimmed l' = true ->
                                         trim l' ∈ seen st' \/ (2 <= usedBy st' track)%nat)
                         (l :: lines))).
    { intros Hl H. destruct (IH st H) as (chunk & H1 & H2 & H3 & H4 & H5 & H6 & H7).
      exists chunk. repeat split; try assumption; try apply H5.
      - eapply Forall_impl; [exact H6|]. intros s [Ht [l' [Hl' Hs]]].
        split; [exact Ht|]. exists l'. split; [by apply list_elem_of_further|exact Hs].
      - destruct returned; [exact H7|]. constructor; [|exact H7].
        intros Hhit. destruct (Hl Hhit) as [Hseen|Hused].
        + left. apply H5. by left.
        + right. lia. }
    unfold hit in *.
    destruct (truthy (trim l)); [|apply Hskip; discriminate].
    destruct (includes (toLowerCase (trim l)) trimmed); [|apply Hskip; discriminate].
    destruct (bool_decide (trim l ∈ seen st)) eqn:Hseen.
    { apply Hskip. intros _. left. by apply bool_decide_eq_true in Hseen. }
    destruct (2 <=? usedBy st track)%nat eqn:Hused.
    { apply Hskip. intros _. right. by apply Nat.leb_le in Hused. }
    apply Nat.leb_gt in Hused. intros H.
    destruct (IH _ H) as (chunk & H1 & H2 & H3 & H4 & H5 & H6 & H7).
    assert (Hnow :
              usedBy
                {| results := results st ++ [{| line := trim l; s_title := title track |}];
                   seen := {[trim l]} ∪ seen st;
                   perTrackCount := <[id track := S (usedBy st track)]> (perTrackCount st) |}
                track
              = S (usedBy st track)).
    { unfold usedBy at 1. cbn [perTrackCount]. by rewrite lookup_insert_eq. }
    rewrite Hnow in H2, H3. cbn [results] in H1. cbn [seen] in H5.
    exists ({| line := trim l; s_title := title track |} :: chunk).
    rewrite H1, <- app_assoc. repeat split.
    + simpl. lia.
    + lia.
    + intros other Hother. rewrite (H4 other Hother).
      unfold usedBy. cbn [perTrackCount]. by rewrite lookup_insert_ne.
    + intros Hx. apply H5 in Hx as [Hx|Hx].
      * apply elem_of_union in Hx as [Hx|Hx]; [|by left].
        apply elem_of_singleton in Hx as ->. right. apply list_elem_of_here.
      * right. simpl. by apply list_elem_of_further.
    + intros [Hx|Hx].
      * apply H5. left. by apply elem_of_union_r.
      * simpl in Hx. apply elem_of_cons in Hx as [->|Hx].
        -- apply H5. left. apply elem_of_union_l. by apply elem_of_singleton.
        -- apply H5. by right.
    + constructor.
      * split; [reflexivity|]. exists l. split; [apply list_elem_of_here|reflexivity].
      * eapply Forall_impl; [exact H6|]. intros s [Ht [l' [Hl' Hs]]].
        split; [exact Ht|]. exists l'. split; [by apply list_elem_of_further|exact Hs].
    + destruct returned; [by rewrite app_assoc, <- H1|]. constructor; [|exact H7].
      intros _. left. apply H5. left. apply elem_of_union_l. by apply elem_of_singleton.
Qed.

Lemma concat_nils {A B} (l : list A) : concat (List.map (fun _ => @nil B) l) = [].
Proof. induction l; simpl; [reflexivity|assumption]. Qed.

Lemma scanTracks_covered (trimmed : jsstring) (limit : Z) (tracks : list TrackRecord)
    (st : Scan) :
  NoDup (List.map id tracks) ->
  Forall (fun track => usedBy st track = O) tracks ->
  exists final chunks,
    scanTracks toLowerCase trimmed limit tracks st = results final
    /\ results final = results st ++ concat chunks
    /\ (forall x, x ∈ seen final <-> x ∈ seen st \/ x ∈ List.map line (concat chunks))
    /\ Forall2 (fun track chunk =>
                  Forall (fromTrack track) chunk
                  /\ (limit <= Z.of_nat (length (results final))
                      \/ length chunk = 2%nat
                      \/ Forall (fun l => hit toLowerCase trimmed l = true ->
                                          trim l ∈ seen final)
                           (split_on LF (lyrics track))))
         tracks chunks.
Proof.
  revert st. induction tracks as [|track tracks IH]; intros st Hids Hfresh; simpl.
  - exists st, []. simpl. rewrite app_nil_r.
    split; [reflexivity|]. split; [reflexivity|]. split; [|constructor].
    intros x. split; [by left|]. intros [H|H]; [exact H|]. by apply elem_of_nil in H.
  - simpl in Hids. apply NoDup_cons in Hids as [Hid Hids].
    apply Forall_cons in Hfresh as [Hzero Hfresh].
    destruct (scanLines toLowerCase trimmed limit track (split_on LF (lyrics track)) st)
      as [st' returned] eqn:Hscan.
    destruct (scanLines_covered _ _ _ _ _ _ _ Hscan)
      as (chunk & H1 & H2 & H3 & H4 & H5 & H6 & H7).
    destruct returned.
    + exists st', (chunk :: List.map (fun _ => []) tracks). simpl.
      rewrite concat_nils, app_nil_r. repeat split; try assumption; try apply H5.
      constructor; [split; [exact H6|by left]|].
      clear -H7. induction tracks; simpl; constructor; [|assumption].
      split; [constructor|by left].
    + destruct (IH st' Hids) as (final & chunks & Hr & Hres & Hseen & Hall).
      { apply Forall_forall. intros other Hother. rewrite H4.
        - by apply (proj1 (Forall_forall _ _) Hfresh).
        - intros Heq. apply Hid. rewrite <- Heq.
          apply list_elem_of_In, in_map, list_elem_of_In, Hother. }
      exists final, (chunk :: chunks). simpl. repeat split.
      * exact Hr.
      * by rewrite Hres, H1, app_assoc.
      * intros Hx. apply Hseen in Hx as [Hx|Hx].
        -- apply H5 in Hx as [Hx|Hx]; [by left|].
           right. rewrite map_app. apply elem_of_app. by left.
        -- right. rewrite map_app. apply elem_of_app. by right.
      * intros [Hx|Hx].
        -- apply Hseen. left. apply H5. by left.
        -- rewrite map_app in Hx. apply elem_of_app in Hx as [Hx|Hx].
           ++ apply Hseen. left. apply H5. by right.
           ++ apply Hseen. by right.
      * constructor; [|exact Hall]. split; [exact H6|].
        right. rewrite Hzero in H2, H3. simpl in H2, H3.
        destruct (decide (length chunk = 2%nat)) as [Htwo|Htwo]; [by left|right].
        eapply Forall_impl; [exact H7|]. intros l Hl Hhit.
        destruct (Hl Hhit) as [Hin|Hfull]; [|lia].
        apply Hseen. by left.
Qed.

(** X26: over tracks with pairwise distinct ids and with a term that is not
    blank in lower case, when the snippet locator returns fewer results than
    its limit, nothing was cut off: the results are, track by track in order,
    lines of each track, and for every track either two results come from it
    or every line of it whose trimmed form is not empty and contains the term
    in lower case is among the results, trimmed. *)
Theorem extractFocusedSnippets_misses_nothing (tracks : list TrackRecord) (term : jsstring)
    (limit : option Z) :
  NoDup (List.map id tracks) ->
  toLowerCase (trim term) <> [] ->
  let found := extractFocusedSnippets toLowerCase tracks term limit in
  Z.of_nat (length found) < default 8 limit ->
  exists chunks,
    found = concat chunks
    /\ Forall2 (fun track chunk =>
                  Forall (fromTrack track) chunk
                  /\ (length chunk = 2%nat
                      \/ Forall (fun l => hit toLowerCase (toLowerCase (trim term)) l = true ->
                                          trim l ∈ List.map line found)
                           (split_on LF (lyrics track))))
         tracks chunks.
Proof.
  intros Hids Hterm found. unfold found, extractFocusedSnippets.
  destruct (toLowerCase (trim term)) as [|c w] eqn:Hlower; [done|].
  cbn [truthy negb]. rewrite <- Hlower. clear c w Hlower Hterm.
  destruct (scanTracks_covered (toLowerCase (trim term)) (default 8 limit) tracks
              {| results := []; seen := ∅; perTrackCount := ∅ |} Hids)
    as (final & chunks & Hr & Hres & Hseen & Hall).
  { apply Forall_forall. intros track _. unfold usedBy. cbn [perTrackCount].
    by rewrite lookup_empty. }
  rewrite Hr. intros Hshort. exists chunks. split; [exact Hres|].
  eapply Forall2_impl; [exact Hall|]. intros track chunk [Hfrom Hcases].
  split; [exact Hfrom|]. destruct Hcases as [Hfull|[Htwo|Hlines]]; [lia|by left|right].
  eapply Forall_impl; [exact Hlines|]. intros l Hl Hhit.
  apply Hl, Hseen in Hhit as [Hin|Hin]; [by apply elem_of_empty in Hin|].
  by rewrite Hres.
Qed.

End Coverage.

Lemma extractFocusedSnippets_misses_nothing_witness :
  let tracks :=
    [trackOf (js "1") (js "雾灯之外")
       (js "Hello 雾灯" ++ [LF] ++ js " hello 雾灯 " ++ [LF] ++ js "HELLO 山岗"
        ++ [LF] ++ js "hello 春风");
     trackOf (js "2") (js "回声") (js "hello 山岗" ++ [LF] ++ js "hello 雾灯")] in
  let found := extractFocusedSnippets asciiLowerCase tracks (js " Hello ") None in
  exists chunks,
    found = concat chunks
    /\ Forall2 (fun track chunk =>
                  Forall (fromTrack track) chunk
                  /\ (length chunk = 2%nat
                      \/ Forall (fun l => hit asciiLowerCase (asciiLowerCase (trim (js " Hello "))) l
                                          = true ->
                                          trim l ∈ List.map line found)
                           (split_on LF (lyrics track))))
         tracks chunks.
Proof.
  refine (extractFocusedSnippets_misses_nothing asciiLowerCase
            [trackOf (js "1") (js "雾灯之外")
               (js "Hello 雾灯" ++ [LF] ++ js " hello 雾灯 " ++ [LF] ++ js "HELLO 山岗"
                ++ [LF] ++ js "hello 春风");
             trackOf (js "2") (js "回声") (js "hello 山岗" ++ [LF] ++ js "hello 雾灯")]
            (js " Hello ") None _ _ _).
  - evaluate.
  - evaluate.
  - vm_compute. reflexivity.
Defined.

(** ** The snippet locator with any limit *)

Section Limits.

Variable toLowerCase : jsstring -> jsstring.

Lemma scanTracks_none (trimmed : jsstring) (limit : Z) (tracks : list TrackRecord) :
  limit < 0 ->
  scanTracks toLowerCase trimmed limit tracks
    {| results := []; seen := ∅; perTrackCount := ∅ |} = [].
Proof.
  intros Hlimit. destruct tracks as [|track tracks]; simpl; [reflexivity|].
  destruct (split_on_cons LF (lyrics track)) as (l & ls & ->).
  rewrite scanLines_cons. cbn [results length].
  by rewrite (proj2 (Z.leb_le limit (Z.of_nat 0))) by lia.
Qed.

(** X27: whatever the limit (the page asks for 15, the default is 8), the
    snippet locator returns at most that many results, none at all for a
    limit below zero; every returned line is trimmed and contains the
    trimmed term when both are put in lower case; no line is returned
    twice; and the results are, track by track in order, at most 2 lines of
    each track. *)
Theorem extractFocusedSnippets_caps_any_limit (tracks : list TrackRecord) (term : jsstring)
    (limit : option Z) :
  let found := extractFocusedSnippets toLowerCase tracks term limit in
  Z.of_nat (length found) <= Z.max (default 8 limit) 0
  /\ Forall (fun s => includes (toLowerCase (line s)) (toLowerCase (trim term)) = true
                      /\ trim (line s) = line s) found
  /\ NoDup (List.map line found)
  /\ exists chunks,
       found = concat chunks
       /\ Forall2 (fun track chunk => (length chunk <= 2)%nat /\ Forall (fromTrack track) chunk)
            tracks chunks.
Proof.
  intros found. unfold found, extractFocusedSnippets.
  assert (Hnone : let none : list Snippet := [] in
            Z.of_nat (length none) <= Z.max (default 8 limit) 0
            /\ Forall (fun s => includes (toLowerCase (line s)) (toLowerCase (trim term)) = true
                                /\ trim (line s) = line s) none
            /\ NoDup (List.map line none)
            /\ exists chunks,
                 none = concat chunks
                 /\ Forall2 (fun track chunk =>
                               (length chunk <= 2)%nat /\ Forall (fromTrack track) chunk)
                      tracks chunks).
  { repeat split; [simpl; lia|constructor|constructor|].
    exists (List.map (fun _ => []) tracks). split; [by rewrite concat_nils|].
    clear. induction tracks; simpl; constructor; [|assumption].
    split; [simpl; lia|constructor]. }
  destruct (truthy (toLowerCase (trim term))); simpl; [|exact Hnone].
  destruct (Z.lt_ge_cases (default 8 limit) 0) as [Hneg|Hlimit].
  { rewrite scanTracks_none by exact Hneg. exact Hnone. }
  destruct (scanTracks_chunks toLowerCase (toLowerCase (trim term)) (default 8 limit) tracks
              {| results := []; seen := ∅; perTrackCount := ∅ |} Hlimit)
    as (final & chunks & Hr & (Hlen & Hall & Hnd & _) & Hres & Hchunks).
  { repeat split; simpl; [lia|constructor|constructor|].
    intros s Hs. by apply elem_of_nil in Hs. }
  rewrite Hr. repeat split.
  - lia.
  - exact Hall.
  - exact Hnd.
  - exists chunks. split; [exact Hres|exact Hchunks].
Qed.

End Limits.

(** ** The text normalizer, pass after pass (C2) *)

Section MatchLengths.

(** A match ends further on in the subject, by the least length of the
    pattern at least. *)
Lemma spans_reaches (r : regex) :
  forall x y, spans r x y -> reaches x y /\ (m_pos x + minLength r <= m_pos y)%nat.
Proof.
  induction r as [|p|a IHa b IHb|a IHa b IHb|greedy min max a IHa|i a IHa| | |a IHa];
    intros x y; cbn [spans minLength].
  - intros ->. split; [apply reaches_refl|lia].
  - destruct (m_rest x) as [|c t] eqn:Hrest; [done|]. intros [_ ->].
    unfold reaches. cbn [m_pos m_rest]. rewrite Hrest. simpl. lia.
  - intros (m & Ha & Hb). apply IHa in Ha as [Ha1 Ha2]. apply IHb in Hb as [Hb1 Hb2].
    split; [by apply (reaches_trans x m y)|lia].
  - intros [H|H]; [apply IHa in H|apply IHb in H]; destruct H as [H1 H2]; (split; [exact H1|lia]).
  - intros (n & _ & _ & Hn).
    assert (Hr : reaches x y); [|split; [exact Hr|unfold reaches in Hr; lia]].
    revert x Hn. induction n as [|n IHn]; intros x; cbn [iterate].
    + intros ->. apply reaches_refl.
    + intros (m & Hm & Hn). apply IHa in Hm as [Hm _]. apply IHn in Hn.
      apply (reaches_trans x m y); [|exact Hn]. exact Hm.
  - intros (m & Hm & ->). apply IHa in Hm as [H1 H2]. split; [exact H1|exact H2].
  - intros [_ ->]. split; [apply reaches_refl|lia].
  - intros [_ ->]. split; [apply reaches_refl|lia].
  - intros (m & _ & ->). split; [|simpl; lia]. unfold reaches. simpl. lia.
Qed.

Lemma matchAt_length (r : regex) (pos : nat) (s : jsstring) (y : mstate) :
  matchAt r pos s = Some y ->
  (pos + minLength r <= m_pos y)%nat /\ (m_pos y - pos <= length s)%nat.
Proof.
  unfold matchAt. intros H. apply run_spans in H as (y' & Hy & [= ->]).
  apply spans_reaches in Hy as [[H1 H2] H3]. cbn [m_pos m_rest] in *. lia.
Qed.

(** Where the pattern matches nowhere the text is left as it is. *)
Lemma replaceFrom_same (r : regex) (f : match_result -> jsstring) (s : jsstring) :
  forall pos, execFrom r pos s = None -> replaceFrom r f pos 0 s = s.
Proof.
  induction s as [|c t IH]; intros pos; cbn [execFrom replaceFrom].
  - by destruct (matchAt r pos []).
  - destruct (matchAt r pos (c :: t)); [discriminate|]. intros H. by rewrite IH.
Qed.

Lemma replaceAll_same (r : regex) (f : match_result -> jsstring) (s : jsstring) :
  test r s = false -> replaceAll r f s = s.
Proof.
  unfold test, exec, replaceAll. intros H. apply replaceFrom_same.
  by destruct (execFrom r 0 s).
Qed.

Section OneStep.

Variables (r : regex) (f : match_result -> jsstring) (d : nat).
Hypothesis step_shortens : shortens d (r, f).

Lemma replaceFrom_length (s : jsstring) :
  forall pos skip,
    (skip <= length s)%nat ->
    (length (replaceFrom r f pos skip s) + skip <= length s)%nat.
Proof.
  destruct step_shortens as [Hmin Hf]. cbn [fst snd] in Hmin, Hf.
  induction s as [|c t IH]; intros pos skip Hskip; cbn [replaceFrom].
  - destruct skip as [|skip]; [|simpl in Hskip; lia].
    destruct (matchAt r pos []) as [y|] eqn:E; [|simpl; lia].
    apply matchAt_length in E. simpl in E. lia.
  - destruct skip as [|skip].
    + destruct (matchAt r pos (c :: t)) as [y|] eqn:E.
      * apply matchAt_length in E as [E1 E2]. cbn [length] in E2.
        destruct (m_pos y - pos)%nat as [|n] eqn:En; [lia|].
        rewrite length_app. pose proof (IH (S pos) n ltac:(lia)).
        pose proof (Hf (result_of pos (c :: t) y)). cbn [length]. lia.
      * cbn [length]. pose proof (IH (S pos) O ltac:(lia)). lia.
    + cbn [length] in *. pose proof (IH (S pos) skip ltac:(lia)). lia.
Qed.

Lemma replaceFrom_shorter (s : jsstring) :
  forall pos,
    execFrom r pos s <> None ->
    (length (replaceFrom r f pos 0 s) + d <= length s)%nat.
Proof.
  destruct step_shortens as [Hmin Hf]. cbn [fst snd] in Hmin, Hf.
  induction s as [|c t IH]; intros pos; cbn [execFrom replaceFrom].
  - destruct (matchAt r pos []) as [y|] eqn:E; [|done].
    apply matchAt_length in E. simpl in E. lia.
  - destruct (matchAt r pos (c :: t)) as [y|] eqn:E.
    + intros _. apply matchAt_length in E as [E1 E2]. cbn [length] in E2.
      destruct (m_pos y - pos)%nat as [|n] eqn:En; [lia|].
      rewrite length_app. pose proof (replaceFrom_length t (S pos) n ltac:(lia)).
      pose proof (Hf (result_of pos (c :: t) y)). cbn [length]. lia.
    + intros H. apply IH in H. cbn [length]. lia.
Qed.

Lemma replaceAll_length (s : jsstring) : (length (replaceAll r f s) <= length s)%nat.
Proof.
  unfold replaceAll. pose proof (replaceFrom_length s O O ltac:(lia)). lia.
Qed.

Lemma replaceAll_shorter (s : jsstring) :
  test r s = true -> (length (replaceAll r f s) + d <= length s)%nat.
Proof.
  unfold test, exec, replaceAll. intros H. apply replaceFrom_shorter.
  by destruct (execFrom r 0 s).
Qed.

End OneStep.

Lemma shortens_less (d : nat) (step : Step) : shortens (S d) step -> shortens d step.
Proof. intros [H1 H2]. split; [exact H1|]. intros m. specialize (H2 m). lia. Qed.

Lemma replaceEach_same (steps : list Step) (s : jsstring) :
  existsb (fun step => test (fst step) s) steps = false -> replaceEach steps s = s.
Proof.
  unfold replaceEach. induction steps as [|[r f] steps IH]; cbn [existsb fold_left fst snd];
    [reflexivity|].
  intros H. apply orb_false_iff in H as [H1 H2]. rewrite replaceAll_same by exact H1.
  by apply IH.
Qed.

Lemma replaceEach_length (steps : list Step) :
  Forall (shortens 0) steps ->
  forall s, (length (replaceEach steps s) <= length s)%nat.
Proof.
  unfold replaceEach. induction 1 as [|[r f] steps Hstep _ IH]; intros s;
    cbn [fold_left fst snd]; [lia|].
  pose proof (replaceAll_length r f 0 Hstep s). pose proof (IH (replaceAll r f s)). lia.
Qed.

Lemma replaceEach_shorter (steps : list Step) :
  Forall (shortens 1) steps ->
  forall s,
    existsb (fun step => test (fst step) s) steps = true ->
    (length (replaceEach steps s) < length s)%nat.
Proof.
  induction 1 as [|[r f] steps Hstep Hsteps IH]; intros s; cbn [existsb fst]; [discriminate|].
  change (replaceEach ((r, f) :: steps) s) with (replaceEach steps (replaceAll r f s)).
  destruct (test r s) eqn:E; cbn [orb].
  - intros _. pose proof (replaceAll_shorter r f 1 Hstep s E).
    assert (Hrest : Forall (shortens 0) steps).
    { eapply Forall_impl; [exact Hsteps|]. apply shortens_less. }
    pose proof (replaceEach_length steps Hrest (replaceAll r f s)). lia.
  - intros H. rewrite replaceAll_same by exact E. by apply IH.
Qed.

End MatchLengths.

Section Passes.

Lemma fromCharCode_length (x : number) : length (fromCharCode x) = 1%nat.
Proof. by destruct x. Qed.

Lemma entitySteps_shorten : Forall (shortens 1) entitySteps.
Proof.
  unfold entitySteps.
  repeat (apply Forall_cons; split;
          [split; [vm_compute; lia|intros m; cbn [snd]; try rewrite fromCharCode_length;
                   vm_compute; lia]|]).
  constructor.
Qed.

Lemma lineSteps_shorten : Forall (shortens 0) lineSteps.
Proof.
  unfold lineSteps.
  repeat (apply Forall_cons; split; [split; [vm_compute; lia|intros m; vm_compute; lia]|]).
  constructor.
Qed.

Lemma decodeEntities_steps (s : jsstring) : decodeEntities s = replaceEach entitySteps s.
Proof. reflexivity. Qed.

Lemma normalizeText_steps (s : jsstring) :
  normalizeText s = replaceEach lineSteps (decodeEntities s).
Proof. reflexivity. Qed.

(** Text without carriage return and no-break space that the decoding leaves
    alone is left as it is. *)
Lemma normalizeText_settled (y : jsstring) :
  decodeEntities y = y -> CR ∉ y -> NBSP ∉ y -> normalizeText y = y.
Proof.
  intros Hdecoded Hcr Hnbsp. unfold normalizeText. rewrite Hdecoded.
  assert (Hcrs : Forall (fun c => just CR c = false) y).
  { apply (Forall_other _ CR); [apply just_other|exact Hcr]. }
  rewrite (replaceAll_unchanged (just CR) _ _ y (leading_lit CR [LF]) Hcrs).
  rewrite (replaceAll_unchanged (just CR) _ _ y (leading_lit CR []) Hcrs).
  apply (replaceAll_unchanged (just NBSP)); [apply leading_lit|].
  apply (Forall_other _ NBSP); [apply just_other|exact Hnbsp].
Qed.

(** C2, as the code has it: normalizing a normalized text again changes
    nothing exactly when the normalized text holds no entity, that is, no
    match of one of the patterns [decodeEntities] replaces; a text with an
    ampersand that opens no entity is left alone, and a normalized text that
    still holds an entity gets shorter. *)
Theorem C2_normalizeText_idempotent_without_entity (x : jsstring) :
  normalizeText (normalizeText x) = normalizeText x
  <-> holdsEntity (normalizeText x) = false.
Proof.
  split.
  - intros H. destruct (holdsEntity (normalizeText x)) eqn:E; [exfalso|reflexivity].
    apply (replaceEach_shorter entitySteps entitySteps_shorten) in E.
    rewrite <- decodeEntities_steps in E.
    pose proof (replaceEach_length lineSteps lineSteps_shorten
                  (decodeEntities (normalizeText x))) as Hlen.
    rewrite <- normalizeText_steps, H in Hlen. lia.
  - intros H. destruct (normalizeText_clean x) as [Hcr Hnbsp].
    apply normalizeText_settled; [|exact Hcr|exact Hnbsp].
    rewrite decodeEntities_steps. by apply replaceEach_same.
Qed.

End Passes.

Lemma C2_normalizeText_fixed_point :
  holdsEntity (normalizeText (js "R&amp;B &lt;雾灯&gt;")) = false
  /\ normalizeText (normalizeText (js "R&amp;B &lt;雾灯&gt;")) = normalizeText (js "R&amp;B &lt;雾灯&gt;").
Proof.
  assert (H : holdsEntity (normalizeText (js "R&amp;B &lt;雾灯&gt;")) = false)
    by (vm_compute; reflexivity).
  split; [exact H|].
  exact (proj2 (C2_normalizeText_idempotent_without_entity (js "R&amp;B &lt;雾灯&gt;")) H).
Defined.

(** ** A line repeated within a track (C5) *)

Section RepeatedLine.

Variable Segmenter : option (jsstring -> list jsstring).




End RepeatedLine.


(** ** Lyricists given as a text (C9) *)

Section LyricistText.

(** C9, as the code has it: the lyricists of a canonical track are never
    empty, and each is the sentinel or a name that is not empty, is trimmed
    and holds no separator; for a lyricists value that is a string (or is
    absent) they are the pieces the string falls into at the separators
    [、] [,] [，] [;] [/] [|], each trimmed, the empty ones dropped, in order
    and with their repetitions, or the sentinel alone when nothing is
    left. *)
Theorem C9_lyricists_of_track (artist : jsstring) (track : TrackInput) :
  lyricists (normalizeTrack artist track) <> []
  /\ Forall (fun e => e <> [] /\ trim e = e /\ Forall (fun c => isSeparator c = false) e
                      \/ e = ANONYMOUS)
       (lyricists (normalizeTrack artist track))
  /\ forall source,
       lyricistText (ti_lyricists track) = Some source ->
       lyricists (normalizeTrack artist track)
       = match entries (cutAt isSeparator source) with
         | [] => [ANONYMOUS]
         | (_ :: _) as found => found
         end.
Proof.
  set (found := entries (cutAt isSeparator (lyricistSource (ti_lyricists track)))).
  assert (H : lyricists (normalizeTrack artist track)
              = match found with [] => [ANONYMOUS] | _ :: _ => found end).
  { unfold normalizeTrack. destruct (normalizeYear (ti_year track)) as [y yt].
    cbn [lyricists]. by rewrite normalizeLyricists_entries. }
  split; [|split].
  - rewrite H. by destruct found.
  - rewrite H. destruct found as [|e l] eqn:Hfound; [by repeat constructor|].
    rewrite <- Hfound. unfold found.
    eapply Forall_impl; [apply entries_trimmed|].
    intros e' [Hne [piece [Hpiece ->]]]. left. split; [exact Hne|].
    split; [apply trim_trim|].
    apply Forall_trim.
    pose proof (cutAt_pieces isSeparator (lyricistSource (ti_lyricists track))) as Hcut.
    eapply Forall_forall in Hcut; [exact Hcut|exact Hpiece].
  - intros source Hsource. rewrite H. unfold found.
    destruct (ti_lyricists track) as [[s|items]|]; simpl in Hsource; [| discriminate |];
      injection Hsource as <-; cbn [lyricistSource]; by destruct (entries _).
Qed.

End LyricistText.

Lemma C9_lyricists_of_track_witness :
  let track := withLyricists (rawTrack (js "T") (js "x")) (js " 林夕/黄伟文 、, 林夕 ") in
  lyricistText (ti_lyricists track) = Some (js " 林夕/黄伟文 、, 林夕 ")
  /\ lyricists (normalizeTrack (js "A") track) = [js "林夕"; js "黄伟文"; js "林夕"]
  /\ lyricists (normalizeTrack (js "A") track)
     = match entries (cutAt isSeparator (js " 林夕/黄伟文 、, 林夕 ")) with
       | [] => [ANONYMOUS]
       | (_ :: _) as found => found
       end.
Proof.
  split; [reflexivity|]. split; [vm_compute; reflexivity|].
  exact (proj2 (proj2 (C9_lyricists_of_track (js "A")
                         (withLyricists (rawTrack (js "T") (js "x")) (js " 林夕/黄伟文 、, 林夕 "))))
           (js " 林夕/黄伟文 、, 林夕 ") eq_refl).
Defined.

(** The items of an array are joined with a space before the text is cut,
    so two names given apart come out as one. *)
Example lyricists_array_joined :
  normalizeLyricists (Some (inr [js "林夕"; js "黄伟文"])) = [js "林夕 黄伟文"]
  /\ normalizeLyricists (Some (inl (js "林夕/黄伟文"))) = [js "林夕"; js "黄伟文"].
Proof. vm_compute. split; reflexivity. Qed.
